(** * Cobalt: command-tree resolution and flag inheritance

    A shallow embedding of [cobalt.hpp] (namespace [Cobalt] and
    [Cobalt::detail]) together with the properties of its argument
    splitter, flag registry, command tree and dispatcher.

    Conventions of the embedding:
    - [std::string] is [string]; a [char] is an [ascii] byte.  Where the
      code compares two [char] with [<] the byte is read as signed, as on
      x86-64 ([char_value]); the keys of a [std::map] are ordered by
      [std::string]'s own comparison, which reads bytes as unsigned.
    - [std::sort] is an argument [std_sort] of the functions that call it,
      any function that rearranges into comparator order ([is_std_sort]):
      the order it gives to elements of equal rank is left open.
    - [int] values are [Z]; the only arithmetic the code does on them is on
      string lengths and edit distances, bounded by the length of the longer
      string ([edit_table_bound]).
    - [std::vector<T>] is [list T]; [std::map<std::string,std::string>] is a
      [gmap string string], iterated in increasing key order.
    - [std::shared_ptr<Command>] is an address into a heap of command
      records; [std::shared_ptr<Flag>] is the (immutable) flag record itself.
    - the storage that flag setters and hooks write to is an abstract world
      [W]; code that can throw lives in a state-and-exception monad over it.
    - walks along [Parent] and [Commands] pointers take a fuel argument and
      return [None] when it runs out. *)

From Stdlib Require Import String Ascii ZArith List Lia DecimalString DecimalPos.
From stdpp Require Import base option list gmap strings sorting.

Open Scope string_scope.
Open Scope list_scope.
Open Scope nat_scope.
Open Scope stdpp_scope.

Arguments Ascii.eqb : simpl never.

(** ** Utilities *)

Abbreviation Arguments := (list string).

(** The four characters [Ltrim] and [Rtrim] strip. *)
Definition is_blank (c : ascii) : bool :=
  Ascii.eqb c " " || Ascii.eqb c "010" || Ascii.eqb c "013" || Ascii.eqb c "009".

(** [s.substr(pos)] and [s.substr(pos, n)] for [pos <= s.size()]. *)
Definition substr_from (s : string) (pos : nat) : string :=
  substring pos (String.length s - pos) s.

Definition substr (s : string) (pos n : nat) : string :=
  substring pos (Nat.min n (String.length s - pos)) s.

(** [s.compare(0, needle.size(), needle) == 0] *)
Fixpoint starts_with (needle s : string) : bool :=
  match needle, s with
  | EmptyString, _ => true
  | String a needle', String b s' => Ascii.eqb a b && starts_with needle' s'
  | String _ _, EmptyString => false
  end.

(** [s.find(needle)]: the first position where [needle] occurs; [None]
    stands for [std::string::npos]. *)
Fixpoint find (s needle : string) : option nat :=
  if starts_with needle s then Some 0
  else match s with
       | EmptyString => None
       | String _ s' => S <$> find s' needle
       end.

(** [while (size > 0 && blank(string[0])) string = string.substr(1)] *)
Fixpoint Ltrim (s : string) : string :=
  match s with
  | String c s' => if is_blank c then Ltrim s' else s
  | EmptyString => s
  end.

(** [while (size > 0 && blank(string[size-1])) string = string.substr(0, size-1)];
    the loop runs at most [size] times. *)
Fixpoint Rtrim_loop (n : nat) (s : string) : string :=
  match n with
  | O => s
  | S n' =>
      match String.get (String.length s - 1) s with
      | Some c =>
          if (0 <? String.length s)%nat && is_blank c
          then Rtrim_loop n' (substr s 0 (String.length s - 1))
          else s
      | None => s
      end
  end.

Definition Rtrim (s : string) : string := Rtrim_loop (String.length s) s.

Definition Trim (s : string) : string := Rtrim (Ltrim s).

(** [std::tolower] in the C locale. *)
Definition tolower (c : ascii) : ascii :=
  let n := nat_of_ascii c in
  if ((65 <=? n) && (n <=? 90))%nat then ascii_of_nat (n + 32) else c.

Fixpoint ToLowerCase (s : string) : string :=
  match s with
  | EmptyString => EmptyString
  | String c s' => String (tolower c) (ToLowerCase s')
  end.

(** ** StripFlags *)

(** [std::map::insert]: an existing key keeps its value. *)
Definition map_insert (kv : string * string) (m : gmap string string)
  : gmap string string :=
  match m !! kv.1 with
  | Some _ => m
  | None => <[kv.1 := kv.2]> m
  end.

(** The test that makes [StripFlags] treat a (trimmed) token as a flag. *)
Definition looks_like_flag (arg : string) : bool :=
  bool_decide (find arg "--" ≠ None) || bool_decide (find arg "-" ≠ None).

(** The pair [newFlag] built for a (trimmed) flag token. *)
Definition make_flag (arg : string) : string * string :=
  match find arg "=" with
  | Some pos => (substr arg 0 pos, substr_from arg (pos + 1))
  | None => (arg, "true")
  end.

(** The [for] loop of [StripFlags]; [i] is the [int] loop counter and
    [flags] the optional out-parameter.  Every iteration either advances [i]
    or erases an element, so [length args] iterations are enough. *)
Fixpoint StripFlags_loop (fuel : nat) (i : Z) (args : Arguments)
    (flags : option (gmap string string))
  : option (Arguments * option (gmap string string)) :=
  if bool_decide (i < Z.of_nat (length args))%Z then
    match fuel with
    | O => None
    | S fuel' =>
        match args !! Z.to_nat i with
        | None => None
        | Some a =>
            let arg := Trim a in
            if looks_like_flag arg then
              let newFlag := make_flag arg in
              let flags' := map_insert newFlag <$> flags in
              let args' := delete (Z.to_nat i) args in
              let i' := (i - 1)%Z in
              StripFlags_loop fuel' (i' + 1)%Z args' flags'
            else StripFlags_loop fuel' (i + 1)%Z args flags
        end
    end
  else Some (args, flags).

Definition StripFlags (args : Arguments) (flags : option (gmap string string))
  : option (Arguments * option (gmap string string)) :=
  StripFlags_loop (length args) 0 args flags.

(** A token is flag-classified when it contains a dash anywhere. *)
Definition contains_dash (s : string) : bool :=
  existsb (Ascii.eqb "-") (list_ascii_of_string s).

(** The flag-map entry a token contributes, if it is flag-classified. *)
Definition flag_entry (a : string) : option (string * string) :=
  if contains_dash a then Some (make_flag (Trim a)) else None.

(** What the loop leaves of the tokens from position [i] on, and the flag
    map it builds from them. *)
Definition keep_positionals (args : Arguments) : Arguments :=
  List.filter (λ a, negb (contains_dash a)) args.

Definition collect_flags (args : Arguments) (m : gmap string string)
  : gmap string string :=
  fold_left (λ m kv, map_insert kv m) (omap flag_entry args) m.

(** The claim of the specification, in its words: a repeated key ends up
    with the value of its last occurrence. *)
Definition spec_last_write_wins : Prop :=
  ∀ (pre post : Arguments) (tok k v : string),
    flag_entry tok = Some (k, v) →
    Exists (λ t, fst <$> flag_entry t = Some k) pre →
    Forall (λ t, fst <$> flag_entry t ≠ Some k) post →
    ∃ pos m, StripFlags (pre ++ tok :: post) (Some ∅) = Some (pos, Some m)
             ∧ m !! k = Some v.

(** ** LevenshteinDistance *)

(** [s[i]] for [0 <= i < s.size()] *)
Definition char_at (s : string) (i : Z) : ascii :=
  default "000"%char (String.get (Z.to_nat i) s).

(** [std::min(std::initializer_list<int>)] *)
Definition std_min (l : list Z) : Z :=
  match l with
  | [] => 0%Z
  | x :: l' => fold_left Z.min l' x
  end.

(** The body of the inner [for] loop over [y]; the state is the array
    [column] and the local [last_diagonal]. *)
Definition Levenshtein_inner (s t : string) (x : Z) (st : list Z * Z) (y : Z)
  : list Z * Z :=
  let '(column, last_diagonal) := st in
  let old_diagonal := column !!! Z.to_nat y in
  let possibilities :=
    [ column !!! Z.to_nat y + 1;
      column !!! Z.to_nat (y - 1) + 1;
      last_diagonal
        + (if Ascii.eqb (char_at s (y - 1)) (char_at t (x - 1)) then 0 else 1) ]%Z in
  (<[Z.to_nat y := std_min possibilities]> column, old_diagonal).

(** The body of the outer [for] loop over [x]. *)
Definition Levenshtein_outer (s t : string) (s1len column_start : Z)
    (column : list Z) (x : Z) : list Z :=
  let column := <[0 := x]> column in
  let last_diagonal := (x - column_start)%Z in
  (fold_left (Levenshtein_inner s t x)
     (seqZ column_start (s1len + 1 - column_start)) (column, last_diagonal)).1.

(** [new int[s1len + 1]] leaves [column[0]] uninitialised; [uninit] is the
    value that happens to be there.  [std::iota] fills the other cells. *)
Definition LevenshteinDistance (uninit : Z) (s t : string) (ignoreCase : bool) : Z :=
  let s := if ignoreCase then ToLowerCase s else s in
  let t := if ignoreCase then ToLowerCase t else t in
  let s1len := Z.of_nat (String.length s) in
  let s2len := Z.of_nat (String.length t) in
  let column_start := 1%Z in
  let column := uninit :: seqZ column_start (s1len + 1 - column_start) in
  let column :=
    fold_left (Levenshtein_outer s t s1len column_start)
      (seqZ column_start (s2len + 1 - column_start)) column in
  column !!! Z.to_nat s1len.

(** The edit distance itself: the textbook recursion on the two strings. *)
Fixpoint levenshtein (s t : list ascii) : nat :=
  match s with
  | [] => length t
  | a :: s' =>
      (fix against (t : list ascii) : nat :=
         match t with
         | [] => length s
         | b :: t' =>
             Nat.min (levenshtein s' t + 1)
               (Nat.min (against t' + 1)
                  (levenshtein s' t' + (if Ascii.eqb a b then 0 else 1)))
         end) t
  end.

(** [edit s t n]: [s] can be turned into [t] with [n] single-character
    deletions, insertions and substitutions. *)
Inductive edit : list ascii → list ascii → nat → Prop :=
  | edit_done : edit [] [] 0
  | edit_delete a s t n : edit s t n → edit (a :: s) t (S n)
  | edit_insert b s t n : edit s t n → edit s (b :: t) (S n)
  | edit_keep a s t n : edit s t n → edit (a :: s) (a :: t) n
  | edit_substitute a b s t n : a ≠ b → edit s t n → edit (a :: s) (b :: t) (S n).

(** Entry [(y, x)] of the edit-distance table: the distance between the
    first [y] characters of [cs] and the first [x] characters of [ct]. *)
Definition edit_table (cs ct : list ascii) (y x : nat) : Z :=
  Z.of_nat (levenshtein (rev (take y cs)) (rev (take x ct))).

(** ** Exceptions and the world *)

(** The exception classes generated by [COBALT_ERROR], and the two standard
    ones that [std::stoi] and [std::string::substr] throw. *)
Inductive Exception : Type :=
  | UnknownTypeException (msg : string)
  | UnknownFlagException (msg : string)
  | WrongTypeException (msg : string)
  | NotRunnableException (msg : string)
  | invalid_argument
  | out_of_range.

(** Code that reads and writes the storage [W] behind the flags and may
    throw: the result is a value or the exception in flight, with the
    storage as the code left it. *)
Definition Throwing (W A : Type) : Type := W → (A + Exception) * W.

#[global] Instance Throwing_ret {W} : MRet (Throwing W) :=
  λ A (a : A) w, (inl a, w).

#[global] Instance Throwing_bind {W} : MBind (Throwing W) :=
  λ A B (k : A → Throwing W B) (m : Throwing W A) w,
    match m w with
    | (inl a, w') => k a w'
    | (inr e, w') => (inr e, w')
    end.

Definition throw {W A} (e : Exception) : Throwing W A := λ w, (inr e, w).

(** [try { body } catch (...) { handler }] *)
Definition try_catch {W A} (body : Throwing W A) (handler : Exception → Throwing W A)
  : Throwing W A :=
  λ w, match body w with
       | (inl a, w') => (inl a, w')
       | (inr e, w') => handler e w'
       end.

(** A [T&] into the storage. *)
Record Ref (W T : Type) : Type := { load : W → T; store : T → W → W }.
Arguments load {W T}.
Arguments store {W T}.

(** ** Flag types and conversions *)

Inductive Types : Type := BOOL | INT | FLOAT | CHAR | STRING | UNDETERMINED.

(** [std::isspace] in the C locale. *)
Definition isspace (c : ascii) : bool :=
  let n := nat_of_ascii c in (n =? 32) || ((9 <=? n) && (n <=? 13)).

Definition digit_value (c : ascii) : option Z :=
  let n := nat_of_ascii c in
  if (48 <=? n) && (n <=? 57) then Some (Z.of_nat (n - 48)) else None.

Fixpoint skip_spaces (s : string) : string :=
  match s with
  | String c s' => if isspace c then skip_spaces s' else s
  | EmptyString => s
  end.

(** The longest run of decimal digits at the front of [s]; [acc] is [None]
    until a digit has been read. *)
Fixpoint read_digits (s : string) (acc : option Z) : option Z :=
  match s with
  | String c s' =>
      match digit_value c with
      | Some d => read_digits s' (Some (10 * default 0 acc + d)%Z)
      | None => acc
      end
  | EmptyString => acc
  end.

Definition INT_MIN : Z := (- 2 ^ 31)%Z.
Definition INT_MAX : Z := (2 ^ 31 - 1)%Z.

(** [std::stoi(value)]: leading white space, an optional sign, decimal
    digits; what follows the digits is ignored. *)
Definition stoi (value : string) : Z + Exception :=
  let s := skip_spaces value in
  let '(negative, digits) :=
    match s with
    | String "-" s' => (true, s')
    | String "+" s' => (false, s')
    | _ => (false, s)
    end in
  match read_digits digits None with
  | None => inr invalid_argument
  | Some v =>
      let v := if negative then (- v)%Z else v in
      if bool_decide (INT_MIN ≤ v ≤ INT_MAX)%Z then inl v else inr out_of_range
  end.

(** [std::to_string(i)] for an [int]. *)
Definition to_string (i : Z) : string := NilZero.string_of_int (Z.to_int i).

(** [TypeToEnum<T>]: the type tag of [T], the value [Convert] assigns from a
    string (or the exception it throws), and the string [From] renders.
    The [float] and [double] specialisations are left out. *)
Class TypeToEnum (T : Type) : Type := {
  Value : Types;
  Convert : string → T + Exception;
  From : T → string
}.

#[global] Instance TypeToEnum_bool : TypeToEnum bool := {|
  Value := BOOL;
  Convert value := inl (if String.eqb value "true" then true else false);
  From v := if v then "true" else "false"
|}.

#[global] Instance TypeToEnum_char : TypeToEnum ascii := {|
  Value := CHAR;
  Convert value :=
    inl (match value with String c _ => c | EmptyString => "000"%char end);
  From c := String c EmptyString
|}.

#[global] Instance TypeToEnum_int : TypeToEnum Z := {|
  Value := INT;
  Convert value := stoi value;
  From i := to_string i
|}.

#[global] Instance TypeToEnum_string : TypeToEnum string := {|
  Value := STRING;
  Convert value := inl value;
  From s := s
|}.

(** ** Flag and Flags *)

Record Flag (W : Type) : Type := {
  FlagType : Types;
  FlagShort : string;
  FlagLong : string;
  FlagDescription : string;
  Setter : string → Throwing W unit
}.
Arguments FlagType {W}.
Arguments FlagShort {W}.
Arguments FlagLong {W}.
Arguments FlagDescription {W}.
Arguments Setter {W}.

Record Flags (W : Type) : Type := {
  flags : list (Flag W);
  ContinueOnError : bool
}.
Arguments flags {W}.
Arguments ContinueOnError {W}.

(** [s[i]] for [i <= s.size()]: the terminating null at [i = s.size()]. *)
Definition char_or_nul (s : string) (i : nat) : ascii :=
  default "000"%char (String.get i s).

(** [s.substr(pos)], which throws when [pos > s.size()]. *)
Definition substr_checked {W} (s : string) (pos : nat) : Throwing W string :=
  if pos <=? String.length s then mret (substr_from s pos) else throw out_of_range.

(** The order in which a [std::map<std::string, ...>] is iterated. *)
Definition key_le (a b : string * string) : Prop := String.leb a.1 b.1.

#[global] Instance key_le_dec a b : Decision (key_le a b) := _.

Definition map_entries (m : gmap string string) : list (string * string) :=
  merge_sort key_le (map_to_list m).

Section Flags.

Context {W : Type}.

Definition with_flags (F : Flags W) (l : list (Flag W)) : Flags W :=
  {| flags := l; ContinueOnError := ContinueOnError F |}.

(** [Flags::Add(Types, Long, Short, Description, Setter)] *)
Definition Add (F : Flags W) (type : Types) (Long Short Description : string)
    (setter : string → Throwing W unit) : Flags W :=
  let flag := {| FlagType := type; FlagShort := Short; FlagLong := Long;
                 FlagDescription := Description; Setter := setter |} in
  with_flags F (flags F ++ [flag]).

(** [Flags::Add<T>(Long, Short, Default, Description, Setter)]: the
    registry as the call leaves it, and what the call of the setter does. *)
Definition Add_with_default {T} `{TypeToEnum T} (F : Flags W)
    (Long Short : string) (Default : T) (Description : string)
    (setter : string → Throwing W unit) : Flags W * Throwing W unit :=
  (Add F Value Long Short Description setter, setter (From Default)).

(** [std::bind(TypeToEnum<T>::Convert, std::ref(Reference), _1)] *)
Definition bind_Convert {T} `{TypeToEnum T} (Reference : Ref W T)
  : string → Throwing W unit :=
  λ value w,
    match Convert value with
    | inl r => (inl (), store Reference r w)
    | inr e => (inr e, w)
    end.

(** [Flags::Add<T>(Reference, Long, Short, Description)] *)
Definition Add_ref {T} `{TypeToEnum T} (F : Flags W) (Reference : Ref W T)
    (Long Short Description : string) : Flags W :=
  Add F Value Long Short Description (bind_Convert Reference).

(** [Flags::Add<T>(Reference, Long, Short, Default, Description)]: the
    registry as the call leaves it, and the assignment to [Reference]. *)
Definition Add_ref_default {T} `{TypeToEnum T} (F : Flags W) (Reference : Ref W T)
    (Long Short : string) (Default : T) (Description : string)
  : Flags W * Throwing W unit :=
  (Add_ref F Reference Long Short Description,
   λ w, (inl (), store Reference Default w)).

(** [Flags::Add(std::shared_ptr<Flag>)] *)
Definition Add_ptr (F : Flags W) (flag : Flag W) : Flags W :=
  with_flags F (flags F ++ [flag]).

(** [Flags::Lookup(name)]: the first flag with that long name. *)
Definition Lookup (F : Flags W) (name : string) : option (Flag W) :=
  List.find (λ f, String.eqb (FlagLong f) name) (flags F).

Definition Size (F : Flags W) : nat := length (flags F).

(** The body of the loop of [Flags::Parse] for one entry of the map.  For
    an empty key the read of [pair.first[1]] is past the terminator;
    whatever it yields, [substr] throws. *)
Definition Parse_entry (F : Flags W) (pair : string * string) : Throwing W unit :=
  name ← (if Ascii.eqb (char_or_nul pair.1 1) "-"
          then substr_checked pair.1 2 else substr_checked pair.1 1);
  let flag :=
    if Ascii.eqb (char_or_nul pair.1 1) "-"
    then List.find (λ flag, String.eqb (FlagLong flag) name) (flags F)
    else List.find (λ flag, String.eqb (FlagShort flag) name) (flags F) in
  match flag with
  | None => throw (UnknownFlagException ("Unknown flag: " +:+ name))
  | Some flag => Setter flag pair.2
  end.

(** [Flags::Parse(args)] *)
Definition Parse (F : Flags W) (args : gmap string string) : Throwing W unit :=
  foldr (λ pair rest, _ ← Parse_entry F pair; rest) (mret ()) (map_entries args).

(** The resolution of a key as the specification words it: by long name
    after two leading dashes, by short name after one. *)
Definition spec_resolve (F : Flags W) (key : string) : option (string * option (Flag W)) :=
  match key with
  | String "-" (String "-" name) =>
      Some (name, List.find (λ f, String.eqb (FlagLong f) name) (flags F))
  | String "-" name =>
      Some (name, List.find (λ f, String.eqb (FlagShort f) name) (flags F))
  | _ => None
  end.

End Flags.

Section Flags_spec.

Context {W : Type}.

(** [Flags::Parse] as the specification words it: every entry is resolved
    with [spec_resolve]; an entry without a descriptor fails with
    [UnknownFlag], any other has its setter called with the value. *)
Definition spec_Parse (F : Flags W) (args : gmap string string) : Throwing W unit :=
  foldr (λ pair rest,
           match spec_resolve F pair.1 with
           | Some (name, Some flag) => _ ← Setter flag pair.2; rest
           | Some (name, None) =>
               throw (UnknownFlagException ("Unknown flag: " +:+ name))
           | None => throw out_of_range
           end)
    (mret ()) (map_entries args).

(** The resolution of a key as [Flags::Parse] makes it.  The first
    character is not looked at: with a dash as second character the key is
    resolved by long name, the name being what follows the two; otherwise
    by short name, the name being what follows the first character.  A key
    without characters has no name. *)
Definition resolve_by_second_character (F : Flags W) (key : string)
  : option (string * option (Flag W)) :=
  match key with
  | String _ (String "-" name) =>
      Some (name, List.find (λ f, String.eqb (FlagLong f) name) (flags F))
  | String _ name =>
      Some (name, List.find (λ f, String.eqb (FlagShort f) name) (flags F))
  | EmptyString => None
  end.

(** [Flags::Parse] worded with that resolution: the entries are taken in
    key order; an entry without a descriptor fails with [UnknownFlag], any
    other has the setter of the first matching descriptor called with the
    value; for a key without characters [substr] throws
    [std::out_of_range]. *)
Definition amended_Parse (F : Flags W) (args : gmap string string) : Throwing W unit :=
  foldr (λ pair rest,
           match resolve_by_second_character F pair.1 with
           | Some (name, Some flag) => _ ← Setter flag pair.2; rest
           | Some (name, None) =>
               throw (UnknownFlagException ("Unknown flag: " +:+ name))
           | None => throw out_of_range
           end)
    (mret ()) (map_entries args).

End Flags_spec.

(** ** Command *)

(** A [std::shared_ptr<Command>]. *)
Abbreviation ptr := nat.

(** [Command::HookType] *)
Definition HookType (W : Type) : Type := list string → Throwing W Z.

(** The five hook members. *)
Inductive Hook : Type :=
  | hook_PersistentPreRun | hook_PreRun | hook_Run | hook_PostRun
  | hook_PersistentPostRun.

(** The members of [detail::Command], but for [Output] and [Data].  A null
    [std::function] or [shared_ptr] is [None].  The constructor leaves
    [SilenceErrors], [SilenceUsage] and [IsSorted] uninitialised: the record
    holds whatever value they happen to have. *)
Record Command (W : Type) : Type := {
  Use : string;
  Aliases : list string;
  Short : string;
  Long : string;
  Example : string;
  Deprecated : string;
  Hidden : bool;
  Annotations : gmap string string;
  PersistentFlags : Flags W;
  LocalFlags : Flags W;
  SilenceErrors : bool;
  SilenceUsage : bool;
  PersistentPreRun : option (HookType W);
  PreRun : option (HookType W);
  Run : option (HookType W);
  PostRun : option (HookType W);
  PersistentPostRun : option (HookType W);
  Parent : option ptr;
  Commands : list ptr;
  IsSorted : bool
}.
Arguments Use {W}.
Arguments Aliases {W}.
Arguments Short {W}.
Arguments Long {W}.
Arguments Example {W}.
Arguments Deprecated {W}.
Arguments Hidden {W}.
Arguments Annotations {W}.
Arguments PersistentFlags {W}.
Arguments LocalFlags {W}.
Arguments SilenceErrors {W}.
Arguments SilenceUsage {W}.
Arguments PersistentPreRun {W}.
Arguments PreRun {W}.
Arguments Run {W}.
Arguments PostRun {W}.
Arguments PersistentPostRun {W}.
Arguments Parent {W}.
Arguments Commands {W}.
Arguments IsSorted {W}.

(** What a dispatch writes: the diagnostic on [std::cerr], and the usage
    text of a command on its [Output] stream (the text is not modelled). *)
Inductive Output : Type :=
  | to_cerr (text : string)
  | usage_of (cmd : ptr).

(** What [Execute] leaves behind: the [int] it returns or the exception that
    escapes it, the commands and the storage as it left them, what it wrote,
    and the hooks it called, in order. *)
Record Executed (W : Type) : Type := {
  status : Z + Exception;
  final_heap : gmap ptr (Command W);
  final_world : W;
  output : list Output;
  invoked : list (ptr * Hook)
}.
Arguments status {W}.
Arguments final_heap {W}.
Arguments final_world {W}.
Arguments output {W}.
Arguments invoked {W}.

Definition newline : string := String "010"%char EmptyString.

(** The value of a [char]: [char] is signed on x86-64, so the bytes from
    128 up are negative. *)
Definition char_value (c : ascii) : Z :=
  let n := Z.of_N (N_of_ascii c) in
  if (n <? 128)%Z then n else (n - 256)%Z.

(** [a < b] on [char]. *)
Definition char_lt (a b : ascii) : bool := (char_value a <? char_value b)%Z.

(** [std::lexicographical_compare(a.begin(), a.end(), b.begin(), b.end())],
    which compares the elements with [<] on [char]. *)
Fixpoint lexicographical_compare (a b : string) : bool :=
  match a, b with
  | String x a', String y b' =>
      if char_lt x y then true
      else if char_lt y x then false
      else lexicographical_compare a' b'
  | EmptyString, String _ _ => true
  | _, EmptyString => false
  end.

(** The order [SortSubCommands] sorts by: [a] goes before [b] unless the
    comparison object of the call says that [b] is less than [a]. *)
Definition name_le (a b : string * ptr) : Prop :=
  negb (lexicographical_compare b.1 a.1).

(** What [std::sort] with that comparison object guarantees of the function
    it computes on the children, given as pairs of name and address: the
    result is a rearrangement of the sequence in which no element is less
    than one before it.  Elements of equal name may come out in any
    order. *)
Definition is_std_sort (std_sort : list (string * ptr) → list (string * ptr)) : Prop :=
  ∀ l, std_sort l ≡ₚ l ∧ Sorted name_le (std_sort l).

#[global] Instance name_le_dec a b : Decision (name_le a b) := _.

Section Command.

Context {W : Type}.

Local Abbreviation heap := (gmap ptr (Command W)).

Definition set_PersistentFlags (c : Command W) (F : Flags W) : Command W :=
  {| Use := Use c; Aliases := Aliases c; Short := Short c; Long := Long c;
     Example := Example c; Deprecated := Deprecated c; Hidden := Hidden c;
     Annotations := Annotations c; PersistentFlags := F;
     LocalFlags := LocalFlags c; SilenceErrors := SilenceErrors c;
     SilenceUsage := SilenceUsage c; PersistentPreRun := PersistentPreRun c;
     PreRun := PreRun c; Run := Run c; PostRun := PostRun c;
     PersistentPostRun := PersistentPostRun c; Parent := Parent c;
     Commands := Commands c; IsSorted := IsSorted c |}.

Definition set_Parent (c : Command W) (p : option ptr) : Command W :=
  {| Use := Use c; Aliases := Aliases c; Short := Short c; Long := Long c;
     Example := Example c; Deprecated := Deprecated c; Hidden := Hidden c;
     Annotations := Annotations c; PersistentFlags := PersistentFlags c;
     LocalFlags := LocalFlags c; SilenceErrors := SilenceErrors c;
     SilenceUsage := SilenceUsage c; PersistentPreRun := PersistentPreRun c;
     PreRun := PreRun c; Run := Run c; PostRun := PostRun c;
     PersistentPostRun := PersistentPostRun c; Parent := p;
     Commands := Commands c; IsSorted := IsSorted c |}.

Definition set_Commands (c : Command W) (l : list ptr) (sorted : bool) : Command W :=
  {| Use := Use c; Aliases := Aliases c; Short := Short c; Long := Long c;
     Example := Example c; Deprecated := Deprecated c; Hidden := Hidden c;
     Annotations := Annotations c; PersistentFlags := PersistentFlags c;
     LocalFlags := LocalFlags c; SilenceErrors := SilenceErrors c;
     SilenceUsage := SilenceUsage c; PersistentPreRun := PersistentPreRun c;
     PreRun := PreRun c; Run := Run c; PostRun := PostRun c;
     PersistentPostRun := PersistentPostRun c; Parent := Parent c;
     Commands := l; IsSorted := sorted |}.

(** [Command::Name]: the usage line up to its first space. *)
Definition Name (c : Command W) : string :=
  match find (Use c) " " with
  | None => Use c
  | Some pos => substr (Use c) 0 pos
  end.

Definition HasAlias (c : Command W) (name : string) : bool :=
  existsb (λ alias, String.eqb alias name) (Aliases c).

Definition IsRunnable (c : Command W) : bool := bool_decide (is_Some (Run c)).

(** [Command::Root] *)
Fixpoint Root (fuel : nat) (h : heap) (this : ptr) : option ptr :=
  match fuel with
  | O => None
  | S fuel' =>
      c ← h !! this;
      match Parent c with
      | None => Some this
      | Some parent => Root fuel' h parent
      end
  end.

(** The [while] loop of [Command::CommandPath]. *)
Fixpoint CommandPath_loop (fuel : nat) (h : heap) (x : ptr) (path : string)
  : option string :=
  match fuel with
  | O => None
  | S fuel' =>
      c ← h !! x;
      match Parent c with
      | None => Some path
      | Some parent =>
          d ← h !! parent;
          CommandPath_loop fuel' h parent (Name d +:+ " " +:+ path)
      end
  end.

Definition CommandPath (fuel : nat) (h : heap) (this : ptr) : option string :=
  c ← h !! this; CommandPath_loop fuel h this (Name c).

(** [for (auto& cmd : cmds) if (available(cmd)) return true; return false;] *)
Fixpoint any_available (available : ptr → option bool) (cmds : list ptr)
  : option bool :=
  match cmds with
  | [] => Some false
  | cmd :: rest =>
      a ← available cmd;
      if a : bool then Some true else any_available available rest
  end.

(** [Command::IsAvailableCommand], with the loop of
    [HasAvailableSubCommands] it calls. *)
Fixpoint IsAvailableCommand (fuel : nat) (h : heap) (this : ptr) : option bool :=
  match fuel with
  | O => None
  | S fuel' =>
      c ← h !! this;
      if (0 <? String.length (Deprecated c)) || Hidden c then Some false
      else if IsRunnable c then Some true
      else any_available (IsAvailableCommand fuel' h) (Commands c)
  end.

(** [Command::HasAvailableSubCommands] *)
Definition HasAvailableSubCommands (fuel : nat) (h : heap) (this : ptr)
  : option bool :=
  c ← h !! this; any_available (IsAvailableCommand fuel h) (Commands c).

(** The loop of [Command::SuggestionsFor]; [uninit cmd] is the content of
    the uninitialised cell in the call of [LevenshteinDistance] for [cmd]. *)
Fixpoint SuggestionsFor_loop (uninit : ptr → Z) (fuel : nat) (h : heap)
    (name : string) (cmds : list ptr) (suggestions : list string)
  : option (list string) :=
  match cmds with
  | [] => Some suggestions
  | cmd :: rest =>
      available ← IsAvailableCommand fuel h cmd;
      if negb available then SuggestionsFor_loop uninit fuel h name rest suggestions
      else
        c ← h !! cmd;
        let distance := LevenshteinDistance (uninit cmd) name (Name c) true in
        let suggestByLevenshtein := bool_decide (distance ≤ 2)%Z in
        let suggestByPrefix :=
          String.eqb (substr (ToLowerCase (Name c)) 0 (String.length name))
            (ToLowerCase name) in
        if suggestByLevenshtein || suggestByPrefix
        then SuggestionsFor_loop uninit fuel h name rest (suggestions ++ [Name c])
        else SuggestionsFor_loop uninit fuel h name rest suggestions
  end.

Definition SuggestionsFor (uninit : ptr → Z) (fuel : nat) (h : heap)
    (this : ptr) (name : string) : option (list string) :=
  c ← h !! this; SuggestionsFor_loop uninit fuel h name (Commands c) [].

(** [for (auto& flag : source) if (!target.Lookup(flag->Long)) target.Add(flag);] *)
Definition merge_flags (target : Flags W) (source : list (Flag W)) : Flags W :=
  fold_left
    (λ target flag,
       match Lookup target (FlagLong flag) with
       | Some _ => target
       | None => Add_ptr target flag
       end)
    source target.

(** The closure [rmerge] of [Command::InheritedFlags]: the recursion into
    the parent sits inside the test for a non-empty registry. *)
Fixpoint InheritedFlags_rmerge (fuel : nat) (h : heap) (result : Flags W)
    (cmd : ptr) : option (Flags W) :=
  match fuel with
  | O => None
  | S fuel' =>
      c ← h !! cmd;
      if 0 <? Size (PersistentFlags c) then
        let result := merge_flags result (flags (PersistentFlags c)) in
        match Parent c with
        | Some parent => InheritedFlags_rmerge fuel' h result parent
        | None => Some result
        end
      else Some result
  end.

(** [Command::InheritedFlags]; [ContinueOnError] of the fresh [result] is
    uninitialised and never read. *)
Definition InheritedFlags (fuel : nat) (h : heap) (this : ptr) : option (Flags W) :=
  c ← h !! this;
  let result := {| flags := []; ContinueOnError := false |} in
  match Parent c with
  | Some parent => InheritedFlags_rmerge fuel h result parent
  | None => Some result
  end.

(** The closure [rmerge] of [Command::MergePersistentFlags], which writes to
    the registry of [this]: the recursion into the parent sits after the
    test, not inside it.  When [cmd] is [this] every flag is found by the
    [Lookup], so nothing is added to the registry being iterated. *)
Fixpoint MergePersistentFlags_rmerge (fuel : nat) (h : heap) (this cmd : ptr)
  : option heap :=
  match fuel with
  | O => None
  | S fuel' =>
      c ← h !! cmd;
      h' ← (if 0 <? Size (PersistentFlags c) then
              me ← h !! this;
              Some (<[this := set_PersistentFlags me
                                (merge_flags (PersistentFlags me)
                                   (flags (PersistentFlags c)))]> h)
            else Some h);
      match Parent c with
      | Some parent => MergePersistentFlags_rmerge fuel' h' this parent
      | None => Some h'
      end
  end.

Definition MergePersistentFlags (fuel : nat) (h : heap) (this : ptr) : option heap :=
  MergePersistentFlags_rmerge fuel h this this.

(** [Command::FullFlags] *)
Definition FullFlags (fuel : nat) (h : heap) (this : ptr)
  : option (heap * Flags W) :=
  h' ← MergePersistentFlags fuel h this;
  c ← h' !! this;
  Some (h', merge_flags (LocalFlags c) (flags (PersistentFlags c))).

Definition HasAvailableFlags (fuel : nat) (h : heap) (this : ptr)
  : option (heap * bool) :=
  '(h', full) ← FullFlags fuel h this; Some (h', 0 <? Size full).

(** [Command::SortSubCommands].  [std_sort] is what [std::sort] does with
    the children, each taken with the name the comparison reads; the
    standard leaves the order of children of equal name open. *)
Definition SortSubCommands (std_sort : list (string * ptr) → list (string * ptr))
    (h : heap) (this : ptr) : option heap :=
  c ← h !! this;
  if IsSorted c then Some h
  else
    named ← mapM (λ cmd, (λ d, (Name d, cmd)) <$> h !! cmd) (Commands c);
    Some (<[this := set_Commands c (std_sort named).*2 true]> h).

(** [Command::AddCommand] *)
Definition AddCommand (std_sort : list (string * ptr) → list (string * ptr))
    (h : heap) (this cmd : ptr) : option heap :=
  c ← h !! cmd;
  let h := <[cmd := set_Parent c (Some this)]> h in
  me ← h !! this;
  let h := <[this := set_Commands me (Commands me ++ [cmd]) (IsSorted me)]> h in
  SortSubCommands std_sort h this.

(** What [Command::Usage] does to the commands: [HasAvailableFlags] merges
    the persistent flags of a runnable command.  The walks it makes besides
    have to end. *)
Definition Usage (fuel : nat) (h : heap) (this : ptr) : option heap :=
  c ← h !! this;
  h' ← (if IsRunnable c then fst <$> HasAvailableFlags fuel h this else Some h);
  _ ← HasAvailableSubCommands fuel h' this;
  _ ← CommandPath fuel h' this;
  _ ← InheritedFlags fuel h' this;
  Some h'.

End Command.

Section Execute.

Context {W : Type}.

Local Abbreviation heap := (gmap ptr (Command W)).

(** The inner [for] loop of [Execute]: the first available child whose name
    or alias is [arg]. *)
Fixpoint find_subcommand (fuel : nat) (h : heap) (cmds : list ptr) (arg : string)
  : option (option ptr) :=
  match cmds with
  | [] => Some None
  | cmd :: rest =>
      available ← IsAvailableCommand fuel h cmd;
      if negb available then find_subcommand fuel h rest arg
      else
        c ← h !! cmd;
        if String.eqb (Name c) arg || HasAlias c arg then Some (Some cmd)
        else find_subcommand fuel h rest arg
  end.

(** The [while (true)] loop of [Execute]: every round that does not leave
    the loop erases the first argument.  The test for available
    subcommands is made on [this], the root, in every round. *)
Fixpoint Execute_resolve (fuel : nat) (h : heap) (this tmp : ptr)
    (args : list string) : option (ptr * list string) :=
  match args with
  | [] => Some (tmp, args)
  | arg :: rest =>
      has ← HasAvailableSubCommands fuel h this;
      if negb has then Some (tmp, args)
      else
        c ← h !! tmp;
        found ← find_subcommand fuel h (Commands c) arg;
        match found with
        | Some cmd => Execute_resolve fuel h this cmd rest
        | None => Some (tmp, args)
        end
  end.

(** The text appended to the diagnostic for the suggestions. *)
Definition suggestionsString (suggestions : list string) : string :=
  if 0 <? length suggestions then
    fold_left (λ acc s, acc +:+ ("   " +:+ s +:+ newline)) suggestions
      (newline +:+ newline +:+ "Did you mean this?" +:+ newline)
  else "".

(** [try { return tmp->Run(args); } catch (NotRunnableException&) { ... }] *)
Definition Execute_run (fuel : nat) (h : heap) (tmp : ptr) (run : HookType W)
    (args : list string) (out : list Output) (w : W) : option (Executed W) :=
  match run args w with
  | (inl r, w') =>
      Some {| status := inl r; final_heap := h; final_world := w';
              output := out; invoked := [(tmp, hook_Run)] |}
  | (inr (NotRunnableException _), w') =>
      h' ← Usage fuel h tmp;
      Some {| status := inl 0%Z; final_heap := h'; final_world := w';
              output := out ++ [usage_of tmp]; invoked := [(tmp, hook_Run)] |}
  | (inr e, w') =>
      Some {| status := inr e; final_heap := h; final_world := w';
              output := out; invoked := [(tmp, hook_Run)] |}
  end.

(** [Execute] from the test [tmp->IsRunnable()] on. *)
Definition Execute_dispatch (fuel : nat) (h : heap) (tmp : ptr)
    (args : list string) (flags : gmap string string) (w : W)
  : option (Executed W) :=
  c ← h !! tmp;
  match Run c with
  | Some run =>
      '(h1, full) ← FullFlags fuel h tmp;
      match Parse full flags w with
      | (inl _, w1) => Execute_run fuel h1 tmp run args [] w1
      | (inr _, w1) =>
          '(h2, full') ← FullFlags fuel h1 tmp;
          if negb (ContinueOnError full') then
            h3 ← Usage fuel h2 tmp;
            Some {| status := inl (-1)%Z; final_heap := h3; final_world := w1;
                    output := [usage_of tmp]; invoked := [] |}
          else Execute_run fuel h2 tmp run args [] w1
      end
  | None =>
      h1 ← Usage fuel h tmp;
      Some {| status := inl 0%Z; final_heap := h1; final_world := w;
              output := [usage_of tmp]; invoked := [] |}
  end.

(** [Execute] on a command without parent.  [InjectHelpCommand] builds a
    help command and drops it without adding it anywhere; all it needs is
    that [Root] returns. *)
Definition Execute_root (uninit : ptr → Z) (fuel : nat) (h : heap) (this : ptr)
    (args : list string) (w : W) : option (Executed W) :=
  _ ← Root fuel h this;
  '(args, flags) ← StripFlags args (Some ∅);
  let flags := default ∅ flags in
  '(tmp, args) ← Execute_resolve fuel h this this args;
  root ← Root fuel h this;
  not_found ←
    (if bool_decide (tmp = root) then
       has ← HasAvailableSubCommands fuel h tmp;
       Some (has && (0 <? length args))
     else Some false);
  if not_found : bool then
    suggestions ← SuggestionsFor uninit fuel h tmp (default "" (head args));
    path ← CommandPath fuel h tmp;
    Some {| status := inl (-1)%Z; final_heap := h; final_world := w;
            output := [to_cerr ("Unknown command " +:+ default "" (head args)
                                +:+ " for " +:+ path
                                +:+ suggestionsString suggestions)];
            invoked := [] |}
  else Execute_dispatch fuel h tmp args flags w.

(** [Command::Execute(Arguments)]: a command with a parent hands over to
    its root. *)
Definition Execute (uninit : ptr → Z) (fuel : nat) (h : heap) (this : ptr)
    (args : list string) (w : W) : option (Executed W) :=
  c ← h !! this;
  match Parent c with
  | Some _ => root ← Root fuel h this; Execute_root uninit fuel h root args w
  | None => Execute_root uninit fuel h this args w
  end.

End Execute.

(** ** Notions used to state the properties of the command tree *)

Section Tree.

Context {W : Type}.

Local Abbreviation heap := (gmap ptr (Command W)).

(** [reaches_root h p d]: following [Parent] from [p] ends, after [d]
    steps, at a command without parent. *)
Inductive reaches_root (h : heap) : ptr → nat → Prop :=
  | reaches_root_here p c :
      h !! p = Some c → Parent c = None → reaches_root h p 0
  | reaches_root_up p c parent d :
      h !! p = Some c → Parent c = Some parent →
      reaches_root h parent d → reaches_root h p (S d).

(** [ancestor_or_self h p q]: [q] is [p] or is reached from [p] by
    following [Parent]. *)
Inductive ancestor_or_self (h : heap) : ptr → ptr → Prop :=
  | ancestor_self p : ancestor_or_self h p p
  | ancestor_up p c parent q :
      h !! p = Some c → Parent c = Some parent →
      ancestor_or_self h parent q → ancestor_or_self h p q.

(** Every long name registered in [F] is registered in [G]. *)
Definition extends (F G : Flags W) : Prop :=
  ∀ name, is_Some (Lookup F name) → is_Some (Lookup G name).

(** The long name of every flag of [source] is registered in [F]. *)
Definition absorbs (F : Flags W) (source : list (Flag W)) : Prop :=
  ∀ flag, In flag source → is_Some (Lookup F (FlagLong flag)).

(** The registry that [MergePersistentFlags_rmerge] builds for [this],
    whose record is [me] and whose registry is currently [F]. *)
Fixpoint rmerge_registry (fuel : nat) (h : heap) (this : ptr) (me : Command W)
    (F : Flags W) (cmd : ptr) : option (Flags W) :=
  match fuel with
  | O => None
  | S fuel' =>
      c ← (if decide (cmd = this) then Some (set_PersistentFlags me F) else h !! cmd);
      let F' := if 0 <? Size (PersistentFlags c)
                then merge_flags F (flags (PersistentFlags c)) else F in
      match Parent c with
      | Some parent => rmerge_registry fuel' h this me F' parent
      | None => Some F'
      end
  end.

(** [MergedPersistentFlags] as the specification words it: the registry of
    the node, with the flags found by the gated upward walk of
    [InheritedFlags] merged in. *)
Definition spec_MergedPersistentFlags (fuel : nat) (h : heap) (this : ptr)
  : option (Flags W) :=
  c ← h !! this;
  inherited ← InheritedFlags fuel h this;
  Some (merge_flags (PersistentFlags c) (flags inherited)).

End Tree.

(** ** Concrete trees *)

(** A command as [std::make_shared<Command>()] and a few assignments leave
    it: usage line, persistent flags, [Run] hook, parent and children. *)
Definition make_Command {W} (use : string) (persistent : list (Flag W))
    (run : option (HookType W)) (parent : option ptr) (children : list ptr)
    (sorted : bool) : Command W :=
  {| Use := use; Aliases := []; Short := ""; Long := ""; Example := "";
     Deprecated := ""; Hidden := false; Annotations := ∅;
     PersistentFlags := {| flags := persistent; ContinueOnError := false |};
     LocalFlags := {| flags := []; ContinueOnError := false |};
     SilenceErrors := false; SilenceUsage := false;
     PersistentPreRun := None; PreRun := None; Run := run; PostRun := None;
     PersistentPostRun := None; Parent := parent; Commands := children;
     IsSorted := sorted |}.

(** A [bool] variable as the whole storage. *)
Definition the_bool : Ref bool bool := {| load w := w; store v _ := v |}.

Definition verbose_flag : Flag bool :=
  {| FlagType := BOOL; FlagShort := "v"; FlagLong := "verbose";
     FlagDescription := "print more"; Setter := bind_Convert the_bool |}.

Definition run_ok {W} : HookType W := λ _, mret 0%Z.

(** The chain a -> b -> c in which only a declares a persistent flag. *)
Definition chain_abc : gmap ptr (Command bool) :=
  <[0 := make_Command "a" [verbose_flag] None None [1] true]>
  (<[1 := make_Command "b" [] None (Some 0) [2] true]>
  (<[2 := make_Command "c" [] (Some run_ok) (Some 1) [] true]> ∅)).

Section Merge_claims.

Context {W : Type}.

(** The long names in the persistent registry of [this] after
    [MergePersistentFlags]. *)
Definition merged_names (fuel : nat) (h : gmap ptr (Command W)) (this : ptr)
  : option (list string) :=
  h' ← MergePersistentFlags fuel h this;
  c ← h' !! this;
  Some (FlagLong <$> flags (PersistentFlags c)).

(** The claim that the merge is gated like [InheritedFlags]. *)
Definition spec_merge_gated (fuel : nat) (h : gmap ptr (Command W)) (this : ptr)
  : Prop :=
  merged_names fuel h this
  = (λ F, FlagLong <$> flags F) <$> spec_MergedPersistentFlags fuel h this.

End Merge_claims.

(** ** Notions used to state the properties of suggestions and dispatch *)

Section Suggestions_spec.

Context {W : Type}.

Local Abbreviation heap := (gmap ptr (Command W)).

(** [tree_below h n p]: [p] and everything under it (following
    [Commands]) is allocated, and the subtree of [p] has at most [n]
    levels. *)
Fixpoint tree_below (h : heap) (n : nat) (p : ptr) : Prop :=
  match n with
  | O => False
  | S n' => ∃ c, h !! p = Some c ∧ Forall (tree_below h n') (Commands c)
  end.



End Suggestions_spec.

(** A root "app" with the single runnable child "help [command]". *)
Definition root_with_help : gmap ptr (Command bool) :=
  <[0 := make_Command "app" [] None None [1] true]>
  (<[1 := make_Command "help [command]" [] (Some run_ok) (Some 0) [] true]> ∅).

(** Storage that records the names of the hooks that ran, latest last. *)
Definition logging_hook (name : string) : HookType (list string) :=
  λ _ w, (inl 0%Z, w ++ [name]).

(** A single runnable command with all five hooks set. *)
Definition root_with_hooks : gmap ptr (Command (list string)) :=
  {[ 0 :=
     {| Use := "app"; Aliases := []; Short := ""; Long := ""; Example := "";
        Deprecated := ""; Hidden := false; Annotations := ∅;
        PersistentFlags := {| flags := []; ContinueOnError := false |};
        LocalFlags := {| flags := []; ContinueOnError := false |};
        SilenceErrors := false; SilenceUsage := false;
        PersistentPreRun := Some (logging_hook "PersistentPreRun");
        PreRun := Some (logging_hook "PreRun");
        Run := Some (logging_hook "Run");
        PostRun := Some (logging_hook "PostRun");
        PersistentPostRun := Some (logging_hook "PersistentPostRun");
        Parent := None; Commands := []; IsSorted := true |} ]}.

(** A command "app" without children whose [IsSorted] is false, and two
    commands "b" and "a" not yet added to it. *)
Definition app_b_a : gmap ptr (Command bool) :=
  <[0 := make_Command "app" [] None None [] false]>
  (<[1 := make_Command "b" [] (Some run_ok) None [] false]>
  (<[2 := make_Command "a" [] (Some run_ok) None [] false]> ∅)).

(** The names of the children of [this], in the order of [Commands], and
    its [IsSorted]. *)
Definition children_names {W} (h : gmap ptr (Command W)) (this : ptr)
  : option (list string * bool) :=
  c ← h !! this;
  names ← mapM (λ cmd, Name <$> h !! cmd) (Commands c);
  Some (names, IsSorted c).

(** An [int] variable as the whole storage, and a registry with a flag
    bound to it. *)
Definition the_int : Ref Z Z := {| load w := w; store v _ := v |}.

Definition no_flags {W} : Flags W := {| flags := []; ContinueOnError := false |}.

Definition count_flags : Flags Z := Add_ref no_flags the_int "count" "c" "how many".

(** ** Further utilities *)

(** The [while] loop of [Rpad] for a [size] that is not negative: one space
    is appended per round. *)
Fixpoint Rpad_loop (n : nat) (s : string) (size : Z) : string :=
  match n with
  | O => s
  | S n' =>
      if (Z.of_nat (String.length s) <? size)%Z then Rpad_loop n' (s +:+ " ") size
      else s
  end.

(** [Rpad(string, size)], with [size] an [int].  The test
    [string.size() < size] converts [size] to [size_t].  A [size] that is
    not negative is compared as it is, and the loop runs
    [size - string.size()] times at most.  A negative [size] becomes a
    bound of at least 2^64 - 2^31 characters, more than can be allocated:
    the loop pads until [+=] throws, and no string is returned ([None]). *)
Definition Rpad (s : string) (size : Z) : option string :=
  if (size <? 0)%Z then None
  else Some (Rpad_loop (Z.to_nat size - String.length s) s size).

(** [n] spaces. *)
Fixpoint spaces (n : nat) : string :=
  match n with
  | O => ""
  | S n' => String " " (spaces n')
  end.

(** [ConvertArguments(argc, argv)]: [argv[i]] for [i] from 1 below [argc];
    [None] when an index lies outside [argv]. *)
Definition ConvertArguments (argc : Z) (argv : list string) : option (list string) :=
  fold_left
    (λ args i, args ← args; a ← argv !! Z.to_nat i; Some (args ++ [a]))
    (seqZ 1 (argc - 1)) (Some []).

(** Every character of [s] is one that [Trim] strips. *)
Definition all_blank (s : string) : Prop :=
  Forall (λ c, is_blank c = true) (list_ascii_of_string s).

(** [s] neither starts nor ends with a character that [Trim] strips. *)
Definition trimmed (s : string) : Prop :=
  (∀ c rest, s = String c rest → is_blank c = false)
  ∧ (∀ front c, s = front +:+ String c "" → is_blank c = false).

(** What [std::stoi] makes of the integer [v] it has read. *)
Definition int_or_out_of_range (v : Z) : Z + Exception :=
  if bool_decide (INT_MIN ≤ v ≤ INT_MAX)%Z then inl v else inr out_of_range.

(** ** Notions used to state how a flag name is resolved *)

Section Lineage.

Context {W : Type}.

(** The command [p] and its ancestors, nearest first, as they are in [h]. *)
Fixpoint lineage (fuel : nat) (h : gmap ptr (Command W)) (p : ptr)
  : option (list (Command W)) :=
  match fuel with
  | O => None
  | S fuel' =>
      c ← h !! p;
      match Parent c with
      | None => Some [c]
      | Some parent => (c ::.) <$> lineage fuel' h parent
      end
  end.

(** The first flag with long name [name] in the persistent registries of
    [cs], taken in order. *)
Fixpoint declared_by (name : string) (cs : list (Command W)) : option (Flag W) :=
  match cs with
  | [] => None
  | c :: cs' =>
      match Lookup (PersistentFlags c) name with
      | Some flag => Some flag
      | None => declared_by name cs'
      end
  end.

(** The commands of [cs] up to the first one without persistent flags. *)
Fixpoint gated (cs : list (Command W)) : list (Command W) :=
  match cs with
  | [] => []
  | c :: cs' => if 0 <? Size (PersistentFlags c) then c :: gated cs' else []
  end.

End Lineage.

(** A command "app" that is not sorted, with the children "b" and "a" in
    that order. *)
Definition app_unsorted : gmap ptr (Command bool) :=
  <[0 := make_Command "app" [] None None [1; 2] false]>
  (<[1 := make_Command "b" [] (Some run_ok) (Some 0) [] false]>
  (<[2 := make_Command "a" [] (Some run_ok) (Some 0) [] false]> ∅)).

Section Resolution.

Context {W : Type}.

(** [descends h p tokens q]: from [p], the tokens name a path down to [q].
    Every token is the name or an alias of a child, listed in [Commands],
    that is neither hidden nor deprecated. *)
Inductive descends (h : gmap ptr (Command W)) : ptr → list string → ptr → Prop :=
  | descends_here p : descends h p [] p
  | descends_into p c child d token tokens q :
      h !! p = Some c → child ∈ Commands c → h !! child = Some d →
      Name d = token ∨ In token (Aliases d) →
      Hidden d = false → Deprecated d = "" →
      descends h child tokens q →
      descends h p (token :: tokens) q.

End Resolution.

Section Same_tree.

Context {W : Type}.

(** A command with its persistent registry blanked. *)
Definition without_persistent (c : Command W) : Command W :=
  set_PersistentFlags c {| flags := []; ContinueOnError := false |}.

(** [same_tree h h']: the same addresses are allocated in [h] and [h'], and
    the commands there differ at most in their persistent registry. *)
Definition same_tree (h h' : gmap ptr (Command W)) : Prop :=
  ∀ p, without_persistent <$> h' !! p = without_persistent <$> h !! p.

End Same_tree.

(** ** The usage text *)

Section Usage_text.

Context {W : Type}.

Local Abbreviation heap := (gmap ptr (Command W)).

(** [Flag::Usage] *)
Definition Flag_Usage (f : Flag W) : option string :=
  let result := "" in
  let result := result +:+ ("--" +:+ FlagLong f) in
  let result :=
    if negb (String.eqb (FlagShort f) "") then result +:+ (", -" +:+ FlagShort f)
    else result in
  result ← Rpad result 20;
  Some (result +:+ FlagDescription f).

Definition HasExample (c : Command W) : bool := 0 <? String.length (Example c).

(** [Command::UseLine] *)
Definition UseLine (fuel : nat) (h : heap) (this : ptr) : option string :=
  c ← h !! this;
  line ← match Parent c with
         | Some parent => path ← CommandPath fuel h parent; Some (path +:+ " ")
         | None => Some ""
         end;
  Some (line +:+ Use c).

(** [for (auto& x : xs) ss << "   " << x << std::endl;] *)
Fixpoint indented (xs : list string) : string :=
  match xs with
  | [] => ""
  | x :: rest => "   " +:+ x +:+ newline +:+ indented rest
  end.

(** The first block of [Command::Usage], the usage lines: the commands as
    [HasAvailableFlags] leaves them, and what is put in the string stream. *)
Definition Usage_main (fuel : nat) (h : heap) (this : ptr) : option (heap * string) :=
  c ← h !! this;
  if IsRunnable c then
    '(h, has_flags) ← HasAvailableFlags fuel h this;
    first ← (if has_flags : bool then
               line ← UseLine fuel h this;
               Some ("   " +:+ line +:+ " [flags]" +:+ newline)
             else Some "");
    has_commands ← HasAvailableSubCommands fuel h this;
    second ← (if has_commands : bool then
                path ← CommandPath fuel h this;
                Some ("   " +:+ path +:+ " [command]" +:+ newline)
              else
                line ← UseLine fuel h this;
                Some ("   " +:+ line +:+ newline));
    Some (h, first +:+ second)
  else
    has_commands ← HasAvailableSubCommands fuel h this;
    if has_commands : bool then
      path ← CommandPath fuel h this;
      Some (h, "   " +:+ path +:+ " [command]" +:+ newline)
    else Some (h, "").

(** [Command::Usage] with the text it sends to [Output], block after
    block. *)
Definition Usage_text (fuel : nat) (h : heap) (this : ptr) : option (heap * string) :=
  '(h, main) ← Usage_main fuel h this;
  c ← h !! this;
  let aliases :=
    if 0 <? length (Aliases c) then
      newline +:+ "Aliases:" +:+ newline +:+ "   " +:+ Name c +:+ newline
      +:+ indented (Aliases c)
    else "" in
  let example :=
    if HasExample c then
      newline +:+ "Example:" +:+ newline +:+ "   " +:+ Example c +:+ newline
    else "" in
  has_commands ← HasAvailableSubCommands fuel h this;
  commands ←
    (if has_commands : bool then
       rows ← mapM (λ cmd, d ← h !! cmd;
                           padded ← Rpad (Name d) 20;
                           Some (padded +:+ Short d)) (Commands c);
       Some (newline +:+ "Available commands:" +:+ newline +:+ indented rows)
     else Some "");
  local ←
    (if 0 <? Size (LocalFlags c) then
       rows ← mapM Flag_Usage (flags (LocalFlags c));
       Some (newline +:+ "Flags:" +:+ newline +:+ indented rows)
     else Some "");
  inherited ← InheritedFlags fuel h this;
  global ←
    (if 0 <? Size inherited then
       rows ← mapM Flag_Usage (flags inherited);
       Some (newline +:+ "Global Flags:" +:+ newline +:+ indented rows)
     else Some "");
  Some (h, "Usage:" +:+ newline +:+ main +:+ aliases +:+ example +:+ commands
           +:+ local +:+ global).

End Usage_text.

(** "app" with a runnable child "run" and a hidden, deprecated child
    "secret". *)
Definition app_hidden : gmap ptr (Command Z) :=
  <[0 := make_Command "app" [] None None [1; 2] true]>
  (<[1 := make_Command "run" [] (Some run_ok) (Some 0) [] true]>
  (<[2 := {| Use := "secret"; Aliases := []; Short := "not for users"; Long := "";
             Example := ""; Deprecated := "gone"; Hidden := true; Annotations := ∅;
             PersistentFlags := {| flags := []; ContinueOnError := false |};
             LocalFlags := {| flags := []; ContinueOnError := false |};
             SilenceErrors := false; SilenceUsage := false;
             PersistentPreRun := None; PreRun := None; Run := Some run_ok;
             PostRun := None; PersistentPostRun := None; Parent := Some 0;
             Commands := []; IsSorted := true |}]> ∅)).

(** * Properties *)

Section StripFlags_facts.

Lemma find_dash (s : string) :
  find s "-" ≠ None ↔ contains_dash s = true.
Proof.
  unfold contains_dash. induction s as [|c s IH]; simpl.
  - split; [intros H; congruence | discriminate].
  - destruct (Ascii.eqb "-" c); simpl.
    + split; [reflexivity | discriminate].
    + destruct (find s "-") eqn:E; simpl.
      * split; [intros _; apply IH; discriminate | discriminate].
      * split; [intros H; contradiction | intros H; apply IH in H; contradiction].
Qed.

Lemma find_dashdash (s : string) :
  find s "--" ≠ None → contains_dash s = true.
Proof.
  unfold contains_dash. induction s as [|c s IH]; simpl.
  - congruence.
  - destruct (Ascii.eqb "-" c); simpl; [reflexivity|].
    destruct (find s "--"); simpl; [intros _; apply IH; discriminate | congruence].
Qed.

Lemma looks_like_flag_dash (s : string) : looks_like_flag s = contains_dash s.
Proof.
  unfold looks_like_flag.
  destruct (contains_dash s) eqn:E.
  - apply orb_true_iff. right. apply bool_decide_eq_true, find_dash, E.
  - apply orb_false_iff. split; apply bool_decide_eq_false; intros H.
    + apply find_dashdash in H. congruence.
    + apply find_dash in H. congruence.
Qed.

Lemma is_blank_not_dash c : is_blank c = true → Ascii.eqb "-" c = false.
Proof.
  unfold is_blank. intros H.
  destruct (Ascii.eqb_spec "-"%char c) as [<-|]; [discriminate H | reflexivity].
Qed.

Lemma Ltrim_dash (s : string) : contains_dash (Ltrim s) = contains_dash s.
Proof.
  unfold contains_dash. induction s as [|c s IH]; simpl; [reflexivity|].
  destruct (is_blank c) eqn:E; [|reflexivity].
  rewrite IH, (is_blank_not_dash _ E). reflexivity.
Qed.

Lemma substring_0_all (s : string) : substring 0 (String.length s) s = s.
Proof. induction s; simpl; congruence. Qed.

Lemma chop_last (s : string) (c : ascii) :
  String.get (String.length s - 1) s = Some c →
  list_ascii_of_string s
  = (list_ascii_of_string (substr s 0 (String.length s - 1)) ++ [c])%list.
Proof.
  unfold substr. rewrite Nat.sub_0_r.
  rewrite Nat.min_l by lia.
  induction s as [|a s IH]; [discriminate|].
  destruct s as [|b s].
  - simpl. intros [= ->]. reflexivity.
  - change (String.length (String a (String b s)))
      with (S (String.length (String b s))).
    change (String.length (String b s)) with (S (String.length s)) in *.
    replace (S (S (String.length s)) - 1) with (S (String.length s)) by lia.
    replace (S (String.length s) - 1) with (String.length s) in IH by lia.
    intros H. cbn [get] in H.
    change (substring 0 (S (String.length s)) (String a (String b s)))
      with (String a (substring 0 (String.length s) (String b s))).
    cbn [list_ascii_of_string app]. f_equal.
    apply IH, H.
Qed.

Lemma Rtrim_loop_dash (n : nat) (s : string) :
  contains_dash (Rtrim_loop n s) = contains_dash s.
Proof.
  revert s. induction n as [|n IH]; intros s; simpl; [reflexivity|].
  destruct (String.get (String.length s - 1) s) as [c|] eqn:E; [|reflexivity].
  destruct ((0 <? String.length s)%nat && is_blank c) eqn:B; [|reflexivity].
  apply andb_true_iff in B as [_ B].
  rewrite IH. unfold contains_dash. rewrite (chop_last _ _ E).
  rewrite existsb_app. simpl. rewrite (is_blank_not_dash _ B).
  rewrite !orb_false_r. reflexivity.
Qed.

Lemma Trim_dash (s : string) : contains_dash (Trim s) = contains_dash s.
Proof. unfold Trim, Rtrim. rewrite Rtrim_loop_dash. apply Ltrim_dash. Qed.

Lemma StripFlags_loop_spec (fuel : nat) (pre rest : Arguments)
    (flags : option (gmap string string)) :
  length rest ≤ fuel →
  StripFlags_loop fuel (Z.of_nat (length pre)) (pre ++ rest) flags
  = Some (pre ++ keep_positionals rest, collect_flags rest <$> flags).
Proof.
  revert pre rest flags. induction fuel as [|fuel IH]; intros pre rest flags Hf.
  - destruct rest; [|simpl in Hf; lia]. simpl.
    rewrite bool_decide_eq_false_2 by (rewrite length_app; simpl; lia).
    destruct flags; reflexivity.
  - destruct rest as [|a rest].
    + simpl. rewrite bool_decide_eq_false_2 by (rewrite length_app; simpl; lia).
      destruct flags; reflexivity.
    + cbn [StripFlags_loop].
      rewrite bool_decide_eq_true_2 by (rewrite length_app; simpl; lia).
      rewrite Nat2Z.id.
      rewrite lookup_app_r by lia. rewrite Nat.sub_diag. cbn [lookup list_lookup].
      rewrite looks_like_flag_dash, Trim_dash.
      destruct (contains_dash a) eqn:E.
      * replace (Z.of_nat (length pre) - 1 + 1)%Z with (Z.of_nat (length pre)) by lia.
        rewrite delete_middle. rewrite IH by (simpl in Hf; lia).
        unfold keep_positionals, collect_flags, flag_entry. cbn [List.filter omap list_omap].
        rewrite E. cbn [negb fold_left]. destruct flags; reflexivity.
      * replace (Z.of_nat (length pre) + 1)%Z with (Z.of_nat (length (pre ++ [a]))).
        2:{ rewrite length_app. simpl. lia. }
        replace (pre ++ a :: rest) with ((pre ++ [a]) ++ rest).
        2:{ rewrite <- app_assoc. reflexivity. }
        rewrite IH by (simpl in Hf; lia).
        unfold keep_positionals, collect_flags, flag_entry. cbn [List.filter omap list_omap].
        rewrite E. cbn [negb].
        rewrite <- app_assoc. reflexivity.
Qed.

(** C8: [StripFlags] returns exactly the tokens without a dash, in their
    input order, so no flag-classified token is left in the positional
    output; the tokens with a dash go to the flag map. *)
Theorem StripFlags_positionals (args : Arguments) (flags : option (gmap string string)) :
  StripFlags args flags
  = Some (List.filter (λ a, negb (contains_dash a)) args,
          collect_flags args <$> flags)
  ∧ Forall (λ a, contains_dash a = false)
      (List.filter (λ a, negb (contains_dash a)) args).
Proof.
  split.
  - unfold StripFlags. apply (StripFlags_loop_spec (length args) [] args). lia.
  - apply List.Forall_forall. intros a Ha. apply List.filter_In in Ha as [_ Ha].
    apply negb_true_iff, Ha.
Qed.

Lemma map_insert_keeps kv (m : gmap string string) k v :
  m !! k = Some v → map_insert kv m !! k = Some v.
Proof.
  intros H. unfold map_insert. destruct (m !! kv.1) eqn:E; [exact H|].
  rewrite lookup_insert_ne; [exact H | congruence].
Qed.

Lemma map_insert_other kv (m : gmap string string) k :
  kv.1 ≠ k → map_insert kv m !! k = m !! k.
Proof.
  intros H. unfold map_insert. destruct (m !! kv.1); [reflexivity|].
  apply lookup_insert_ne, H.
Qed.

Lemma map_insert_fresh k v (m : gmap string string) :
  m !! k = None → map_insert (k, v) m !! k = Some v.
Proof. intros H. unfold map_insert. simpl. rewrite H. apply lookup_insert_eq. Qed.

Lemma collect_flags_keeps (args : Arguments) (m : gmap string string) k v :
  m !! k = Some v → collect_flags args m !! k = Some v.
Proof.
  unfold collect_flags. revert m.
  induction (omap flag_entry args) as [|kv l IH]; intros m H; simpl; [exact H|].
  apply IH, map_insert_keeps, H.
Qed.

Lemma collect_flags_app (xs ys : Arguments) (m : gmap string string) :
  collect_flags (xs ++ ys) m = collect_flags ys (collect_flags xs m).
Proof. unfold collect_flags. rewrite omap_app, fold_left_app. reflexivity. Qed.

Lemma collect_flags_other (args : Arguments) (m : gmap string string) k :
  Forall (λ t, fst <$> flag_entry t ≠ Some k) args →
  collect_flags args m !! k = m !! k.
Proof.
  unfold collect_flags. intros H. revert m.
  induction H as [|a l Ha _ IH]; intros m; [reflexivity|].
  cbn [omap list_omap]. destruct (flag_entry a) as [kv|]; [|apply IH].
  cbn [fold_left]. rewrite IH. apply map_insert_other.
  intros E. apply Ha. simpl. congruence.
Qed.

(** C4, counterexample: for ["--x=1"; "--x=2"] the map holds "1" under
    "--x", the value of the first occurrence, not "2". *)
Lemma StripFlags_not_last_write_wins : ¬ spec_last_write_wins.
Proof.
  intros H.
  destruct (H ["--x=1"] [] "--x=2" "--x" "2") as (pos & m & Hs & Hm).
  - reflexivity.
  - constructor. reflexivity.
  - constructor.
  - vm_compute in Hs. injection Hs as _ <-. vm_compute in Hm. discriminate.
Qed.

(** C4, amended: a key is associated with the value of the first
    flag-classified token that carries it ([std::map::insert] leaves an
    existing key alone), whatever tokens follow. *)
Theorem StripFlags_first_write_wins (pre post : Arguments) (tok k v : string)
    (m0 : gmap string string) :
  flag_entry tok = Some (k, v) →
  Forall (λ t, fst <$> flag_entry t ≠ Some k) pre →
  m0 !! k = None →
  ∃ pos m, StripFlags (pre ++ tok :: post) (Some m0) = Some (pos, Some m)
           ∧ m !! k = Some v.
Proof.
  intros Htok Hpre Hm0.
  exists (keep_positionals (pre ++ tok :: post)), (collect_flags (pre ++ tok :: post) m0).
  split.
  - unfold StripFlags.
    apply (StripFlags_loop_spec _ [] (pre ++ tok :: post) (Some m0)). lia.
  - rewrite collect_flags_app.
    change (tok :: post) with ([tok] ++ post). rewrite collect_flags_app.
    apply collect_flags_keeps.
    unfold collect_flags at 1. cbn [omap list_omap]. rewrite Htok. cbn [fold_left].
    apply map_insert_fresh. rewrite collect_flags_other; assumption.
Qed.

Lemma StripFlags_first_write_wins_witness :
  ∃ pos m, StripFlags (["run"] ++ "--x=1" :: ["--x=2"]) (Some ∅) = Some (pos, Some m)
           ∧ m !! "--x" = Some "1".
Proof.
  apply (StripFlags_first_write_wins ["run"] ["--x=2"] "--x=1" "--x" "1" ∅).
  - reflexivity.
  - repeat constructor. vm_compute. discriminate.
  - reflexivity.
Defined.

End StripFlags_facts.

Section Levenshtein_facts.

Example LevenshteinDistance_hlp : LevenshteinDistance 77 "hlp" "help" true = 1%Z.
Proof. vm_compute. reflexivity. Qed.

Example LevenshteinDistance_kitten : LevenshteinDistance 77 "Kitten" "sitting" true = 3%Z.
Proof. vm_compute. reflexivity. Qed.

Example LevenshteinDistance_empty : LevenshteinDistance 77 "" "" true = 77%Z.
Proof. vm_compute. reflexivity. Qed.

Example LevenshteinDistance_empty_l : LevenshteinDistance 77 "" "ab" true = 2%Z.
Proof. vm_compute. reflexivity. Qed.

Example LevenshteinDistance_empty_r : LevenshteinDistance 77 "abc" "" true = 3%Z.
Proof. vm_compute. reflexivity. Qed.

Lemma levenshtein_nil_r s : levenshtein s [] = length s.
Proof. destruct s; reflexivity. Qed.

Lemma levenshtein_cons_cons a b s t :
  levenshtein (a :: s) (b :: t)
  = Nat.min (levenshtein s (b :: t) + 1)
      (Nat.min (levenshtein (a :: s) t + 1)
         (levenshtein s t + (if Ascii.eqb a b then 0 else 1))).
Proof. reflexivity. Qed.

Lemma levenshtein_lower_bound s t n : edit s t n → levenshtein s t ≤ n.
Proof.
  induction 1 as [|a s t n _ IH|b s t n _ IH|a s t n _ IH|a b s t n Hab _ IH].
  - simpl. lia.
  - destruct t as [|b t].
    + rewrite levenshtein_nil_r in *. simpl. lia.
    + rewrite levenshtein_cons_cons. lia.
  - destruct s as [|a s].
    + simpl in *. lia.
    + rewrite levenshtein_cons_cons. lia.
  - rewrite levenshtein_cons_cons, Ascii.eqb_refl. lia.
  - rewrite levenshtein_cons_cons. destruct (Ascii.eqb a b); lia.
Qed.

Lemma edit_nil_l t : edit [] t (length t).
Proof. induction t; simpl; constructor; assumption. Qed.

Lemma edit_nil_r s : edit s [] (length s).
Proof. induction s; simpl; constructor; assumption. Qed.

Lemma levenshtein_achieved s t : edit s t (levenshtein s t).
Proof.
  revert t. induction s as [|a s IHs]; intros t.
  - apply edit_nil_l.
  - induction t as [|b t IHt].
    + rewrite levenshtein_nil_r. apply edit_nil_r.
    + rewrite levenshtein_cons_cons.
      destruct (Nat.min_spec (levenshtein s (b :: t) + 1)
                  (Nat.min (levenshtein (a :: s) t + 1)
                     (levenshtein s t + (if Ascii.eqb a b then 0 else 1))))
        as [[_ ->]|[_ ->]].
      * rewrite Nat.add_1_r. apply edit_delete, IHs.
      * destruct (Nat.min_spec (levenshtein (a :: s) t + 1)
                  (levenshtein s t + (if Ascii.eqb a b then 0 else 1)))
          as [[_ ->]|[_ ->]].
        -- rewrite Nat.add_1_r. apply edit_insert, IHt.
        -- destruct (Ascii.eqb_spec a b) as [->|Hab].
           ++ rewrite Nat.add_0_r. apply edit_keep, IHs.
           ++ rewrite Nat.add_1_r. apply edit_substitute; [exact Hab | apply IHs].
Qed.

Lemma edit_app s1 t1 n1 s2 t2 n2 :
  edit s1 t1 n1 → edit s2 t2 n2 → edit (s1 ++ s2) (t1 ++ t2) (n1 + n2).
Proof.
  intros H1 H2. induction H1; simpl; try (constructor; assumption). exact H2.
Qed.

Lemma edit_rev s t n : edit s t n → edit (rev s) (rev t) n.
Proof.
  induction 1 as [|a s t n _ IH|b s t n _ IH|a s t n _ IH|a b s t n Hab _ IH]; simpl.
  - constructor.
  - replace (S n) with (n + 1) by lia. rewrite <- (app_nil_r (rev t)).
    apply edit_app; [exact IH | repeat constructor].
  - replace (S n) with (n + 1) by lia. rewrite <- (app_nil_r (rev s)).
    apply edit_app; [exact IH | repeat constructor].
  - replace n with (n + 0) by lia.
    apply edit_app; [exact IH | repeat constructor].
  - replace (S n) with (n + 1) by lia.
    apply edit_app; [exact IH | apply edit_substitute; [exact Hab | constructor]].
Qed.

Lemma levenshtein_rev s t : levenshtein (rev s) (rev t) = levenshtein s t.
Proof.
  apply Nat.le_antisymm.
  - apply levenshtein_lower_bound, edit_rev, levenshtein_achieved.
  - rewrite <- (rev_involutive s), <- (rev_involutive t) at 1.
    apply levenshtein_lower_bound, edit_rev, levenshtein_achieved.
Qed.

(** [levenshtein s t] is the least number of single-character edits that
    turn [s] into [t]. *)
Lemma levenshtein_least s t :
  edit s t (levenshtein s t) ∧ ∀ n, edit s t n → levenshtein s t ≤ n.
Proof. split; [apply levenshtein_achieved | apply levenshtein_lower_bound]. Qed.

End Levenshtein_facts.

Section Levenshtein_table.

Lemma get_list_ascii (s : string) (i : nat) :
  String.get i s = list_ascii_of_string s !! i.
Proof.
  revert i. induction s as [|c s IH]; intros [|i]; simpl; try reflexivity. apply IH.
Qed.

Lemma length_list_ascii (s : string) :
  length (list_ascii_of_string s) = String.length s.
Proof. induction s; simpl; congruence. Qed.

Lemma length_ToLowerCase (s : string) :
  String.length (ToLowerCase s) = String.length s.
Proof. induction s; simpl; congruence. Qed.

Lemma fold_left_fmap_seq {A B} (f : A → B → A) (g : nat → B) l a :
  fold_left f (g <$> l) a = fold_left (λ a i, f a (g i)) l a.
Proof. revert a. induction l; intros; simpl; auto. Qed.

Lemma fold_left_seq_inv {A} (f : A → nat → A) (P : nat → A → Prop) start len a :
  P start a →
  (∀ i a, start ≤ i < start + len → P i a → P (S i) (f a i)) →
  P (start + len) (fold_left f (seq start len) a).
Proof.
  revert start a. induction len as [|len IH]; intros start a H0 Hs; simpl.
  - rewrite Nat.add_0_r. exact H0.
  - replace (start + S len) with (S start + len) by lia.
    apply IH.
    + apply Hs; [lia | exact H0].
    + intros i b Hi. apply Hs. lia.
Qed.

Lemma lookup_total_row (f : nat → Z) N i :
  i < N → (f <$> seq 0 N) !!! i = f i.
Proof.
  intros H. apply list_lookup_total_correct.
  rewrite list_lookup_fmap, lookup_seq_lt by lia. reflexivity.
Qed.

Lemma insert_row (f f' : nat → Z) N j :
  (∀ i, i ≠ j → f' i = f i) →
  <[j := f' j]> (f <$> seq 0 N) = f' <$> seq 0 N.
Proof.
  intros H. apply list_eq. intros i.
  destruct (decide (i = j)) as [->|Hne].
  - destruct (decide (j < N)).
    + rewrite list_lookup_insert_eq by (rewrite length_fmap, length_seq; lia).
      rewrite list_lookup_fmap, lookup_seq_lt by lia. reflexivity.
    + rewrite !lookup_ge_None_2; [reflexivity| |];
        rewrite ?length_insert, length_fmap, length_seq; lia.
  - rewrite list_lookup_insert_ne by done.
    rewrite !list_lookup_fmap.
    destruct (seq 0 N !! i) as [k|] eqn:E; simpl; [|reflexivity].
    apply lookup_seq in E as [-> _]. simpl. f_equal. symmetry. apply H, Hne.
Qed.

Variables cs ct : list ascii.

Local Abbreviation D := (edit_table cs ct).

Lemma D_0_x x : x ≤ length ct → D 0 x = Z.of_nat x.
Proof.
  intros H. unfold edit_table. simpl. rewrite length_rev, length_take. f_equal. lia.
Qed.

Lemma D_y_0 y : y ≤ length cs → D y 0 = Z.of_nat y.
Proof.
  intros H. unfold edit_table. simpl. rewrite levenshtein_nil_r, length_rev, length_take.
  f_equal. lia.
Qed.

Lemma D_step y x a b :
  cs !! y = Some a → ct !! x = Some b →
  D (y + 1) (x + 1)
  = (Z.min (D (y + 1) x + 1)
       (Z.min (D y (x + 1) + 1) (D y x + (if Ascii.eqb a b then 0 else 1))))%Z.
Proof.
  intros Ha Hb. unfold edit_table. rewrite !Nat.add_1_r.
  rewrite (take_S_r _ _ _ Ha), (take_S_r _ _ _ Hb).
  rewrite !rev_app_distr. cbn [rev app].
  rewrite levenshtein_cons_cons.
  destruct (Ascii.eqb a b); lia.
Qed.

Lemma D_full : D (length cs) (length ct) = Z.of_nat (levenshtein cs ct).
Proof. unfold edit_table. rewrite !firstn_all. rewrite levenshtein_rev. reflexivity. Qed.


Variables s t : string.
Hypothesis Hcs : cs = list_ascii_of_string s.
Hypothesis Hct : ct = list_ascii_of_string t.

Local Abbreviation n := (length cs).

(** The array in the middle of row [x + 1]: cells up to [k] already hold
    the new row, the others still the row [x]. *)
Local Abbreviation mixrow x k :=
  ((λ i, if i <=? k then D i (x + 1) else D i x) <$> seq 0 (n + 1)).

Lemma char_at_lookup (u : string) (i : nat) c :
  list_ascii_of_string u !! i = Some c → char_at u (Z.of_nat i + 1 - 1) = c.
Proof.
  intros H. unfold char_at. replace (Z.of_nat i + 1 - 1)%Z with (Z.of_nat i) by lia.
  rewrite Nat2Z.id, get_list_ascii, H. reflexivity.
Qed.

Lemma Levenshtein_inner_step x k :
  x < length ct → k < n →
  Levenshtein_inner s t (Z.of_nat x + 1) (mixrow x k, D k x) (Z.of_nat k + 1)
  = (mixrow x (k + 1), D (k + 1) x).
Proof.
  intros Hx Hk.
  destruct (lookup_lt_is_Some_2 cs k Hk) as [a Ha].
  destruct (lookup_lt_is_Some_2 ct x Hx) as [b Hb].
  unfold Levenshtein_inner.
  replace (Z.to_nat (Z.of_nat k + 1)) with (k + 1) by lia.
  replace (Z.to_nat (Z.of_nat k + 1 - 1)) with k by lia.
  rewrite !lookup_total_row by lia.
  rewrite Nat.leb_refl.
  replace (k + 1 <=? k) with false by (symmetry; apply Nat.leb_gt; lia).
  rewrite (char_at_lookup s k a) by (rewrite <- Hcs; exact Ha).
  rewrite (char_at_lookup t x b) by (rewrite <- Hct; exact Hb).
  f_equal.
  set (v := std_min _).
  assert (Hv : v = D (k + 1) (x + 1)).
  { subst v. cbn [std_min fold_left]. rewrite (D_step k x a b Ha Hb).
    destruct (Ascii.eqb a b); lia. }
  rewrite Hv.
  assert (Hrow := insert_row
            (λ i, if i <=? k then D i (x + 1) else D i x)
            (λ i, if i <=? k + 1 then D i (x + 1) else D i x) (n + 1) (k + 1)).
  cbv beta in Hrow. rewrite Nat.leb_refl in Hrow. apply Hrow.
  intros i Hi.
  destruct (Nat.leb_spec i (k + 1)), (Nat.leb_spec i k); try reflexivity; lia.
Qed.

Lemma seqZ_from_1 (k : nat) :
  seqZ 1 (Z.of_nat k + 1 - 1) = (λ i, Z.of_nat i + 1)%Z <$> seq 0 k.
Proof. unfold seqZ. f_equal. f_equal. lia. Qed.

Lemma Levenshtein_outer_step g x :
  x < length ct →
  Levenshtein_outer s t (Z.of_nat n) 1 (g :: ((λ i, D i x) <$> seq 1 n))
    (Z.of_nat x + 1)
  = (λ i, D i (x + 1)) <$> seq 0 (n + 1).
Proof.
  intros Hx. unfold Levenshtein_outer.
  rewrite seqZ_from_1, fold_left_fmap_seq.
  replace (Z.of_nat x + 1 - 1)%Z with (D 0 x) by (rewrite D_0_x; lia).
  assert (H0 : <[0 := (Z.of_nat x + 1)%Z]> (g :: ((λ i, D i x) <$> seq 1 n))
               = mixrow x 0).
  { rewrite (Nat.add_1_r n). cbn [seq fmap list_fmap insert list_insert Nat.leb].
    f_equal; [rewrite D_0_x; lia|].
    apply list_fmap_ext. intros i k Hk. apply lookup_seq in Hk as [-> _].
    reflexivity. }
  rewrite H0.
  pose proof (fold_left_seq_inv
    (λ a i, Levenshtein_inner s t (Z.of_nat x + 1) a (Z.of_nat i + 1))
    (λ k st, st = (mixrow x k, D k x)) 0 n _ eq_refl) as Hfold.
  cbv beta in Hfold. rewrite Hfold.
  - cbn [fst Nat.add]. apply list_fmap_ext. intros i k Hk.
    apply lookup_seq in Hk as [-> Hi].
    replace (0 + i <=? n) with true by (symmetry; apply Nat.leb_le; lia).
    reflexivity.
  - intros i a [_ Hi] ->. rewrite Levenshtein_inner_step by lia.
    rewrite Nat.add_1_r. reflexivity.
Qed.

Lemma Levenshtein_table_filled uninit :
  0 < n ∨ 0 < length ct →
  fold_left (Levenshtein_outer s t (Z.of_nat n) 1)
    (seqZ 1 (Z.of_nat (length ct) + 1 - 1)) (uninit :: seqZ 1 (Z.of_nat n + 1 - 1))
  !!! n
  = D n (length ct).
Proof.
  intros Hne. rewrite !seqZ_from_1, fold_left_fmap_seq.
  pose proof (fold_left_seq_inv
    (λ a i, Levenshtein_outer s t (Z.of_nat n) 1 a (Z.of_nat i + 1))
    (λ x col, ∃ g, col = g :: ((λ i, D i x) <$> seq 1 n) ∧ (0 < x → g = D 0 x))
    0 (length ct) (uninit :: ((λ i : nat, (Z.of_nat i + 1)%Z) <$> seq 0 n)))
    as Hfold.
  cbv beta in Hfold. destruct Hfold as (g & -> & Hg).
  - exists uninit. split; [|lia]. f_equal.
    apply list_eq. intros i. rewrite !list_lookup_fmap.
    destruct (decide (i < n)) as [Hi|Hi].
    + rewrite !lookup_seq_lt by lia. simpl. rewrite D_y_0 by lia. f_equal. lia.
    + rewrite !lookup_seq_ge by lia. reflexivity.
  - intros x col [_ Hx] (g & -> & _).
    rewrite Levenshtein_outer_step by lia.
    exists (D 0 (S x)). split; [|reflexivity].
    rewrite !Nat.add_1_r. reflexivity.
  - cbn [Nat.add]. destruct n as [|k] eqn:En.
    + simpl. apply Hg. lia.
    + change ((g :: ((λ i, D i (length ct)) <$> seq 1 (S k))) !!! S k)
        with (((λ i, D i (length ct)) <$> seq 1 (S k)) !!! k).
      apply list_lookup_total_correct.
      rewrite list_lookup_fmap, lookup_seq_lt by lia. reflexivity.
Qed.

End Levenshtein_table.

Lemma LevenshteinDistance_any_case uninit (s t : string) :
  s ≠ "" ∨ t ≠ "" →
  LevenshteinDistance uninit s t false
  = Z.of_nat (levenshtein (list_ascii_of_string s) (list_ascii_of_string t)).
Proof.
  intros Hne. unfold LevenshteinDistance.
  rewrite <- !length_list_ascii.
  rewrite Nat2Z.id.
  rewrite (Levenshtein_table_filled _ _ s t eq_refl eq_refl).
  - apply D_full.
  - rewrite !length_list_ascii.
    destruct Hne as [H|H]; [left; destruct s|right; destruct t]; simpl; try lia; congruence.
Qed.

(** [LevenshteinDistance] computes the edit distance of its (lower-cased)
    arguments, unless both are empty: then it returns the uninitialised
    cell. *)
Lemma LevenshteinDistance_correct uninit (s t : string) (ignoreCase : bool) :
  s ≠ "" ∨ t ≠ "" →
  LevenshteinDistance uninit s t ignoreCase
  = Z.of_nat (levenshtein
                (list_ascii_of_string (if ignoreCase then ToLowerCase s else s))
                (list_ascii_of_string (if ignoreCase then ToLowerCase t else t))).
Proof.
  intros Hne. destruct ignoreCase; [|apply LevenshteinDistance_any_case, Hne].
  rewrite <- LevenshteinDistance_any_case with (uninit := uninit).
  - reflexivity.
  - destruct Hne as [H|H]; [left; destruct s|right; destruct t]; simpl; congruence.
Qed.

Lemma LevenshteinDistance_empty_empty uninit (ignoreCase : bool) :
  LevenshteinDistance uninit "" "" ignoreCase = uninit.
Proof. destruct ignoreCase; reflexivity. Qed.

(** The distance is at most the length of the longer string, so every cell
    of [column], and every sum the loops form from one, fits an [int] for
    strings shorter than [INT_MAX]. *)
Lemma levenshtein_le_max (s t : list ascii) :
  levenshtein s t ≤ Nat.max (length s) (length t).
Proof.
  revert t. induction s as [|a s IHs]; intros t; [simpl; lia|].
  destruct t as [|b t]; [rewrite levenshtein_nil_r; lia|].
  rewrite levenshtein_cons_cons. specialize (IHs t).
  destruct (Ascii.eqb a b); simpl length; lia.
Qed.

Lemma edit_table_bound (cs ct : list ascii) (y x : nat) :
  (0 ≤ edit_table cs ct y x ≤ Z.of_nat (Nat.max y x))%Z.
Proof.
  unfold edit_table.
  pose proof (levenshtein_le_max (rev (take y cs)) (rev (take x ct))) as H.
  rewrite !length_rev, !length_take in H. lia.
Qed.

Lemma LevenshteinDistance_bound uninit (s t : string) (ignoreCase : bool) :
  s ≠ "" ∨ t ≠ "" →
  (0 ≤ LevenshteinDistance uninit s t ignoreCase
     ≤ Z.of_nat (Nat.max (String.length s) (String.length t)))%Z.
Proof.
  intros Hne. rewrite LevenshteinDistance_correct by exact Hne.
  match goal with
  | |- (_ ≤ Z.of_nat (levenshtein ?a ?b) ≤ _)%Z =>
      pose proof (levenshtein_le_max a b) as H
  end.
  rewrite !length_list_ascii in H.
  destruct ignoreCase; rewrite ?length_ToLowerCase in H; lia.
Qed.

Section Flags_facts.

Example stoi_10 : stoi "10" = inl 10%Z. Proof. reflexivity. Qed.
Example stoi_neg : stoi "  -42abc" = inl (-42)%Z. Proof. reflexivity. Qed.
Example stoi_bad : stoi "abc" = inr invalid_argument. Proof. reflexivity. Qed.
Example stoi_big : stoi "2147483648" = inr out_of_range. Proof. reflexivity. Qed.
Example to_string_5 : to_string 5 = "5". Proof. reflexivity. Qed.

End Flags_facts.

Section Parse_facts.

Context {W : Type}.

Lemma substr_from_0 (s : string) : substr_from s 0 = s.
Proof. unfold substr_from. rewrite Nat.sub_0_r. apply substring_0_all. Qed.

Lemma mbind_mret_l {A B} (a : A) (k : A → Throwing W B) : mbind k (mret a) = k a.
Proof. reflexivity. Qed.

Lemma Parse_entry_spec (F : Flags W) (key value : string) :
  starts_with "-" key = true →
  ∃ name found,
    spec_resolve F key = Some (name, found)
    ∧ Parse_entry F (key, value)
      = match found with
        | Some flag => Setter flag value
        | None => throw (UnknownFlagException ("Unknown flag: " +:+ name))
        end.
Proof.
  intros Hkey. destruct key as [|c1 key]; [discriminate|].
  cbn [starts_with] in Hkey. apply andb_true_iff in Hkey as [Hc1 _].
  apply Ascii.eqb_eq in Hc1. subst c1.
  unfold Parse_entry. cbn [fst snd].
  destruct key as [|c2 name].
  - exists "", (List.find (λ f, String.eqb (FlagShort f) "") (flags F)).
    split; reflexivity.
  - change (char_or_nul (String "-" (String c2 name)) 1) with c2.
    destruct (Ascii.eqb_spec c2 "-"%char) as [->|Hc2].
    + exists name, (List.find (λ f, String.eqb (FlagLong f) name) (flags F)).
      split; [reflexivity|].
      unfold substr_checked. cbn [String.length Nat.leb].
      change (substr_from (String "-" (String "-" name)) 2) with (substr_from name 0).
      rewrite substr_from_0. reflexivity.
    + exists (String c2 name),
        (List.find (λ f, String.eqb (FlagShort f) (String c2 name)) (flags F)).
      split.
      * cbn [spec_resolve]. destruct c2 as [[] [] [] [] [] [] [] []]; try reflexivity.
        contradiction Hc2. reflexivity.
      * unfold substr_checked. cbn [String.length Nat.leb].
        change (substr_from (String "-" (String c2 name)) 1)
          with (substr_from (String c2 name) 0).
        rewrite substr_from_0. reflexivity.
Qed.

Lemma Parse_with_leading_dashes (F : Flags W) (args : gmap string string) :
  map_Forall (λ key _, starts_with "-" key = true) args →
  Parse F args = spec_Parse F args.
Proof.
  intros Hkeys. unfold Parse, spec_Parse.
  assert (Hall : Forall (λ pair, starts_with "-" pair.1 = true) (map_entries args)).
  { unfold map_entries. rewrite merge_sort_Permutation.
    apply map_Forall_to_list in Hkeys.
    eapply Forall_impl; [exact Hkeys|]. intros [k v]. auto. }
  induction Hall as [|[key value] l Hk _ IH]; [reflexivity|].
  cbn [foldr fst snd]. rewrite IH.
  destruct (Parse_entry_spec F key value Hk) as (name & found & -> & ->).
  destruct found; reflexivity.
Qed.

Lemma Parse_entry_resolve (F : Flags W) (key value : string) :
  Parse_entry F (key, value)
  = match resolve_by_second_character F key with
    | Some (name, Some flag) => Setter flag value
    | Some (name, None) => throw (UnknownFlagException ("Unknown flag: " +:+ name))
    | None => throw out_of_range
    end.
Proof.
  unfold Parse_entry. cbn [fst snd]. destruct key as [|c1 [|c2 name]].
  - reflexivity.
  - change (char_or_nul (String c1 "") 1) with "000"%char.
    change (Ascii.eqb "000" "-") with false. cbv iota.
    change (substr_checked (W := W) (String c1 "") 1) with (mret (M := Throwing W) "").
    rewrite mbind_mret_l. cbn [resolve_by_second_character].
    destruct (List.find _ (flags F)); reflexivity.
  - change (char_or_nul (String c1 (String c2 name)) 1) with c2.
    unfold substr_checked. cbn [String.length Nat.leb].
    destruct (Ascii.eqb_spec c2 "-"%char) as [->|Hc2].
    + change (substr_from (String c1 (String "-" name)) 2) with (substr_from name 0).
      rewrite substr_from_0, mbind_mret_l. cbn [resolve_by_second_character].
      destruct (List.find _ (flags F)); reflexivity.
    + change (substr_from (String c1 (String c2 name)) 1)
        with (substr_from (String c2 name) 0).
      rewrite substr_from_0, mbind_mret_l.
      assert (Hres : resolve_by_second_character F (String c1 (String c2 name))
                     = Some (String c2 name,
                             List.find (λ f, String.eqb (FlagShort f) (String c2 name))
                               (flags F))).
      { cbn [resolve_by_second_character].
        destruct c2 as [[] [] [] [] [] [] [] []]; try reflexivity.
        contradiction Hc2. reflexivity. }
      rewrite Hres. destruct (List.find _ (flags F)); reflexivity.
Qed.

Lemma resolve_with_leading_dash (F : Flags W) (key : string) :
  starts_with "-" key = true →
  resolve_by_second_character F key = spec_resolve F key.
Proof.
  destruct key as [|c1 key]; [discriminate|]. cbn [starts_with].
  intros Hkey. apply andb_true_iff in Hkey as [Hc1 _].
  apply Ascii.eqb_eq in Hc1. subst c1. reflexivity.
Qed.

(** C7: for every flag map, [Flags::Parse] handles the entries in key
    order and resolves a key by its second character, not by its leading
    dashes: with a dash in second place by long name, the name being the
    key without its first two characters, otherwise by short name, the name
    being the key without its first character.  An entry without a matching
    descriptor throws [UnknownFlag], any other has the setter of the first
    matching descriptor called with the entry's value; a key without
    characters makes [substr] throw.  On keys that start with a dash this
    is the resolution of the specification, and on maps of such keys
    [Parse] is what the specification says. *)
Theorem Parse_resolves_by_second_character (F : Flags W) (args : gmap string string) :
  Parse F args = amended_Parse F args
  ∧ (∀ key, starts_with "-" key = true →
            resolve_by_second_character F key = spec_resolve F key)
  ∧ (map_Forall (λ key _, starts_with "-" key = true) args →
     Parse F args = spec_Parse F args).
Proof.
  split; [|split].
  - unfold Parse, amended_Parse.
    induction (map_entries args) as [|[key value] l IH]; [reflexivity|].
    cbn [foldr fst snd]. rewrite IH, Parse_entry_resolve.
    destruct (resolve_by_second_character F key) as [[name [flag|]]|]; reflexivity.
  - exact (resolve_with_leading_dash F).
  - exact (Parse_with_leading_dashes F args).
Qed.

End Parse_facts.

Section Registration_facts.

Context {W : Type}.

Lemma find_app {A} (f : A → bool) (l1 l2 : list A) :
  List.find f (l1 ++ l2)
  = match List.find f l1 with Some x => Some x | None => List.find f l2 end.
Proof. induction l1 as [|a l1 IH]; simpl; [reflexivity|]. destruct (f a); auto. Qed.

Lemma map_entries_singleton (k v : string) : map_entries {[k := v]} = [(k, v)].
Proof. unfold map_entries. rewrite map_to_list_singleton. reflexivity. Qed.

Lemma map_entries_empty : map_entries ∅ = [].
Proof. unfold map_entries. rewrite map_to_list_empty. reflexivity. Qed.

(** C6: registering an [int] flag "count"/"c" with default 5 on a storage
    location stores 5 there at once, through the reference or through the
    setter given the string form of the default; parsing
    [{"--count": "10"}] afterwards stores 10, and parsing an empty map
    leaves the 5. *)
Theorem Add_int_flag_then_Parse (F0 : Flags W) (Reference : Ref W Z) (w0 : W) :
  (∀ v w, load Reference (store Reference v w) = v) →
  Lookup F0 "count" = None →
  ∃ F1 w1,
    (Add_ref_default F0 Reference "count" "c" 5%Z "desc").1 = F1
    ∧ (Add_ref_default F0 Reference "count" "c" 5%Z "desc").2 w0 = (inl (), w1)
    ∧ load Reference w1 = 5%Z
    ∧ (∃ w1',
         (Add_with_default F0 "count" "c" 5%Z "desc" (bind_Convert Reference)).1 = F1
         ∧ (Add_with_default F0 "count" "c" 5%Z "desc" (bind_Convert Reference)).2 w0
           = (inl (), w1')
         ∧ load Reference w1' = 5%Z)
    ∧ (∃ w2, Parse F1 {["--count" := "10"]} w1 = (inl (), w2)
             ∧ load Reference w2 = 10%Z)
    ∧ Parse F1 ∅ w1 = (inl (), w1).
Proof.
  intros Hload Hfresh.
  exists (Add_ref F0 Reference "count" "c" "desc"), (store Reference 5%Z w0).
  split; [reflexivity|]. split; [reflexivity|].
  split; [apply Hload|].
  split.
  { exists (store Reference 5%Z w0).
    split; [reflexivity|]. split; [reflexivity | apply Hload]. }
  split.
  - eexists. split; [|apply Hload].
    unfold Parse. rewrite map_entries_singleton. cbn [foldr].
    unfold Parse_entry. cbn [fst snd].
    change (char_or_nul "--count" 1) with "-"%char. rewrite Ascii.eqb_refl.
    change (substr_checked "--count" 2) with (mret (M := Throwing W) "count").
    rewrite mbind_mret_l.
    unfold Add_ref, Add, with_flags. cbn [flags].
    rewrite find_app. unfold Lookup in Hfresh. rewrite Hfresh.
    reflexivity.
  - unfold Parse. rewrite map_entries_empty. reflexivity.
Qed.

End Registration_facts.

Section Merge_facts.

Context {W : Type}.

Local Abbreviation heap := (gmap ptr (Command W)).

Implicit Types (F G : Flags W) (h : heap).

Lemma extends_refl F : extends F F.
Proof. intros name H. exact H. Qed.

Lemma extends_trans F G K : extends F G → extends G K → extends F K.
Proof. intros H1 H2 name H. apply H2, H1, H. Qed.

Lemma Lookup_Add_ptr F flag name :
  Lookup (Add_ptr F flag) name
  = match Lookup F name with
    | Some f => Some f
    | None => if String.eqb (FlagLong flag) name then Some flag else None
    end.
Proof. unfold Lookup, Add_ptr. cbn [flags with_flags]. rewrite find_app. reflexivity. Qed.

Lemma merge_step_extends F flag :
  extends F (match Lookup F (FlagLong flag) with
             | Some _ => F
             | None => Add_ptr F flag
             end).
Proof.
  destruct (Lookup F (FlagLong flag)); [apply extends_refl|].
  intros name [f Hf]. rewrite Lookup_Add_ptr, Hf. eauto.
Qed.

Lemma merge_flags_extends F source : extends F (merge_flags F source).
Proof.
  unfold merge_flags. revert F. induction source as [|flag l IH]; intros F.
  - apply extends_refl.
  - cbn [fold_left]. eapply extends_trans; [apply merge_step_extends | apply IH].
Qed.

Lemma merge_flags_absorbs F source : absorbs (merge_flags F source) source.
Proof.
  unfold merge_flags. revert F. induction source as [|flag l IH]; intros F f Hf.
  - destruct Hf.
  - cbn [fold_left]. destruct Hf as [<-|Hf]; [|apply IH, Hf].
    apply merge_flags_extends.
    destruct (Lookup F (FlagLong flag)) eqn:E; [rewrite E; eauto|].
    rewrite Lookup_Add_ptr, E, String.eqb_refl. eauto.
Qed.

Lemma merge_flags_absorbed F source : absorbs F source → merge_flags F source = F.
Proof.
  unfold merge_flags. induction source as [|flag l IH]; intros H; [reflexivity|].
  cbn [fold_left]. destruct (H flag) as [f Hf]; [left; reflexivity|].
  rewrite Hf. apply IH. intros g Hg. apply H. right. exact Hg.
Qed.

Lemma absorbs_self F : absorbs F (flags F).
Proof.
  intros flag Hin. unfold Lookup.
  destruct (List.find _ (flags F)) eqn:E; [eauto|].
  apply (List.find_none _ _ E) in Hin. rewrite String.eqb_refl in Hin. discriminate.
Qed.

Lemma absorbs_extends F G source : absorbs F source → extends F G → absorbs G source.
Proof. intros H1 H2 flag Hin. apply H2, H1, Hin. Qed.

Lemma set_PersistentFlags_twice (c : Command W) F G :
  set_PersistentFlags (set_PersistentFlags c F) G = set_PersistentFlags c G.
Proof. reflexivity. Qed.

Lemma set_PersistentFlags_same (c : Command W) :
  set_PersistentFlags c (PersistentFlags c) = c.
Proof. destruct c. reflexivity. Qed.

Lemma with_flags_same F : with_flags F (flags F) = F.
Proof. destruct F. reflexivity. Qed.

(** The walk on the heap and the registry it builds. *)
Lemma rmerge_registry_spec fuel h this me F cmd :
  MergePersistentFlags_rmerge fuel (<[this := set_PersistentFlags me F]> h) this cmd
  = (λ F', <[this := set_PersistentFlags me F']> h)
      <$> rmerge_registry fuel h this me F cmd.
Proof.
  revert F cmd. induction fuel as [|fuel IH]; intros F cmd; [reflexivity|].
  cbn [MergePersistentFlags_rmerge rmerge_registry].
  destruct (decide (cmd = this)) as [->|Hne].
  - rewrite !lookup_insert_eq. cbn [mbind option_bind].
    change (PersistentFlags (set_PersistentFlags me F)) with F.
    change (Parent (set_PersistentFlags me F)) with (Parent me).
    destruct (0 <? Size F); cbn [mbind option_bind].
    + rewrite insert_insert_eq, set_PersistentFlags_twice.
      destruct (Parent me); [apply IH | reflexivity].
    + destruct (Parent me); [apply IH | reflexivity].
  - rewrite (lookup_insert_ne _ this cmd) by congruence.
    destruct (h !! cmd) as [c|]; [|reflexivity]. cbn [mbind option_bind].
    rewrite lookup_insert_eq.
    destruct (0 <? Size (PersistentFlags c)); cbn [mbind option_bind].
    + rewrite insert_insert_eq, set_PersistentFlags_twice.
      change (PersistentFlags (set_PersistentFlags me F)) with F.
      destruct (Parent c); [apply IH | reflexivity].
    + destruct (Parent c); [apply IH | reflexivity].
Qed.

Lemma rmerge_registry_extends fuel h this me F cmd F' :
  rmerge_registry fuel h this me F cmd = Some F' → extends F F'.
Proof.
  revert F cmd. induction fuel as [|fuel IH]; intros F cmd; [discriminate|].
  cbn [rmerge_registry].
  destruct (if decide (cmd = this) then Some (set_PersistentFlags me F) else h !! cmd)
    as [c|]; [|discriminate].
  cbn [mbind option_bind].
  assert (Hstep : extends F (if 0 <? Size (PersistentFlags c)
                             then merge_flags F (flags (PersistentFlags c)) else F)).
  { destruct (0 <? Size (PersistentFlags c));
      [apply merge_flags_extends | apply extends_refl]. }
  destruct (Parent c).
  - intros H. eapply extends_trans; [exact Hstep | exact (IH _ _ H)].
  - intros [= <-]. exact Hstep.
Qed.

Lemma rmerge_registry_fixed fuel h this me F cmd F' G :
  rmerge_registry fuel h this me F cmd = Some F' →
  extends F' G →
  rmerge_registry fuel h this me G cmd = Some G.
Proof.
  revert F cmd. induction fuel as [|fuel IH]; intros F cmd; [discriminate|].
  cbn [rmerge_registry]. intros Hrun Hext.
  destruct (decide (cmd = this)) as [->|Hne]; cbn [mbind option_bind] in *.
  - change (PersistentFlags (set_PersistentFlags me ?X)) with X in *.
    change (Parent (set_PersistentFlags me ?X)) with (Parent me) in *.
    assert (HF : (if 0 <? Size F then merge_flags F (flags F) else F) = F).
    { destruct (0 <? Size F); [apply merge_flags_absorbed, absorbs_self | reflexivity]. }
    assert (HG : (if 0 <? Size G then merge_flags G (flags G) else G) = G).
    { destruct (0 <? Size G); [apply merge_flags_absorbed, absorbs_self | reflexivity]. }
    rewrite HF in Hrun. rewrite HG.
    destruct (Parent me); [exact (IH _ _ Hrun Hext) | reflexivity].
  - destruct (h !! cmd) as [c|]; [|discriminate]. cbn [mbind option_bind] in *.
    assert (HG : (if 0 <? Size (PersistentFlags c)
                  then merge_flags G (flags (PersistentFlags c)) else G) = G).
    { destruct (0 <? Size (PersistentFlags c)) eqn:E; [|reflexivity].
      apply merge_flags_absorbed.
      eapply absorbs_extends; [apply (merge_flags_absorbs F)|].
      eapply extends_trans; [|exact Hext].
      destruct (Parent c).
      - exact (rmerge_registry_extends _ _ _ _ _ _ _ Hrun).
      - injection Hrun as <-. apply extends_refl. }
    rewrite HG. destruct (Parent c); [exact (IH _ _ Hrun Hext) | reflexivity].
Qed.

Lemma rmerge_registry_absorbs fuel h this me F cmd F' q c :
  h !! this = Some me →
  extends (PersistentFlags me) F →
  rmerge_registry fuel h this me F cmd = Some F' →
  ancestor_or_self h cmd q → h !! q = Some c →
  absorbs F' (flags (PersistentFlags c)).
Proof.
  intros Hme. revert F cmd.
  induction fuel as [|fuel IH]; intros F cmd HF Hrun Hanc Hq; [discriminate|].
  assert (Hext := rmerge_registry_extends _ _ _ _ _ _ _ Hrun).
  cbn [rmerge_registry] in Hrun.
  assert (Hself : cmd = q → absorbs F' (flags (PersistentFlags c))).
  { intros ->. destruct (decide (q = this)) as [->|Hne].
    - assert (c = me) as -> by congruence.
      eapply absorbs_extends; [apply absorbs_self|].
      eapply extends_trans; [exact HF | exact Hext].
    - rewrite Hq in Hrun. cbn [mbind option_bind] in Hrun.
      destruct (0 <? Size (PersistentFlags c)) eqn:E.
      + eapply absorbs_extends; [apply (merge_flags_absorbs F)|].
        destruct (Parent c).
        * exact (rmerge_registry_extends _ _ _ _ _ _ _ Hrun).
        * injection Hrun as <-. apply extends_refl.
      + unfold Size in E. destruct (flags (PersistentFlags c)); [|discriminate].
        intros flag []. }
  inversion Hanc as [|p c0 parent q' Hc0 Hparent Hup]; subst; [auto|].
  assert (Hread : (if decide (cmd = this) then Some (set_PersistentFlags me F)
                   else h !! cmd)
                  = Some (if decide (cmd = this) then set_PersistentFlags me F else c0)).
  { destruct (decide (cmd = this)); [reflexivity | exact Hc0]. }
  rewrite Hread in Hrun. cbn [mbind option_bind] in Hrun.
  assert (HP : Parent (if decide (cmd = this) then set_PersistentFlags me F else c0)
               = Some parent).
  { destruct (decide (cmd = this)) as [->|]; [|exact Hparent].
    cbn. congruence. }
  rewrite HP in Hrun.
  eapply IH; [|exact Hrun|exact Hup|exact Hq].
  eapply extends_trans; [exact HF|].
  destruct (0 <? Size _); [apply merge_flags_extends | apply extends_refl].
Qed.

Lemma rmerge_registry_total fuel h this me F cmd d :
  h !! this = Some me →
  reaches_root h cmd d → d < fuel →
  is_Some (rmerge_registry fuel h this me F cmd).
Proof.
  intros Hme Hreach. revert fuel F.
  induction Hreach as [p c Hc Hparent|p c parent d Hc Hparent _ IH];
    intros [|fuel] F Hd; try lia; cbn [rmerge_registry].
  - destruct (decide (p = this)) as [->|_].
    + assert (c = me) as -> by congruence. cbn. rewrite Hparent. eauto.
    + rewrite Hc. cbn. rewrite Hparent. eauto.
  - destruct (decide (p = this)) as [->|_].
    + assert (c = me) as -> by congruence. cbn. rewrite Hparent. apply IH. lia.
    + rewrite Hc. cbn. rewrite Hparent. apply IH. lia.
Qed.

Lemma MergePersistentFlags_registry fuel h this me :
  h !! this = Some me →
  MergePersistentFlags fuel h this
  = (λ F', <[this := set_PersistentFlags me F']> h)
      <$> rmerge_registry fuel h this me (PersistentFlags me) this.
Proof.
  intros Hme. unfold MergePersistentFlags.
  rewrite <- rmerge_registry_spec.
  rewrite set_PersistentFlags_same, insert_id by exact Hme. reflexivity.
Qed.

End Merge_facts.

Section Merge_theorems.

Context {W : Type}.

Local Abbreviation heap := (gmap ptr (Command W)).

Lemma reaches_root_lookup (h : heap) p d : reaches_root h p d → is_Some (h !! p).
Proof. destruct 1; eauto. Qed.

(** C10: on a command whose parent chain ends, [MergePersistentFlags]
    returns, and a second call right after it returns the same heap: the
    registry of the command keeps the same descriptors in the same order.
    [FullFlags] then returns the same registry again. *)
Theorem MergePersistentFlags_idempotent (fuel : nat) (h : heap) (this : ptr) (d : nat) :
  reaches_root h this d → d < fuel →
  ∃ h' F,
    MergePersistentFlags fuel h this = Some h'
    ∧ MergePersistentFlags fuel h' this = Some h'
    ∧ FullFlags fuel h this = Some (h', F)
    ∧ FullFlags fuel h' this = Some (h', F).
Proof.
  intros Hreach Hd.
  destruct (reaches_root_lookup _ _ _ Hreach) as [me Hme].
  destruct (rmerge_registry_total fuel h this me (PersistentFlags me) this d Hme Hreach Hd)
    as [F' HF'].
  assert (H1 : MergePersistentFlags fuel h this
               = Some (<[this := set_PersistentFlags me F']> h)).
  { rewrite (MergePersistentFlags_registry _ _ _ _ Hme), HF'. reflexivity. }
  assert (H2 : MergePersistentFlags fuel (<[this := set_PersistentFlags me F']> h) this
               = Some (<[this := set_PersistentFlags me F']> h)).
  { unfold MergePersistentFlags. rewrite rmerge_registry_spec.
    rewrite (rmerge_registry_fixed _ _ _ _ _ _ _ F' HF' (extends_refl F')).
    reflexivity. }
  exists (<[this := set_PersistentFlags me F']> h),
    (merge_flags (LocalFlags me) (flags F')).
  split; [exact H1|]. split; [exact H2|].
  unfold FullFlags. rewrite H1, H2. cbn [mbind option_bind].
  rewrite lookup_insert_eq. split; reflexivity.
Qed.

(** C1, amended: [MergePersistentFlags] starts at the command itself and
    goes on to the parent whether or not the node at hand has persistent
    flags.  So the long name of every persistent flag of every ancestor, at
    any distance, is registered in the merged registry and in the result of
    [FullFlags] (only [InheritedFlags] has the gate). *)
Theorem MergePersistentFlags_not_gated (fuel : nat) (h : heap) (this : ptr)
    (d : nat) (q : ptr) (c : Command W) (flag : Flag W) :
  reaches_root h this d → d < fuel →
  ancestor_or_self h this q → h !! q = Some c →
  In flag (flags (PersistentFlags c)) →
  ∃ h' me' F,
    MergePersistentFlags fuel h this = Some h'
    ∧ h' !! this = Some me'
    ∧ is_Some (Lookup (PersistentFlags me') (FlagLong flag))
    ∧ FullFlags fuel h this = Some (h', F)
    ∧ is_Some (Lookup F (FlagLong flag)).
Proof.
  intros Hreach Hd Hanc Hq Hin.
  destruct (reaches_root_lookup _ _ _ Hreach) as [me Hme].
  destruct (rmerge_registry_total fuel h this me (PersistentFlags me) this d Hme Hreach Hd)
    as [F' HF'].
  assert (H1 : MergePersistentFlags fuel h this
               = Some (<[this := set_PersistentFlags me F']> h)).
  { rewrite (MergePersistentFlags_registry _ _ _ _ Hme), HF'. reflexivity. }
  assert (Habs : is_Some (Lookup F' (FlagLong flag))).
  { eapply (rmerge_registry_absorbs fuel h this me); eauto. apply extends_refl. }
  exists (<[this := set_PersistentFlags me F']> h), (set_PersistentFlags me F'),
    (merge_flags (LocalFlags me) (flags F')).
  split; [exact H1|]. split; [apply lookup_insert_eq|]. split; [exact Habs|].
  split.
  - unfold FullFlags. rewrite H1. cbn [mbind option_bind].
    rewrite lookup_insert_eq. reflexivity.
  - destruct Habs as [f Hf].
    unfold Lookup in Hf. apply List.find_some in Hf as [Hf1 Hf2].
    apply String.eqb_eq in Hf2. rewrite <- Hf2.
    exact (merge_flags_absorbs (LocalFlags me) (flags F') f Hf1).
Qed.

End Merge_theorems.

(** C1, counterexample: in the chain a -> b -> c where only a declares the
    persistent flag "verbose", the gated walk finds nothing for c, but
    [MergePersistentFlags] on c registers "verbose". *)
Lemma MergePersistentFlags_gated_fails : ¬ spec_merge_gated 3 chain_abc 2.
Proof. unfold spec_merge_gated. vm_compute. discriminate. Qed.

Example chain_abc_merged : merged_names 3 chain_abc 2 = Some ["verbose"].
Proof. vm_compute. reflexivity. Qed.

Example chain_abc_inherited :
  (λ F, FlagLong <$> flags F) <$> InheritedFlags 3 chain_abc 2 = Some [].
Proof. vm_compute. reflexivity. Qed.

Section Suggestions_facts.

Context {W : Type}.

Local Abbreviation heap := (gmap ptr (Command W)).

Lemma any_available_total (f : ptr → option bool) (cmds : list ptr) :
  Forall (λ q, is_Some (f q)) cmds → is_Some (any_available f cmds).
Proof.
  induction 1 as [|q l [a Ha] _ IH]; cbn [any_available]; [eauto|].
  rewrite Ha. cbn. destruct a; [eauto | exact IH].
Qed.

Lemma IsAvailableCommand_total (h : heap) (n fuel : nat) (p : ptr) :
  tree_below h n p → n ≤ fuel → is_Some (IsAvailableCommand fuel h p).
Proof.
  revert fuel p. induction n as [|n IH]; intros fuel p; [intros []|].
  intros (c & Hc & Hsub) Hfuel. destruct fuel as [|fuel]; [lia|].
  cbn [IsAvailableCommand]. rewrite Hc. cbn [mbind option_bind].
  destruct ((0 <? String.length (Deprecated c)) || Hidden c); [eauto|].
  destruct (IsRunnable c); [eauto|].
  apply any_available_total.
  eapply Forall_impl; [exact Hsub|]. intros q Hq. apply IH; [exact Hq | lia].
Qed.

Lemma HasAvailableSubCommands_total (h : heap) (n fuel : nat) (p : ptr) :
  tree_below h n p → n ≤ fuel → is_Some (HasAvailableSubCommands fuel h p).
Proof.
  destruct n as [|n]; [intros []|]. intros (c & Hc & Hsub) Hfuel.
  unfold HasAvailableSubCommands. rewrite Hc. cbn [mbind option_bind].
  apply any_available_total.
  eapply Forall_impl; [exact Hsub|]. intros q Hq.
  apply (IsAvailableCommand_total h n); [exact Hq | lia].
Qed.



Lemma substr_empty (n : nat) : substr "" 0 n = "".
Proof. unfold substr. rewrite Nat.min_r by (simpl; lia). reflexivity. Qed.




End Suggestions_facts.

Section Suggestions_theorem.

Context {W : Type}.

Local Abbreviation heap := (gmap ptr (Command W)).






End Suggestions_theorem.

Example SuggestionsFor_hlp (uninit : ptr → Z) :
  SuggestionsFor uninit 2 root_with_help 0 "hlp" = Some ["help"].
Proof. vm_compute. reflexivity. Qed.

Section Execute_facts.

Context {W : Type}.

Local Abbreviation heap := (gmap ptr (Command W)).

Lemma Root_of_root (fuel : nat) (h : heap) (this : ptr) (c : Command W) :
  h !! this = Some c → Parent c = None → 0 < fuel → Root fuel h this = Some this.
Proof.
  intros Hc Hp Hfuel. destruct fuel; [lia|]. cbn [Root]. rewrite Hc. cbn.
  rewrite Hp. reflexivity.
Qed.


Lemma Root_has_no_parent (fuel : nat) (h : heap) (start root : ptr) :
  Root fuel h start = Some root →
  0 < fuel ∧ ∃ c, h !! root = Some c ∧ Parent c = None.
Proof.
  revert start. induction fuel as [|fuel IH]; intros start; [discriminate|].
  cbn [Root]. destruct (h !! start) as [c|] eqn:Hc; [|discriminate].
  cbn [mbind option_bind]. destruct (Parent c) as [parent|] eqn:Hp.
  - intros H. apply IH in H as [_ H]. split; [lia | exact H].
  - intros [= <-]. split; [lia | eauto].
Qed.

Lemma Execute_from_anywhere (uninit : ptr → Z) (fuel : nat) (h : heap)
    (start root : ptr) (args : list string) (w : W) :
  Root fuel h start = Some root →
  Execute uninit fuel h start args w = Execute_root uninit fuel h root args w.
Proof.
  intros Hroot. unfold Execute. destruct fuel as [|fuel]; [discriminate|].
  cbn [Root] in Hroot. destruct (h !! start) as [c|] eqn:Hc; [|discriminate].
  cbn [mbind option_bind] in *. destruct (Parent c) as [parent|] eqn:Hp.
  - cbn [Root]. rewrite Hc. cbn [mbind option_bind]. rewrite Hp, Hroot. reflexivity.
  - injection Hroot as <-. reflexivity.
Qed.


End Execute_facts.

(** C2, the code on a command with all five hooks set: only [Run] is
    called. *)
Lemma Execute_calls_only_Run :
  (λ r, (status r, final_world r, invoked r))
    <$> Execute (λ _, 0%Z) 1 root_with_hooks 0 [] []
  = Some (inl 0%Z, ["Run"], [(0, hook_Run)]).
Proof. vm_compute. reflexivity. Qed.

(** C9, the code on "b" then "a" added to a command that is not sorted,
    whatever [std::sort] does with children of equal name: the second
    [AddCommand] does not sort, [IsSorted] stays true, and a later
    [SortSubCommands] leaves "b" before "a". *)
Lemma AddCommand_leaves_unsorted (std_sort : list (string * ptr) → list (string * ptr)) :
  is_std_sort std_sort →
  (h1 ← AddCommand std_sort app_b_a 0 1; children_names h1 0) = Some (["b"], true)
  ∧ (h1 ← AddCommand std_sort app_b_a 0 1; h2 ← AddCommand std_sort h1 0 2;
     children_names h2 0)
    = Some (["b"; "a"], true)
  ∧ (h1 ← AddCommand std_sort app_b_a 0 1; h2 ← AddCommand std_sort h1 0 2;
     h3 ← SortSubCommands std_sort h2 0; children_names h3 0)
    = Some (["b"; "a"], true).
Proof.
  intros Hsort.
  assert (Hone : std_sort [("b", 1)] = [("b", 1)]).
  { apply Permutation_singleton_r, Hsort. }
  assert (H1 : AddCommand std_sort app_b_a 0 1
               = Some (<[0 := make_Command "app" [] None None [1] true]>
                       (<[1 := make_Command "b" [] (Some run_ok) (Some 0) [] false]>
                          app_b_a))).
  { unfold AddCommand, SortSubCommands.
    change (app_b_a !! 1) with (Some (make_Command (W := bool) "b" [] (Some run_ok) None [] false)).
    cbn [mbind option_bind]. rewrite lookup_insert_ne by discriminate.
    change (app_b_a !! 0) with (Some (make_Command (W := bool) "app" [] None None [] false)).
    cbn [mbind option_bind]. rewrite lookup_insert_eq.
    cbn [mbind option_bind IsSorted set_Commands make_Command Commands app mapM].
    rewrite lookup_insert_ne by discriminate. rewrite lookup_insert_eq.
    cbn [fmap option_fmap option_map mbind option_bind mret option_ret].
    change (Name _) with "b". rewrite Hone. cbn [fmap list_fmap snd].
    rewrite insert_insert_eq. reflexivity. }
  rewrite H1. cbn [mbind option_bind]. repeat split; vm_compute; reflexivity.
Qed.

(** * The theorems at concrete inputs *)

(** C7, the code on the key "x-count", which [StripFlags] makes of the
    token "x-count=9": the key has no leading dash and the resolution of
    the specification finds nothing for it, but [Flags::Parse] takes it for
    the long name "count" and calls the setter. *)
Lemma Parse_resolves_without_leading_dash :
  StripFlags ["x-count=9"] (Some ∅) = Some ([], Some {["x-count" := "9"]})
  ∧ spec_resolve count_flags "x-count" = None
  ∧ Parse count_flags {["x-count" := "9"]} 0%Z = (inl (), 9%Z)
  ∧ Parse count_flags {["x-count" := "9"]} 0%Z
    ≠ spec_Parse count_flags {["x-count" := "9"]} 0%Z.
Proof.
  split; [vm_compute; reflexivity|]. split; [reflexivity|].
  split; [vm_compute; reflexivity|]. intros H. vm_compute in H. discriminate H.
Qed.

(** A key without leading dash beside one with: the first entry is
    handled, the second throws, and the storage keeps what the first
    setter wrote. *)
Example Parse_count_then_my_file :
  Parse count_flags (<["--count" := "3"]> (<["my-file" := "true"]> ∅)) 0%Z
  = (inr (UnknownFlagException "Unknown flag: y-file"), 3%Z).
Proof. vm_compute. reflexivity. Qed.

Example Parse_with_leading_dashes_count :
  Parse count_flags (<["--count" := "10"]> (<["-c" := "7"]> ∅))
  = spec_Parse count_flags (<["--count" := "10"]> (<["-c" := "7"]> ∅)).
Proof.
  apply Parse_with_leading_dashes.
  apply map_Forall_insert_2; [reflexivity|].
  apply map_Forall_insert_2; [reflexivity|].
  apply map_Forall_empty.
Qed.

Lemma Add_int_flag_then_Parse_witness :
  ∃ F1 w1,
    (Add_ref_default no_flags the_int "count" "c" 5%Z "desc").1 = F1
    ∧ (Add_ref_default no_flags the_int "count" "c" 5%Z "desc").2 0%Z = (inl (), w1)
    ∧ load the_int w1 = 5%Z
    ∧ (∃ w1',
         (Add_with_default no_flags "count" "c" 5%Z "desc" (bind_Convert the_int)).1 = F1
         ∧ (Add_with_default no_flags "count" "c" 5%Z "desc" (bind_Convert the_int)).2 0%Z
           = (inl (), w1')
         ∧ load the_int w1' = 5%Z)
    ∧ (∃ w2, Parse F1 {["--count" := "10"]} w1 = (inl (), w2)
             ∧ load the_int w2 = 10%Z)
    ∧ Parse F1 ∅ w1 = (inl (), w1).
Proof.
  apply (Add_int_flag_then_Parse no_flags the_int 0%Z).
  - intros v w. reflexivity.
  - reflexivity.
Defined.

Lemma chain_abc_reaches_root : reaches_root chain_abc 2 2.
Proof.
  eapply reaches_root_up; [vm_compute; reflexivity | reflexivity |].
  eapply reaches_root_up; [vm_compute; reflexivity | reflexivity |].
  eapply reaches_root_here; [vm_compute; reflexivity | reflexivity].
Defined.

Lemma chain_abc_ancestor : ancestor_or_self chain_abc 2 0.
Proof.
  eapply ancestor_up; [vm_compute; reflexivity | reflexivity |].
  eapply ancestor_up; [vm_compute; reflexivity | reflexivity |].
  apply ancestor_self.
Defined.

Lemma MergePersistentFlags_idempotent_witness :
  ∃ h' F,
    MergePersistentFlags 3 chain_abc 2 = Some h'
    ∧ MergePersistentFlags 3 h' 2 = Some h'
    ∧ FullFlags 3 chain_abc 2 = Some (h', F)
    ∧ FullFlags 3 h' 2 = Some (h', F).
Proof.
  apply (MergePersistentFlags_idempotent 3 chain_abc 2 2).
  - exact chain_abc_reaches_root.
  - lia.
Defined.

Lemma MergePersistentFlags_not_gated_witness :
  ∃ h' me' F,
    MergePersistentFlags 3 chain_abc 2 = Some h'
    ∧ h' !! 2 = Some me'
    ∧ is_Some (Lookup (PersistentFlags me') "verbose")
    ∧ FullFlags 3 chain_abc 2 = Some (h', F)
    ∧ is_Some (Lookup F "verbose").
Proof.
  apply (MergePersistentFlags_not_gated 3 chain_abc 2 2 0
           (make_Command "a" [verbose_flag] None None [1] true) verbose_flag).
  - exact chain_abc_reaches_root.
  - lia.
  - exact chain_abc_ancestor.
  - vm_compute. reflexivity.
  - left. reflexivity.
Defined.

Lemma root_with_help_tree : tree_below root_with_help 2 0.
Proof.
  eexists. split; [vm_compute; reflexivity|].
  constructor; [|constructor].
  eexists. split; [vm_compute; reflexivity|]. constructor.
Defined.



Example Execute_unknown_command_text :
  output <$> Execute (λ _, 0%Z) 2 root_with_help 1 ["hlp"; "--loud"] false
  = Some [to_cerr ("Unknown command hlp for app" +:+ newline +:+ newline
                   +:+ "Did you mean this?" +:+ newline
                   +:+ "   help" +:+ newline)].
Proof. vm_compute. reflexivity. Qed.

Example Execute_help_hello :
  (λ r, (status r, output r, invoked r))
    <$> Execute (λ _, 0%Z) 2 root_with_help 0 ["help"; "hello"] false
  = Some (inl 0%Z, [], [(1, hook_Run)]).
Proof. vm_compute. reflexivity. Qed.

Example Execute_unknown_flag :
  (λ r, (status r, output r, invoked r))
    <$> Execute (λ _, 0%Z) 2 root_with_help 0 ["help"; "hello"; "--loud"] false
  = Some (inl (-1)%Z, [usage_of 1], []).
Proof. vm_compute. reflexivity. Qed.

(** * Further properties *)

Section Utility_facts.

Lemma list_ascii_app (s t : string) :
  list_ascii_of_string (s +:+ t) = list_ascii_of_string s ++ list_ascii_of_string t.
Proof. induction s as [|c s IH]; simpl; [reflexivity|]. rewrite IH. reflexivity. Qed.

Lemma length_append (s t : string) :
  String.length (s +:+ t) = String.length s + String.length t.
Proof. induction s as [|c s IH]; simpl; [reflexivity|]. rewrite IH. reflexivity. Qed.

Lemma append_cons (c : ascii) (s t : string) : String c s +:+ t = String c (s +:+ t).
Proof. reflexivity. Qed.

Lemma append_assoc (s t u : string) : (s +:+ t) +:+ u = s +:+ (t +:+ u).
Proof. induction s as [|c s IH]; [reflexivity|]. rewrite !append_cons. congruence. Qed.

Lemma append_nil_r (s : string) : s +:+ "" = s.
Proof. induction s as [|c s IH]; [reflexivity|]. rewrite append_cons. congruence. Qed.

Lemma spaces_snoc (n : nat) : spaces n +:+ " " = spaces (S n).
Proof.
  induction n as [|n IH]; [reflexivity|].
  cbn [spaces] in *. rewrite append_cons. congruence.
Qed.

Lemma length_spaces (n : nat) : String.length (spaces n) = n.
Proof. induction n; simpl; congruence. Qed.

Lemma Rpad_loop_spec (n : nat) (s : string) (size : Z) :
  Z.to_nat size - String.length s ≤ n →
  Rpad_loop n s size = s +:+ spaces (Z.to_nat size - String.length s).
Proof.
  revert s. induction n as [|n IH]; intros s Hn.
  - replace (Z.to_nat size - String.length s) with 0 by lia. simpl.
    rewrite append_nil_r. reflexivity.
  - cbn [Rpad_loop]. destruct (Z.ltb_spec (Z.of_nat (String.length s)) size) as [Hlt|Hge].
    + rewrite IH by (rewrite length_append; simpl; lia).
      rewrite length_append. cbn [String.length].
      rewrite append_assoc. f_equal.
      replace (Z.to_nat size - String.length s)
        with (S (Z.to_nat size - (String.length s + 1))) by lia.
      reflexivity.
    + replace (Z.to_nat size - String.length s) with 0 by lia. simpl.
      rewrite append_nil_r. reflexivity.
Qed.

Lemma Rpad_not_negative (s : string) (size : Z) :
  (0 ≤ size)%Z →
  Rpad s size = Some (s +:+ spaces (Z.to_nat size - String.length s)).
Proof.
  intros Hsize. unfold Rpad. destruct (Z.ltb_spec size 0) as [Hlt|_]; [lia|].
  rewrite Rpad_loop_spec by lia. reflexivity.
Qed.

(** X1: [Rpad] with a [size] that is not negative appends spaces up to
    [size] characters and never cuts: the result is the string followed by
    [size - length] spaces, so it is the string itself when that is already
    [size] long or longer.  With a negative [size] no string is returned:
    the bound is compared as a [size_t] and the padding goes on until the
    allocation fails. *)
Theorem Rpad_pads_right (s : string) (size : Z) :
  Rpad s size
  = (if (size <? 0)%Z then None
     else Some (s +:+ spaces (Z.to_nat size - String.length s)))
  ∧ (∀ padded, Rpad s size = Some padded →
       String.length padded = Nat.max (String.length s) (Z.to_nat size))
  ∧ ((0 ≤ size ≤ Z.of_nat (String.length s))%Z → Rpad s size = Some s).
Proof.
  assert (H : Rpad s size
              = if (size <? 0)%Z then None
                else Some (s +:+ spaces (Z.to_nat size - String.length s))).
  { destruct (Z.ltb_spec size 0) as [Hlt|Hge].
    - unfold Rpad. destruct (Z.ltb_spec size 0); [reflexivity | lia].
    - apply Rpad_not_negative, Hge. }
  split; [exact H|]. split.
  - intros padded. rewrite H. destruct (size <? 0)%Z; [discriminate|].
    intros [= <-]. rewrite length_append, length_spaces. lia.
  - intros Hle. rewrite Rpad_not_negative by lia.
    replace (Z.to_nat size - String.length s) with 0 by lia.
    rewrite append_nil_r. reflexivity.
Qed.

Lemma string_eq_of_list (s t : string) :
  list_ascii_of_string s = list_ascii_of_string t → s = t.
Proof.
  intros H. rewrite <- (string_of_list_ascii_of_string s), H.
  apply string_of_list_ascii_of_string.
Qed.

Lemma chop_last_string (s : string) (c : ascii) :
  String.get (String.length s - 1) s = Some c →
  s = substr s 0 (String.length s - 1) +:+ String c "".
Proof.
  intros H. apply string_eq_of_list. rewrite list_ascii_app. apply chop_last, H.
Qed.

Lemma last_char_defined (s : string) :
  s ≠ "" → is_Some (String.get (String.length s - 1) s).
Proof.
  intros Hs. rewrite get_list_ascii. apply lookup_lt_is_Some.
  rewrite length_list_ascii. destruct s; [contradiction | simpl; lia].
Qed.

Lemma last_char_unique (front front' : string) (c c' : ascii) :
  front +:+ String c "" = front' +:+ String c' "" → c = c'.
Proof.
  intros H. apply (f_equal list_ascii_of_string) in H.
  rewrite !list_ascii_app in H. simpl in H.
  apply app_inj_tail in H as [_ H]. exact H.
Qed.

Lemma append_not_empty (front : string) (c : ascii) : front +:+ String c "" ≠ "".
Proof. destruct front; discriminate. Qed.

Lemma Ltrim_split (s : string) :
  ∃ pre, s = pre +:+ Ltrim s ∧ all_blank pre.
Proof.
  induction s as [|c s (pre & Hs & Hpre)]; [exists ""; split; [reflexivity | constructor]|].
  cbn [Ltrim]. destruct (is_blank c) eqn:E.
  - exists (String c pre). split; [rewrite append_cons; congruence|].
    constructor; assumption.
  - exists "". split; [reflexivity | constructor].
Qed.

Lemma Ltrim_first (s : string) (c : ascii) (rest : string) :
  Ltrim s = String c rest → is_blank c = false.
Proof.
  induction s as [|a s IH]; [discriminate|]. cbn [Ltrim].
  destruct (is_blank a) eqn:E; [exact IH|]. intros [= <- _]. exact E.
Qed.

Lemma Rtrim_loop_split (n : nat) (s : string) :
  String.length s ≤ n →
  ∃ post, s = Rtrim_loop n s +:+ post ∧ all_blank post
          ∧ ∀ front c, Rtrim_loop n s = front +:+ String c "" → is_blank c = false.
Proof.
  revert s. induction n as [|n IH]; intros s Hn.
  - destruct s; [|simpl in Hn; lia]. exists "". split; [reflexivity|].
    split; [constructor|]. intros front c H. symmetry in H.
    destruct (append_not_empty _ _ H).
  - cbn [Rtrim_loop].
    destruct (String.get (String.length s - 1) s) as [c|] eqn:Hget.
    + pose proof (chop_last_string s c Hget) as Hs.
      destruct ((0 <? String.length s) && is_blank c) eqn:B.
      * apply andb_true_iff in B as [Hpos B]. apply Nat.ltb_lt in Hpos.
        destruct (IH (substr s 0 (String.length s - 1))) as (post & Hpost & Hblank & Hend).
        { apply (f_equal String.length) in Hs. rewrite length_append in Hs.
          simpl in Hs. lia. }
        exists (post +:+ String c ""). split; [|split; [|exact Hend]].
        -- rewrite <- append_assoc, <- Hpost. exact Hs.
        -- unfold all_blank. rewrite list_ascii_app. apply Forall_app. split; [exact Hblank|].
           repeat constructor. exact B.
      * exists "". split; [rewrite append_nil_r; reflexivity|]. split; [constructor|].
        intros front c' H. rewrite H in Hs.
        apply last_char_unique in Hs as ->.
        apply andb_false_iff in B as [B|B]; [|exact B].
        apply Nat.ltb_ge in B. rewrite H, length_append in B. simpl in B. lia.
    + exists "". split; [rewrite append_nil_r; reflexivity|]. split; [constructor|].
      intros front c H. destruct (last_char_defined s) as [c' Hc'].
      * rewrite H. apply append_not_empty.
      * congruence.
Qed.

Lemma Ltrim_fixed (s : string) :
  (∀ c rest, s = String c rest → is_blank c = false) → Ltrim s = s.
Proof.
  destruct s as [|c s]; [reflexivity|]. intros H. cbn [Ltrim].
  rewrite (H c s eq_refl). reflexivity.
Qed.

Lemma Rtrim_fixed (s : string) :
  (∀ front c, s = front +:+ String c "" → is_blank c = false) → Rtrim s = s.
Proof.
  intros H. unfold Rtrim. destruct (String.length s) as [|n] eqn:Hlen; [reflexivity|].
  cbn [Rtrim_loop]. rewrite Hlen.
  destruct (String.get (S n - 1) s) as [c|] eqn:Hget; [|reflexivity].
  rewrite <- Hlen in Hget. pose proof (chop_last_string s c Hget) as Hs.
  rewrite (H _ _ Hs), andb_false_r. reflexivity.
Qed.

(** X2: [Trim] removes blanks (space, newline, carriage return, tab) from both
    ends and nothing else: the string is blanks, then [Trim s], then blanks;
    [Trim s] has no blank at either end; trimming again changes nothing. *)
Theorem Trim_strips_both_ends (s : string) :
  (∃ pre post, s = pre +:+ Trim s +:+ post ∧ all_blank pre ∧ all_blank post)
  ∧ trimmed (Trim s)
  ∧ Trim (Trim s) = Trim s.
Proof.
  destruct (Ltrim_split s) as (pre & Hs & Hpre).
  destruct (Rtrim_loop_split (String.length (Ltrim s)) (Ltrim s) (le_n _))
    as (post & HL & Hpost & Hend).
  fold (Rtrim (Ltrim s)) in HL, Hend. fold (Trim s) in HL, Hend.
  assert (Hfirst : ∀ c rest, Trim s = String c rest → is_blank c = false).
  { intros c rest HT. rewrite HT in HL. rewrite append_cons in HL.
    exact (Ltrim_first s c _ HL). }
  split; [|split].
  - exists pre, post. split; [|split; assumption]. rewrite <- HL. exact Hs.
  - split; assumption.
  - unfold Trim at 1. rewrite (Ltrim_fixed _ Hfirst). apply Rtrim_fixed, Hend.
Qed.

Lemma tolower_twice (c : ascii) : tolower (tolower c) = tolower c.
Proof. destruct c as [[] [] [] [] [] [] [] []]; reflexivity. Qed.

(** X3: [ToLowerCase] keeps the length and is idempotent. *)
Theorem ToLowerCase_idempotent (s : string) :
  String.length (ToLowerCase s) = String.length s
  ∧ ToLowerCase (ToLowerCase s) = ToLowerCase s.
Proof.
  split; [apply length_ToLowerCase|].
  induction s as [|c s IH]; [reflexivity|].
  cbn [ToLowerCase]. rewrite tolower_twice, IH. reflexivity.
Qed.

(** X4: [ConvertArguments] drops [argv[0]] and keeps [argv[1]] to
    [argv[argc - 1]] in order; for [argc] at most 1 the result is empty. *)
Theorem ConvertArguments_drops_program_name (argc : Z) (argv : list string) :
  (argc ≤ Z.of_nat (length argv))%Z →
  ConvertArguments argc argv = Some (take (Z.to_nat (argc - 1)) (drop 1 argv)).
Proof.
  intros Hargc. unfold ConvertArguments, seqZ. rewrite fold_left_fmap_seq.
  pose proof (fold_left_seq_inv
    (λ (args : option (list string)) (i : nat),
       args ← args; a ← argv !! Z.to_nat (Z.of_nat i + 1); Some (args ++ [a]))
    (λ k args, args = Some (take k (drop 1 argv)))
    0 (Z.to_nat (argc - 1)) (Some []) eq_refl) as H.
  apply H. intros i args [_ Hi] ->. cbn [mbind option_bind].
  replace (Z.to_nat (Z.of_nat i + 1)) with (1 + i) by lia.
  rewrite <- lookup_drop.
  destruct (lookup_lt_is_Some_2 (drop 1 argv) i) as [a Ha].
  { rewrite length_drop. lia. }
  rewrite Ha. cbn [mbind option_bind]. rewrite (take_S_r _ _ _ Ha). reflexivity.
Qed.

Lemma find_single_split (s : string) (ch : ascii) (pos : nat) :
  find s (String ch "") = Some pos →
  s = substr s 0 pos +:+ String ch (substr_from s (pos + 1))
  ∧ find (substr s 0 pos) (String ch "") = None.
Proof.
  revert pos. induction s as [|a s IH]; intros pos; [discriminate|].
  cbn [find starts_with]. destruct (Ascii.eqb_spec ch a) as [<-|Hne]; cbn [andb].
  - intros [= <-]. split; [|reflexivity].
    unfold substr, substr_from. cbn [String.length Nat.sub Nat.min substring Nat.add].
    rewrite Nat.sub_0_r, substring_0_all. reflexivity.
  - destruct (find s (String ch "")) as [p|] eqn:Hp; [|discriminate].
    intros [= <-]. destruct (IH p eq_refl) as [Hs Hnone].
    assert (Hsub : substr (String a s) 0 (S p) = String a (substr s 0 p)).
    { unfold substr. cbn [String.length]. rewrite !Nat.sub_0_r.
      rewrite <- Nat.succ_min_distr. reflexivity. }
    assert (Hfrom : substr_from (String a s) (S p + 1) = substr_from s (p + 1)).
    { unfold substr_from. cbn [String.length].
      replace (S p + 1) with (S (p + 1)) by lia. reflexivity. }
    rewrite Hsub, Hfrom. split.
    + rewrite append_cons. f_equal. exact Hs.
    + cbn [find starts_with].
      destruct (Ascii.eqb_spec ch a) as [E|_]; [contradiction|].
      cbn [andb]. rewrite Hnone. reflexivity.
Qed.

End Utility_facts.

Section StripFlags_more.

Lemma keep_positionals_no_entries (args : Arguments) :
  omap flag_entry (keep_positionals args) = [].
Proof.
  unfold keep_positionals. induction args as [|a args IH]; [reflexivity|].
  cbn [List.filter]. destruct (contains_dash a) eqn:E; cbn [negb]; [exact IH|].
  cbn [omap list_omap]. unfold flag_entry at 1. rewrite E. exact IH.
Qed.

Lemma keep_positionals_twice (args : Arguments) :
  keep_positionals (keep_positionals args) = keep_positionals args.
Proof.
  unfold keep_positionals. induction args as [|a args IH]; [reflexivity|].
  cbn [List.filter]. destruct (negb (contains_dash a)) eqn:E; [|exact IH].
  cbn [List.filter]. rewrite E, IH. reflexivity.
Qed.

Lemma StripFlags_spec (args : Arguments) (flags : option (gmap string string)) :
  StripFlags args flags = Some (keep_positionals args, collect_flags args <$> flags).
Proof. unfold StripFlags. apply (StripFlags_loop_spec _ [] args flags). lia. Qed.

(** X5: [StripFlags] always returns, and running it again on its own output
    removes no token and adds no flag (also when no flag map is asked
    for). *)
Theorem StripFlags_idempotent (args : Arguments) (flags : option (gmap string string)) :
  ∃ positionals flags',
    StripFlags args flags = Some (positionals, flags')
    ∧ StripFlags positionals flags' = Some (positionals, flags')
    ∧ (flags = None → flags' = None).
Proof.
  exists (keep_positionals args), (collect_flags args <$> flags).
  split; [apply StripFlags_spec|]. split.
  - rewrite StripFlags_spec, keep_positionals_twice. f_equal. f_equal.
    unfold collect_flags at 1. rewrite keep_positionals_no_entries.
    destruct flags; reflexivity.
  - intros ->. reflexivity.
Qed.

Lemma dom_map_insert (kv : string * string) (m : gmap string string) :
  dom (map_insert kv m) = {[kv.1]} ∪ dom m.
Proof.
  unfold map_insert. destruct (m !! kv.1) eqn:E.
  - symmetry. apply subseteq_union_1_L, singleton_subseteq_l.
    apply elem_of_dom. eauto.
  - apply dom_insert_L.
Qed.

Lemma dom_collect_flags (args : Arguments) (m : gmap string string) :
  dom (collect_flags args m) = dom m ∪ list_to_set (fst <$> omap flag_entry args).
Proof.
  unfold collect_flags. revert m.
  induction (omap flag_entry args) as [|kv l IH]; intros m; cbn [fold_left].
  - cbn. rewrite (right_id_L ∅ (∪)). reflexivity.
  - rewrite IH, dom_map_insert. cbn [fmap list_fmap list_to_set].
    rewrite (comm_L (∪) {[kv.1]} (dom m)), <- (assoc_L (∪)). reflexivity.
Qed.

(** X6: The keys of the flag map after [StripFlags] are the keys it had before
    and the keys of the flag-classified tokens; entries that were in the
    map before keep their value. *)
Theorem StripFlags_keys (args : Arguments) (m0 : gmap string string) :
  ∃ positionals m,
    StripFlags args (Some m0) = Some (positionals, Some m)
    ∧ dom m = dom m0 ∪ list_to_set (fst <$> omap flag_entry args)
    ∧ (∀ k v, m0 !! k = Some v → m !! k = Some v).
Proof.
  exists (keep_positionals args), (collect_flags args m0).
  split; [apply StripFlags_spec|]. split; [apply dom_collect_flags|].
  intros k v. apply collect_flags_keeps.
Qed.

(** X7: A single flag-classified token gives one entry.  The trimmed token is
    cut at its first '=': the key (dashes included) has no '=' and the
    token is key, '=', value; a token without '=' is the key itself, with
    the value "true". *)
Theorem StripFlags_key_value (tok : string) :
  contains_dash tok = true →
  ∃ k v,
    StripFlags [tok] (Some ∅) = Some ([], Some {[k := v]})
    ∧ find k "=" = None
    ∧ (Trim tok = k +:+ "=" +:+ v
       ∨ (find (Trim tok) "=" = None ∧ k = Trim tok ∧ v = "true")).
Proof.
  intros Hdash. exists (make_flag (Trim tok)).1, (make_flag (Trim tok)).2.
  split.
  - rewrite StripFlags_spec. unfold keep_positionals, collect_flags, flag_entry.
    cbn [List.filter omap list_omap fmap option_fmap option_map]. rewrite Hdash.
    cbn [negb fold_left]. unfold map_insert. rewrite lookup_empty.
    rewrite insert_empty. reflexivity.
  - unfold make_flag. destruct (find (Trim tok) "=") as [pos|] eqn:E; cbn [fst snd].
    + destruct (find_single_split _ _ _ E) as [Hs Hk]. split; [exact Hk|].
      left. exact Hs.
    + split; [exact E|]. right. auto.
Qed.

Lemma StripFlags_key_value_witness :
  ∃ k v,
    StripFlags [" --name=a=b "] (Some ∅) = Some ([], Some {[k := v]})
    ∧ find k "=" = None
    ∧ (Trim " --name=a=b " = k +:+ "=" +:+ v
       ∨ (find (Trim " --name=a=b ") "=" = None ∧ k = Trim " --name=a=b " ∧ v = "true")).
Proof. apply (StripFlags_key_value " --name=a=b "). reflexivity. Defined.

End StripFlags_more.

Section Name_facts.

Context {W : Type}.

(** X8: [Name] is the usage line up to its first space: it contains no space,
    and the usage line is the name alone or the name, a space and the
    rest. *)
Theorem Name_is_first_word (c : Command W) :
  find (Name c) " " = None
  ∧ (Use c = Name c ∨ ∃ rest, Use c = Name c +:+ " " +:+ rest).
Proof.
  unfold Name. destruct (find (Use c) " ") as [pos|] eqn:E.
  - destruct (find_single_split _ _ _ E) as [Hs Hk]. split; [exact Hk|].
    right. eexists. exact Hs.
  - split; [exact E | left; reflexivity].
Qed.

End Name_facts.

Lemma ConvertArguments_drops_program_name_witness :
  ConvertArguments 3 ["app"; "print"; "hello"]
  = Some (take (Z.to_nat (3 - 1)) (drop 1 ["app"; "print"; "hello"])).
Proof. apply ConvertArguments_drops_program_name. simpl. lia. Defined.

Section Levenshtein_metric.

Lemma edit_sym s t n : edit s t n → edit t s n.
Proof.
  induction 1; try (constructor; assumption).
  apply edit_substitute; [congruence | assumption].
Qed.

Lemma edit_same s : edit s s 0.
Proof. induction s; constructor; assumption. Qed.

Lemma edit_zero s t : edit s t 0 → s = t.
Proof.
  intros H. remember 0 as n eqn:Hn. induction H; try discriminate; [reflexivity|].
  f_equal. auto.
Qed.

Lemma edit_trans s t u n m :
  edit s t n → edit t u m → ∃ k, k ≤ n + m ∧ edit s u k.
Proof.
  intros H. revert u m.
  induction H as [|a s t n _ IH|b s t n _ IH|a s t n _ IH|a b s t n Hab _ IH];
    intros u m H2.
  - exists m. split; [lia | exact H2].
  - destruct (IH _ _ H2) as (k & Hk & Hed). exists (S k). split; [lia|].
    apply edit_delete, Hed.
  - remember (b :: t) as bt eqn:Hbt. revert Hbt.
    induction H2 as [|a' t' u' m' H2 _|c t' u' m' _ IH2|a' t' u' m' H2 _|a' c t' u' m' Hac H2 _];
      intros Hbt; try discriminate.
    + injection Hbt as -> ->. destruct (IH _ _ H2) as (k & Hk & Hed).
      exists k. split; [lia | exact Hed].
    + destruct (IH2 Hbt) as (k & Hk & Hed). exists (S k). split; [lia|].
      apply edit_insert, Hed.
    + injection Hbt as -> ->. destruct (IH _ _ H2) as (k & Hk & Hed).
      exists (S k). split; [lia|]. apply edit_insert, Hed.
    + injection Hbt as -> ->. destruct (IH _ _ H2) as (k & Hk & Hed).
      exists (S k). split; [lia|]. apply edit_insert, Hed.
  - remember (a :: t) as at_ eqn:Hat. revert Hat.
    induction H2 as [|a' t' u' m' H2 _|c t' u' m' _ IH2|a' t' u' m' H2 _|a' c t' u' m' Hac H2 _];
      intros Hat; try discriminate.
    + injection Hat as -> ->. destruct (IH _ _ H2) as (k & Hk & Hed).
      exists (S k). split; [lia|]. apply edit_delete, Hed.
    + destruct (IH2 Hat) as (k & Hk & Hed). exists (S k). split; [lia|].
      apply edit_insert, Hed.
    + injection Hat as -> ->. destruct (IH _ _ H2) as (k & Hk & Hed).
      exists k. split; [lia|]. apply edit_keep, Hed.
    + injection Hat as -> ->. destruct (IH _ _ H2) as (k & Hk & Hed).
      exists (S k). split; [lia|]. apply edit_substitute; assumption.
  - remember (b :: t) as bt eqn:Hbt. revert Hbt.
    induction H2 as [|a' t' u' m' H2 _|c t' u' m' _ IH2|a' t' u' m' H2 _|a' c t' u' m' Hac H2 _];
      intros Hbt; try discriminate.
    + injection Hbt as -> ->. destruct (IH _ _ H2) as (k & Hk & Hed).
      exists (S k). split; [lia|]. apply edit_delete, Hed.
    + destruct (IH2 Hbt) as (k & Hk & Hed). exists (S k). split; [lia|].
      apply edit_insert, Hed.
    + injection Hbt as -> ->. destruct (IH _ _ H2) as (k & Hk & Hed).
      exists (S k). split; [lia|]. apply edit_substitute; assumption.
    + injection Hbt as -> ->. destruct (IH _ _ H2) as (k & Hk & Hed).
      destruct (ascii_dec a c) as [->|Hne].
      * exists k. split; [lia|]. apply edit_keep, Hed.
      * exists (S k). split; [lia|]. apply edit_substitute; assumption.
Qed.

Lemma levenshtein_sym s t : levenshtein s t = levenshtein t s.
Proof.
  apply Nat.le_antisymm;
    apply levenshtein_lower_bound, edit_sym, levenshtein_achieved.
Qed.

Lemma levenshtein_zero s t : levenshtein s t = 0 ↔ s = t.
Proof.
  split.
  - intros H. apply edit_zero. rewrite <- H. apply levenshtein_achieved.
  - intros ->. apply Nat.le_antisymm; [|lia].
    apply levenshtein_lower_bound, edit_same.
Qed.

Lemma levenshtein_triangle s t u :
  levenshtein s u ≤ levenshtein s t + levenshtein t u.
Proof.
  destruct (edit_trans s t u _ _ (levenshtein_achieved s t) (levenshtein_achieved t u))
    as (k & Hk & Hed).
  apply levenshtein_lower_bound in Hed. lia.
Qed.

Lemma ToLowerCase_not_empty (s : string) : s ≠ "" → ToLowerCase s ≠ "".
Proof. destruct s; [contradiction | discriminate]. Qed.

(** X9: [LevenshteinDistance] returns the least number of single-character
    deletions, insertions and substitutions that turn the first string into
    the second (both lower-cased first when [ignoreCase] is set), unless
    both strings are empty: then it returns the cell that was never
    written. *)
Theorem LevenshteinDistance_least_edits (uninit : Z) (s t : string) (ignoreCase : bool) :
  s ≠ "" ∨ t ≠ "" →
  let a := list_ascii_of_string (if ignoreCase then ToLowerCase s else s) in
  let b := list_ascii_of_string (if ignoreCase then ToLowerCase t else t) in
  (∃ n, LevenshteinDistance uninit s t ignoreCase = Z.of_nat n
        ∧ edit a b n ∧ ∀ m, edit a b m → n ≤ m)
  ∧ LevenshteinDistance uninit "" "" ignoreCase = uninit.
Proof.
  intros Hne a b. split; [|apply LevenshteinDistance_empty_empty].
  exists (levenshtein a b). split; [apply LevenshteinDistance_correct, Hne|].
  apply levenshtein_least.
Qed.

(** X10: On non-empty strings [LevenshteinDistance] is a metric up to case: it
    is symmetric, it is 0 exactly when the strings are equal (after
    lower-casing when [ignoreCase] is set), and it obeys the triangle
    inequality. *)
Theorem LevenshteinDistance_metric (u1 u2 u3 : Z) (s t r : string) (ignoreCase : bool) :
  s ≠ "" → t ≠ "" → r ≠ "" →
  LevenshteinDistance u1 s t ignoreCase = LevenshteinDistance u2 t s ignoreCase
  ∧ (LevenshteinDistance u1 s t ignoreCase = 0%Z
     ↔ (if ignoreCase then ToLowerCase s else s)
       = (if ignoreCase then ToLowerCase t else t))
  ∧ (LevenshteinDistance u1 s r ignoreCase
     ≤ LevenshteinDistance u2 s t ignoreCase + LevenshteinDistance u3 t r ignoreCase)%Z.
Proof.
  intros Hs Ht Hr.
  rewrite !LevenshteinDistance_correct by (left; assumption).
  split; [|split].
  - f_equal. apply levenshtein_sym.
  - split.
    + intros H. apply string_eq_of_list, levenshtein_zero. lia.
    + intros ->. change 0%Z with (Z.of_nat 0). f_equal.
      apply levenshtein_zero. reflexivity.
  - pose proof (levenshtein_triangle
      (list_ascii_of_string (if ignoreCase then ToLowerCase s else s))
      (list_ascii_of_string (if ignoreCase then ToLowerCase t else t))
      (list_ascii_of_string (if ignoreCase then ToLowerCase r else r))).
    lia.
Qed.

End Levenshtein_metric.

Lemma LevenshteinDistance_least_edits_witness :
  (∃ n, LevenshteinDistance 9 "Hlp" "help" true = Z.of_nat n
        ∧ edit (list_ascii_of_string (ToLowerCase "Hlp"))
            (list_ascii_of_string (ToLowerCase "help")) n
        ∧ ∀ m, edit (list_ascii_of_string (ToLowerCase "Hlp"))
                 (list_ascii_of_string (ToLowerCase "help")) m → n ≤ m)
  ∧ LevenshteinDistance 9 "" "" true = 9%Z.
Proof. apply (LevenshteinDistance_least_edits 9 "Hlp" "help" true). left. discriminate. Defined.

Lemma LevenshteinDistance_metric_witness :
  LevenshteinDistance 1 "Help" "hlp" true = LevenshteinDistance 2 "hlp" "Help" true
  ∧ (LevenshteinDistance 1 "Help" "hlp" true = 0%Z ↔ ToLowerCase "Help" = ToLowerCase "hlp")
  ∧ (LevenshteinDistance 1 "Help" "held" true
     ≤ LevenshteinDistance 2 "Help" "hlp" true + LevenshteinDistance 3 "hlp" "held" true)%Z.
Proof. apply (LevenshteinDistance_metric 1 2 3 "Help" "hlp" "held" true); discriminate. Defined.

Section Conversion_facts.

Ltac read_digit :=
  cbn [NilEmpty.string_of_uint read_digits];
  match goal with
  | |- context [digit_value ?c] =>
      let v := eval vm_compute in (digit_value c) in
      change (digit_value c) with v
  end;
  cbn [default]; unfold id.

Lemma read_digits_acc (d : Decimal.uint) (acc : positive) :
  read_digits (NilEmpty.string_of_uint d) (Some (Z.pos acc))
  = Some (Z.pos (Pos.of_uint_acc d acc)).
Proof.
  revert acc. induction d; intros acc; [reflexivity|..];
    read_digit; cbn [Pos.of_uint_acc]; rewrite <- IHd; do 2 f_equal; lia.
Qed.

Lemma read_digits_zero (d : Decimal.uint) :
  read_digits (NilEmpty.string_of_uint d) (Some 0%Z) = Some (Z.of_N (Pos.of_uint d)).
Proof.
  induction d; [reflexivity|..]; read_digit; cbn [Pos.of_uint];
    [exact IHd | ..]; apply read_digits_acc.
Qed.

Lemma read_digits_start (d : Decimal.uint) :
  d ≠ Decimal.Nil →
  read_digits (NilEmpty.string_of_uint d) None = Some (Z.of_N (Pos.of_uint d)).
Proof.
  destruct d; [contradiction|..]; intros _; read_digit; cbn [Pos.of_uint];
    [apply read_digits_zero | ..]; apply read_digits_acc.
Qed.

Lemma stoi_unsigned (d : Decimal.uint) :
  d ≠ Decimal.Nil →
  stoi (NilEmpty.string_of_uint d) = int_or_out_of_range (Z.of_N (Pos.of_uint d)).
Proof.
  intros Hd. unfold stoi.
  assert (Hskip : skip_spaces (NilEmpty.string_of_uint d) = NilEmpty.string_of_uint d)
    by (destruct d; reflexivity).
  rewrite Hskip.
  assert (Hsign : match NilEmpty.string_of_uint d with
                  | String "-" s' => (true, s')
                  | String "+" s' => (false, s')
                  | _ => (false, NilEmpty.string_of_uint d)
                  end = (false, NilEmpty.string_of_uint d))
    by (destruct d; reflexivity).
  rewrite Hsign, (read_digits_start d Hd). reflexivity.
Qed.

Lemma stoi_negative (d : Decimal.uint) :
  d ≠ Decimal.Nil →
  stoi (String "-" (NilEmpty.string_of_uint d))
  = int_or_out_of_range (- Z.of_N (Pos.of_uint d)).
Proof.
  intros Hd. unfold stoi. cbn [skip_spaces].
  change (isspace "-") with false. cbv iota.
  rewrite (read_digits_start d Hd). reflexivity.
Qed.

Lemma string_of_uint_nonnil (d : Decimal.uint) :
  d ≠ Decimal.Nil → NilZero.string_of_uint d = NilEmpty.string_of_uint d.
Proof. destruct d; [contradiction | reflexivity..]. Qed.

Lemma stoi_to_string (i : Z) : stoi (to_string i) = int_or_out_of_range i.
Proof.
  unfold to_string. destruct i as [|p|p]; cbn [Z.to_int NilZero.string_of_int].
  - reflexivity.
  - rewrite string_of_uint_nonnil by apply Unsigned.to_uint_nonnil.
    rewrite stoi_unsigned by apply Unsigned.to_uint_nonnil.
    rewrite Unsigned.of_to. reflexivity.
  - rewrite string_of_uint_nonnil by apply Unsigned.to_uint_nonnil.
    rewrite stoi_negative by apply Unsigned.to_uint_nonnil.
    rewrite Unsigned.of_to. reflexivity.
Qed.

(** X11: [Convert] undoes [From]: for [bool], [char] and [std::string] always,
    for [int] when the value is an [int]; [std::stoi] throws
    [std::out_of_range] on the decimal form of any other integer. *)
Theorem Convert_From_round_trip (b : bool) (c : ascii) (s : string) (i : Z) :
  Convert (From b) = inl b
  ∧ Convert (From c) = inl c
  ∧ Convert (From s) = inl s
  ∧ Convert (From i)
    = (if bool_decide (INT_MIN ≤ i ≤ INT_MAX)%Z then inl i else inr out_of_range).
Proof.
  split; [destruct b; reflexivity|]. split; [reflexivity|]. split; [reflexivity|].
  apply stoi_to_string.
Qed.

End Conversion_facts.

Section Registry_facts.

Context {W : Type}.

Implicit Types (F G : Flags W).

(** X12: [Add] does not look for duplicates, and [Lookup] returns the first
    match: a long name that was registered keeps resolving to the flag it
    resolved to, a new long name resolves to the new flag, and the registry
    grows by one entry either way. *)
Theorem Add_keeps_first_match F (type : Types) (Long Short Description : string)
    (setter : string → Throwing W unit) (name : string) :
  Lookup (Add F type Long Short Description setter) name
  = match Lookup F name with
    | Some flag => Some flag
    | None =>
        if String.eqb Long name
        then Some {| FlagType := type; FlagShort := Short; FlagLong := Long;
                     FlagDescription := Description; Setter := setter |}
        else None
    end
  ∧ Size (Add F type Long Short Description setter) = S (Size F).
Proof.
  split.
  - unfold Lookup, Add. cbn [flags with_flags]. rewrite find_app. reflexivity.
  - unfold Size, Add. cbn [flags with_flags]. rewrite length_app. simpl. lia.
Qed.

Lemma Lookup_merge_flags F (source : list (Flag W)) (name : string) :
  Lookup (merge_flags F source) name
  = match Lookup F name with
    | Some flag => Some flag
    | None => List.find (λ f, String.eqb (FlagLong f) name) source
    end.
Proof.
  unfold merge_flags. revert F. induction source as [|flag l IH]; intros F.
  - cbn. destruct (Lookup F name); reflexivity.
  - cbn [fold_left List.find]. rewrite IH.
    destruct (Lookup F (FlagLong flag)) as [g|] eqn:Hg.
    + destruct (Lookup F name) eqn:Hn; [reflexivity|].
      destruct (String.eqb_spec (FlagLong flag) name) as [E|_]; [|reflexivity].
      congruence.
    + rewrite Lookup_Add_ptr.
      destruct (Lookup F name) eqn:Hn; [reflexivity|].
      destruct (String.eqb (FlagLong flag) name); reflexivity.
Qed.

Lemma merge_flags_prefix F (source : list (Flag W)) :
  ∃ added, flags (merge_flags F source) = flags F ++ added
           ∧ (∀ f, In f added → In f source)
           ∧ ContinueOnError (merge_flags F source) = ContinueOnError F.
Proof.
  unfold merge_flags. revert F. induction source as [|flag l IH]; intros F.
  - exists []. cbn. rewrite app_nil_r. auto.
  - cbn [fold_left]. destruct (Lookup F (FlagLong flag)) as [found|].
    + destruct (IH F) as (added & Hfl & Hin & Hc). exists added.
      split; [exact Hfl|]. split; [|exact Hc]. intros f Hf. right. auto.
    + destruct (IH (Add_ptr F flag)) as (added & Hfl & Hin & Hc).
      exists (flag :: added). split; [|split; [|exact Hc]].
      * rewrite Hfl. cbn [Add_ptr flags with_flags]. rewrite <- app_assoc. reflexivity.
      * intros f [<-|Hf]; [left; reflexivity | right; auto].
Qed.

Lemma Lookup_None_not_in F (name : string) :
  Lookup F name = None → name ∉ FlagLong <$> flags F.
Proof.
  unfold Lookup. intros H Hin. apply list_elem_of_fmap in Hin as (f & -> & Hf).
  apply list_elem_of_In in Hf. apply (List.find_none _ _ H) in Hf.
  rewrite String.eqb_refl in Hf. discriminate.
Qed.

Lemma merge_flags_NoDup F (source : list (Flag W)) :
  NoDup (FlagLong <$> flags F) → NoDup (FlagLong <$> flags (merge_flags F source)).
Proof.
  unfold merge_flags. revert F. induction source as [|flag l IH]; intros F HF; [exact HF|].
  cbn [fold_left]. destruct (Lookup F (FlagLong flag)) eqn:E; [apply IH, HF|].
  apply IH. cbn [Add_ptr flags with_flags]. rewrite fmap_app.
  apply NoDup_app. split; [exact HF|]. split.
  - intros x Hx Hx'. cbn in Hx'. apply list_elem_of_singleton in Hx'. subst x.
    exact (Lookup_None_not_in _ _ E Hx).
  - cbn. apply NoDup_singleton.
Qed.

(** X13: Merging keeps what the registry has, in place, and appends flags of
    the source whose long name is new; a name resolves to what it resolved
    to before or, failing that, to the first flag of the source with that
    name; merging the same source again changes nothing. *)
Theorem merge_flags_appends_new_names F (source : list (Flag W)) :
  (∃ added, flags (merge_flags F source) = flags F ++ added
            ∧ ∀ f, In f added → In f source)
  ∧ ContinueOnError (merge_flags F source) = ContinueOnError F
  ∧ (∀ name, Lookup (merge_flags F source) name
             = match Lookup F name with
               | Some flag => Some flag
               | None => List.find (λ f, String.eqb (FlagLong f) name) source
               end)
  ∧ merge_flags (merge_flags F source) source = merge_flags F source.
Proof.
  destruct (merge_flags_prefix F source) as (added & H1 & H2 & H3).
  split; [eauto|]. split; [exact H3|]. split.
  - apply Lookup_merge_flags.
  - apply merge_flags_absorbed, merge_flags_absorbs.
Qed.

(** X14: Merging cannot introduce a duplicate long name: a registry without
    duplicates stays without, whatever the source holds. *)
Theorem merge_flags_keeps_names_unique F (source : list (Flag W)) :
  NoDup (FlagLong <$> flags F) →
  NoDup (FlagLong <$> flags (merge_flags F source)).
Proof. apply merge_flags_NoDup. Qed.

End Registry_facts.

Lemma merge_flags_keeps_names_unique_witness :
  NoDup (FlagLong <$> flags (merge_flags count_flags
                               (flags count_flags ++ flags count_flags))).
Proof.
  apply merge_flags_keeps_names_unique. cbn. apply NoDup_singleton.
Defined.

Section Lineage_facts.

Context {W : Type}.

Local Abbreviation heap := (gmap ptr (Command W)).

Implicit Types (F G : Flags W) (h : heap) (cs : list (Command W)).

(** The registry after merging the persistent flags of [cs] in order. *)
Local Abbreviation merge_all R l :=
  (fold_left (λ acc d, merge_flags acc (flags (PersistentFlags d))) l R).

Lemma lineage_head fuel h p cs :
  lineage fuel h p = Some cs → ∃ c rest, cs = c :: rest ∧ h !! p = Some c.
Proof.
  destruct fuel; [discriminate|]. cbn [lineage].
  destruct (h !! p) as [c|]; [|discriminate]. cbn [mbind option_bind].
  destruct (Parent c) as [parent|].
  - destruct (lineage fuel h parent); [|discriminate]. intros [= <-]. eauto.
  - intros [= <-]. eauto.
Qed.

Lemma lineage_mono fuel fuel' h p cs :
  fuel ≤ fuel' → lineage fuel h p = Some cs → lineage fuel' h p = Some cs.
Proof.
  revert fuel' p cs. induction fuel as [|fuel IH]; intros fuel' p cs Hle; [discriminate|].
  destruct fuel' as [|fuel']; [lia|]. cbn [lineage].
  destruct (h !! p) as [c|]; [|discriminate]. cbn [mbind option_bind].
  destruct (Parent c) as [parent|]; [|auto].
  destruct (lineage fuel h parent) as [l|] eqn:E; [|discriminate].
  rewrite (IH fuel' parent l) by (lia || exact E). auto.
Qed.

Lemma merge_flags_nil F : merge_flags F [] = F.
Proof. reflexivity. Qed.

Lemma merge_step F (c : Command W) :
  (if 0 <? Size (PersistentFlags c)
   then merge_flags F (flags (PersistentFlags c)) else F)
  = merge_flags F (flags (PersistentFlags c)).
Proof.
  unfold Size. destruct (flags (PersistentFlags c)); reflexivity.
Qed.

Lemma rmerge_registry_lineage fuel h this me F cmd cs :
  h !! this = Some me →
  extends (PersistentFlags me) F →
  lineage fuel h cmd = Some cs →
  rmerge_registry fuel h this me F cmd = Some (merge_all F cs).
Proof.
  intros Hme. revert F cmd cs. induction fuel as [|fuel IH]; intros F cmd cs HF; [discriminate|].
  cbn [lineage rmerge_registry].
  destruct (decide (cmd = this)) as [->|Hne].
  - rewrite Hme. cbn [mbind option_bind].
    change (PersistentFlags (set_PersistentFlags me F)) with F.
    change (Parent (set_PersistentFlags me F)) with (Parent me).
    assert (HF1 : (if 0 <? Size F then merge_flags F (flags F) else F) = F).
    { destruct (0 <? Size F); [apply merge_flags_absorbed, absorbs_self | reflexivity]. }
    assert (HF2 : merge_flags F (flags (PersistentFlags me)) = F).
    { apply merge_flags_absorbed. eapply absorbs_extends; [apply absorbs_self | exact HF]. }
    rewrite HF1. destruct (Parent me) as [parent|].
    + destruct (lineage fuel h parent) as [l|] eqn:E; [|discriminate].
      intros [= <-]. cbn [fold_left]. rewrite HF2. apply IH; assumption.
    + intros [= <-]. cbn [fold_left]. rewrite HF2. reflexivity.
  - destruct (h !! cmd) as [c|]; [|discriminate]. cbn [mbind option_bind].
    rewrite merge_step. destruct (Parent c) as [parent|].
    + destruct (lineage fuel h parent) as [l|] eqn:E; [|discriminate].
      intros [= <-]. cbn [fold_left]. apply IH; [|exact E].
      eapply extends_trans; [exact HF | apply merge_flags_extends].
    + intros [= <-]. reflexivity.
Qed.

Lemma Lookup_merge_all F cs (name : string) :
  Lookup (merge_all F cs) name
  = match Lookup F name with
    | Some flag => Some flag
    | None => declared_by name cs
    end.
Proof.
  revert F. induction cs as [|c cs IH]; intros F; cbn [fold_left declared_by].
  - destruct (Lookup F name); reflexivity.
  - rewrite IH, Lookup_merge_flags.
    destruct (Lookup F name); [reflexivity|].
    unfold Lookup. destruct (List.find _ (flags (PersistentFlags c))); reflexivity.
Qed.

Lemma merge_all_prefix F cs :
  ∃ added, flags (merge_all F cs) = flags F ++ added
           ∧ (∀ f, In f added → ∃ c, In c cs ∧ In f (flags (PersistentFlags c)))
           ∧ ContinueOnError (merge_all F cs) = ContinueOnError F.
Proof.
  revert F. induction cs as [|c cs IH]; intros F; cbn [fold_left].
  - exists []. rewrite app_nil_r. split; [reflexivity|]. split; [intros f []|reflexivity].
  - destruct (IH (merge_flags F (flags (PersistentFlags c)))) as (added & Hfl & Hin & Hc).
    destruct (merge_flags_prefix F (flags (PersistentFlags c))) as (first & Hfl1 & Hin1 & Hc1).
    exists (first ++ added). split; [|split].
    + rewrite Hfl, Hfl1, <- app_assoc. reflexivity.
    + intros f Hf. apply in_app_or in Hf as [Hf|Hf].
      * exists c. split; [left; reflexivity | auto].
      * destruct (Hin f Hf) as (c' & Hc' & Hf'). exists c'. split; [right|]; assumption.
    + congruence.
Qed.

Lemma merge_all_NoDup F cs :
  NoDup (FlagLong <$> flags F) → NoDup (FlagLong <$> flags (merge_all F cs)).
Proof.
  revert F. induction cs as [|c cs IH]; intros F HF; [exact HF|].
  cbn [fold_left]. apply IH, merge_flags_NoDup, HF.
Qed.

Lemma MergePersistentFlags_lineage fuel h this cs :
  lineage fuel h this = Some cs →
  ∃ me rest,
    cs = me :: rest ∧ h !! this = Some me
    ∧ MergePersistentFlags fuel h this
      = Some (<[this := set_PersistentFlags me (merge_all (PersistentFlags me) cs)]> h).
Proof.
  intros Hlin. destruct (lineage_head _ _ _ _ Hlin) as (me & rest & -> & Hme).
  exists me, rest. split; [reflexivity|]. split; [exact Hme|].
  rewrite (MergePersistentFlags_registry _ _ _ _ Hme).
  rewrite (rmerge_registry_lineage fuel h this me _ this _ Hme (extends_refl _) Hlin).
  reflexivity.
Qed.

(** X15: [MergePersistentFlags] on a command with a finite line of ancestors
    writes nothing but the persistent registry of that command.  The flags
    the registry had stay where they were; every flag appended is a
    persistent flag of the command or of an ancestor; no long name becomes
    duplicated. *)
Theorem MergePersistentFlags_frame fuel h this cs :
  lineage fuel h this = Some cs →
  ∃ me added,
    h !! this = Some me
    ∧ MergePersistentFlags fuel h this
      = Some (<[this := set_PersistentFlags me
                          {| flags := flags (PersistentFlags me) ++ added;
                             ContinueOnError := ContinueOnError (PersistentFlags me) |}]> h)
    ∧ (∀ f, In f added → ∃ c, In c cs ∧ In f (flags (PersistentFlags c)))
    ∧ (NoDup (FlagLong <$> flags (PersistentFlags me))
       → NoDup (FlagLong <$> (flags (PersistentFlags me) ++ added))).
Proof.
  intros Hlin.
  destruct (MergePersistentFlags_lineage _ _ _ _ Hlin) as (me & rest & -> & Hme & Hrun).
  destruct (merge_all_prefix (PersistentFlags me) (me :: rest)) as (added & Hfl & Hin & Hc).
  exists me, added. split; [exact Hme|].
  assert (HF : merge_all (PersistentFlags me) (me :: rest)
               = {| flags := flags (PersistentFlags me) ++ added;
                    ContinueOnError := ContinueOnError (PersistentFlags me) |}).
  { destruct (merge_all _ _) as [fl coe]. cbn in Hfl, Hc. congruence. }
  split; [rewrite Hrun, HF; reflexivity|]. split; [exact Hin|].
  intros Hnd. rewrite <- Hfl. apply merge_all_NoDup, Hnd.
Qed.

Lemma FullFlags_lookup fuel h this cs :
  lineage fuel h this = Some cs →
  ∃ me h' F,
    h !! this = Some me
    ∧ FullFlags fuel h this = Some (h', F)
    ∧ (∀ name, Lookup F name
               = match Lookup (LocalFlags me) name with
                 | Some flag => Some flag
                 | None => declared_by name cs
                 end)
    ∧ ContinueOnError F = ContinueOnError (LocalFlags me).
Proof.
  intros Hlin.
  destruct (MergePersistentFlags_lineage _ _ _ _ Hlin) as (me & rest & -> & Hme & Hrun).
  eexists me, _, _. split; [exact Hme|]. split.
  { unfold FullFlags. rewrite Hrun. cbn [mbind option_bind].
    rewrite lookup_insert_eq. reflexivity. }
  split.
  - intros name. rewrite Lookup_merge_flags.
    cbn [PersistentFlags LocalFlags set_PersistentFlags].
    destruct (Lookup (LocalFlags me) name); [reflexivity|].
    change (List.find _ (flags ?X)) with (Lookup X name).
    rewrite Lookup_merge_all. cbn [declared_by].
    destruct (Lookup (PersistentFlags me) name); reflexivity.
  - destruct (merge_flags_prefix (LocalFlags me)
                (flags (PersistentFlags (set_PersistentFlags me
                   (merge_all (PersistentFlags me) (me :: rest))))))
      as (added & _ & _ & Hc).
    exact Hc.
Qed.

(** X16: How [FullFlags] resolves a long name on a command with a finite line
    of ancestors: to the local flag of that name; failing that, to the
    persistent flag of that name of the command itself or else of its
    nearest ancestor that has one.  [ContinueOnError] is the one of the
    local registry. *)
Theorem FullFlags_resolution fuel h this cs :
  lineage fuel h this = Some cs →
  ∃ me h' F,
    h !! this = Some me
    ∧ FullFlags fuel h this = Some (h', F)
    ∧ (∀ name, Lookup F name
               = match Lookup (LocalFlags me) name with
                 | Some flag => Some flag
                 | None => declared_by name cs
                 end)
    ∧ ContinueOnError F = ContinueOnError (LocalFlags me).
Proof. exact (FullFlags_lookup fuel h this cs). Qed.

End Lineage_facts.

Section Inherited_facts.

Context {W : Type}.

Local Abbreviation heap := (gmap ptr (Command W)).

Implicit Types (h : heap) (cs : list (Command W)).

Local Abbreviation merge_all R l :=
  (fold_left (λ acc d, merge_flags acc (flags (PersistentFlags d))) l R).

Lemma InheritedFlags_rmerge_lineage fuel h (R : Flags W) cmd cs :
  lineage fuel h cmd = Some cs →
  InheritedFlags_rmerge fuel h R cmd = Some (merge_all R (gated cs)).
Proof.
  revert R cmd cs. induction fuel as [|fuel IH]; intros R cmd cs; [discriminate|].
  cbn [lineage InheritedFlags_rmerge].
  destruct (h !! cmd) as [c|]; [|discriminate]. cbn [mbind option_bind].
  destruct (Parent c) as [parent|].
  - destruct (lineage fuel h parent) as [l|] eqn:E; [|discriminate].
    intros [= <-]. cbn [gated]. destruct (0 <? Size (PersistentFlags c)); [|reflexivity].
    cbn [fold_left]. apply IH, E.
  - intros [= <-]. cbn [gated]. destruct (0 <? Size (PersistentFlags c)); reflexivity.
Qed.

Lemma declared_by_gated (name : string) cs :
  is_Some (declared_by name (gated cs)) → is_Some (declared_by name cs).
Proof.
  induction cs as [|c cs IH]; [intros [? [=]]|]. cbn [gated declared_by].
  destruct (0 <? Size (PersistentFlags c)); [|intros [? [=]]].
  cbn [declared_by]. destruct (Lookup (PersistentFlags c) name); [eauto | exact IH].
Qed.

(** X17: [InheritedFlags] on a command with a finite line of ancestors resolves
    a long name to the persistent flag of the nearest ancestor that has
    one, looking no further than the first ancestor without persistent
    flags.  Every name it resolves is resolved by [FullFlags] too. *)
Theorem InheritedFlags_stops_at_empty_ancestor fuel h this (me : Command W) ancestors :
  lineage fuel h this = Some (me :: ancestors) →
  ∃ inherited h' F,
    InheritedFlags fuel h this = Some inherited
    ∧ (∀ name, Lookup inherited name = declared_by name (gated ancestors))
    ∧ FullFlags fuel h this = Some (h', F)
    ∧ (∀ name, is_Some (Lookup inherited name) → is_Some (Lookup F name)).
Proof.
  intros Hlin.
  destruct (FullFlags_lookup fuel h this _ Hlin) as (me' & h' & F & Hme & Hfull & HF & _).
  destruct (lineage_head _ _ _ _ Hlin) as (c & rest & [= <- <-] & Hc).
  assert (me' = me) as -> by congruence.
  assert (Hinh : InheritedFlags fuel h this
                 = Some (merge_all {| flags := []; ContinueOnError := false |}
                           (gated ancestors))).
  { unfold InheritedFlags. rewrite Hme. cbn [mbind option_bind].
    destruct fuel as [|fuel]; [discriminate|]. cbn [lineage] in Hlin.
    rewrite Hme in Hlin. cbn [mbind option_bind] in Hlin.
    destruct (Parent me) as [parent|].
    - destruct (lineage fuel h parent) as [l|] eqn:E; [|discriminate].
      injection Hlin as <-. apply InheritedFlags_rmerge_lineage.
      apply (lineage_mono fuel); [lia | exact E].
    - injection Hlin as <-. reflexivity. }
  assert (Hlook : ∀ name,
             Lookup (merge_all {| flags := []; ContinueOnError := false |}
                       (gated ancestors)) name
             = declared_by name (gated ancestors)).
  { intros name. rewrite Lookup_merge_all. reflexivity. }
  eexists _, h', F. split; [exact Hinh|]. split; [exact Hlook|]. split; [exact Hfull|].
  intros name. rewrite Hlook, HF. intros H%declared_by_gated.
  destruct (Lookup (LocalFlags me) name); [eauto|].
  cbn [declared_by]. destruct (Lookup (PersistentFlags me) name); [eauto | exact H].
Qed.

Lemma concat_snoc (sep : string) (l : list string) (x : string) :
  l ≠ [] → String.concat sep (l ++ [x]) = String.concat sep l +:+ sep +:+ x.
Proof.
  induction l as [|a l IH]; [contradiction|]. intros _.
  destruct l as [|b l]; [reflexivity|].
  change (String.concat sep ((a :: b :: l) ++ [x]))
    with (a +:+ sep +:+ String.concat sep ((b :: l) ++ [x])).
  rewrite IH by discriminate.
  change (String.concat sep (a :: b :: l)) with (a +:+ sep +:+ String.concat sep (b :: l)).
  rewrite !append_assoc. reflexivity.
Qed.

Lemma CommandPath_loop_lineage fuel h x (path : string) (c : Command W) ancestors :
  lineage fuel h x = Some (c :: ancestors) →
  CommandPath_loop fuel h x path
  = Some (fold_left (λ acc d, Name d +:+ " " +:+ acc) ancestors path).
Proof.
  revert x path c ancestors. induction fuel as [|fuel IH]; intros x path c ancestors;
    [discriminate|].
  cbn [lineage CommandPath_loop].
  destruct (h !! x) as [c'|]; [|discriminate]. cbn [mbind option_bind].
  destruct (Parent c') as [parent|].
  - destruct (lineage fuel h parent) as [l|] eqn:E; [|discriminate].
    intros [= <- <-].
    destruct (lineage_head _ _ _ _ E) as (d & rest & -> & Hd).
    rewrite Hd. cbn [mbind option_bind fold_left]. apply (IH _ _ d), E.
  - intros [= <- <-]. reflexivity.
Qed.

Lemma path_fold (names : list string) (ancestors : list (Command W)) :
  names ≠ [] →
  fold_left (λ acc d, Name d +:+ " " +:+ acc) ancestors (String.concat " " (rev names))
  = String.concat " " (rev (names ++ (Name <$> ancestors))).
Proof.
  revert names. induction ancestors as [|d l IH]; intros names Hne.
  - cbn. rewrite app_nil_r. reflexivity.
  - cbn [fold_left fmap list_fmap].
    replace (names ++ Name d :: (Name <$> l)) with ((names ++ [Name d]) ++ (Name <$> l))
      by (rewrite <- app_assoc; reflexivity).
    rewrite <- IH by (destruct names; discriminate).
    f_equal. rewrite rev_app_distr. cbn [rev app].
    destruct (rev names) as [|a r] eqn:E.
    + apply (f_equal (@rev string)) in E. rewrite rev_involutive in E. contradiction.
    + reflexivity.
Qed.

(** X18: [CommandPath] on a command with a finite line of ancestors is the
    names from the root down to the command, separated by single spaces. *)
Theorem CommandPath_root_first fuel h this cs :
  lineage fuel h this = Some cs →
  CommandPath fuel h this = Some (String.concat " " (rev (Name <$> cs))).
Proof.
  intros Hlin. destruct (lineage_head _ _ _ _ Hlin) as (c & ancestors & -> & Hc).
  unfold CommandPath. rewrite Hc. cbn [mbind option_bind].
  rewrite (CommandPath_loop_lineage _ _ _ _ c ancestors Hlin).
  f_equal. apply (path_fold [Name c]). discriminate.
Qed.

End Inherited_facts.

Lemma chain_abc_lineage :
  lineage 3 chain_abc 2
  = Some [make_Command "c" [] (Some run_ok) (Some 1) [] true;
          make_Command "b" [] None (Some 0) [2] true;
          make_Command "a" [verbose_flag] None None [1] true].
Proof. vm_compute. reflexivity. Defined.

Lemma CommandPath_root_first_witness :
  CommandPath 3 chain_abc 2 = Some "a b c".
Proof. exact (CommandPath_root_first 3 chain_abc 2 _ chain_abc_lineage). Defined.

Lemma InheritedFlags_stops_at_empty_ancestor_witness :
  ∃ inherited h' F,
    InheritedFlags 3 chain_abc 2 = Some inherited
    ∧ (∀ name, Lookup inherited name = None)
    ∧ FullFlags 3 chain_abc 2 = Some (h', F)
    ∧ (∀ name, is_Some (Lookup inherited name) → is_Some (Lookup F name)).
Proof.
  exact (InheritedFlags_stops_at_empty_ancestor 3 chain_abc 2 _ _ chain_abc_lineage).
Defined.

Lemma FullFlags_resolution_witness :
  ∃ me h' F,
    chain_abc !! 2 = Some me
    ∧ FullFlags 3 chain_abc 2 = Some (h', F)
    ∧ (∀ name, Lookup F name
               = match Lookup (LocalFlags me) name with
                 | Some flag => Some flag
                 | None =>
                     declared_by name
                       [make_Command "c" [] (Some run_ok) (Some 1) [] true;
                        make_Command "b" [] None (Some 0) [2] true;
                        make_Command "a" [verbose_flag] None None [1] true]
                 end)
    ∧ ContinueOnError F = ContinueOnError (LocalFlags me).
Proof. exact (FullFlags_resolution 3 chain_abc 2 _ chain_abc_lineage). Defined.

Lemma MergePersistentFlags_frame_witness :
  ∃ me added,
    chain_abc !! 2 = Some me
    ∧ MergePersistentFlags 3 chain_abc 2
      = Some (<[2 := set_PersistentFlags me
                       {| flags := flags (PersistentFlags me) ++ added;
                          ContinueOnError := ContinueOnError (PersistentFlags me) |}]>
                chain_abc)
    ∧ (∀ f, In f added →
            ∃ c, In c [make_Command "c" [] (Some run_ok) (Some 1) [] true;
                       make_Command "b" [] None (Some 0) [2] true;
                       make_Command "a" [verbose_flag] None None [1] true]
                 ∧ In f (flags (PersistentFlags c)))
    ∧ (NoDup (FlagLong <$> flags (PersistentFlags me))
       → NoDup (FlagLong <$> (flags (PersistentFlags me) ++ added))).
Proof. exact (MergePersistentFlags_frame 3 chain_abc 2 _ chain_abc_lineage). Defined.

Section Sort_facts.

Context {W : Type}.

Local Abbreviation heap := (gmap ptr (Command W)).

Implicit Types (h : heap).

Lemma lexicographical_compare_asym (a b : string) :
  lexicographical_compare a b = true → lexicographical_compare b a = false.
Proof.
  revert b. induction a as [|x a IH]; intros [|y b]; cbn [lexicographical_compare];
    try reflexivity; try discriminate.
  unfold char_lt.
  destruct (Z.ltb_spec (char_value x) (char_value y)) as [Hxy|Hxy];
    destruct (Z.ltb_spec (char_value y) (char_value x)) as [Hyx|Hyx];
    try reflexivity; try discriminate; try lia.
  apply IH.
Qed.

Lemma name_le_total : Total name_le.
Proof.
  intros a b. unfold name_le.
  destruct (lexicographical_compare b.1 a.1) eqn:E; [|left; exact I].
  right. rewrite (lexicographical_compare_asym _ _ E). exact I.
Qed.

(** A sort that [std::sort] may be: the merge sort of the library. *)
Lemma merge_sort_is_std_sort : is_std_sort (merge_sort name_le).
Proof.
  intros l. split; [apply merge_sort_Permutation|].
  apply Sorted_merge_sort. apply name_le_total.
Qed.

(** The pairs of name and address that [SortSubCommands] sorts. *)
Local Abbreviation named_child h :=
  (λ cmd : ptr, (λ d : Command W, (Name d, cmd)) <$> h !! cmd).

Lemma named_children h (cmds : list ptr) (named : list (string * ptr)) :
  mapM (named_child h) cmds = Some named →
  named.*2 = cmds ∧ Forall (λ y, named_child h y.2 = Some y) named.
Proof.
  intros H. apply mapM_Some_1 in H.
  induction H as [|q y l k Hy _ [IH1 IH2]]; [split; [reflexivity | constructor]|].
  assert (y.2 = q) as Hq.
  { destruct (h !! q); cbn in Hy; [|discriminate]. injection Hy as <-. reflexivity. }
  split; [cbn; congruence|]. constructor; [rewrite Hq; exact Hy | exact IH2].
Qed.

Lemma SortSubCommands_spec std_sort h this (c : Command W) :
  is_std_sort std_sort →
  h !! this = Some c →
  Forall (λ q, is_Some (h !! q)) (Commands c) →
  ∃ sorted,
    SortSubCommands std_sort h this
    = Some (if IsSorted c then h
            else <[this := set_Commands c sorted.*2 true]> h)
    ∧ sorted.*2 ≡ₚ Commands c
    ∧ Sorted name_le sorted
    ∧ Forall (λ y, named_child h y.2 = Some y) sorted.
Proof.
  intros Hsort Hc Hall.
  destruct (mapM_is_Some_2 (named_child h) (Commands c)) as [named Hnamed].
  { eapply Forall_impl; [exact Hall|]. intros q [d Hd]. cbn. rewrite Hd. eauto. }
  destruct (named_children h _ _ Hnamed) as [Hsnd Hforall].
  destruct (Hsort named) as [Hperm Hsorted].
  exists (std_sort named).
  split; [|split; [|split]].
  - unfold SortSubCommands. rewrite Hc. cbn [mbind option_bind].
    destruct (IsSorted c); [reflexivity|]. rewrite Hnamed. reflexivity.
  - rewrite Hperm. rewrite Hsnd. reflexivity.
  - exact Hsorted.
  - rewrite Hperm. exact Hforall.
Qed.

Lemma children_names_sorted h this (c : Command W) (sorted : list (string * ptr)) :
  h !! this = Some c →
  Forall (λ y, named_child h y.2 = Some y) sorted →
  children_names (<[this := set_Commands c sorted.*2 true]> h) this
  = Some (sorted.*1, true).
Proof.
  intros Hc Hall. unfold children_names. rewrite lookup_insert_eq.
  cbn [mbind option_bind Commands set_Commands IsSorted].
  assert (Hnames : ∀ c', Name c' = Name c →
            mapM (λ cmd, Name <$> <[this := c']> h !! cmd) sorted.*2 = Some sorted.*1).
  { intros c' Hc'. apply mapM_Some_2. induction Hall as [|[n q] l Hy _ IH]; [constructor|].
    cbn [fmap list_fmap fst snd]. constructor; [|exact IH]. cbn [snd] in Hy.
    destruct (decide (q = this)) as [->|Hne].
    - rewrite lookup_insert_eq. rewrite Hc in Hy. cbn in Hy |- *.
      injection Hy as <-. congruence.
    - rewrite lookup_insert_ne by congruence.
      destruct (h !! q) as [d|]; cbn in Hy |- *; [|discriminate].
      injection Hy as <-. reflexivity. }
  rewrite Hnames by reflexivity. reflexivity.
Qed.

(** X19: [SortSubCommands] on a command whose children are all allocated,
    whatever [std::sort] does with children of equal name: if [IsSorted] is
    set nothing happens; otherwise the children are permuted so that no
    child has a name that [std::lexicographical_compare] on [char] puts
    before the name of the child in front of it, and [IsSorted] is set.
    Nothing else changes, and a second call changes nothing. *)
Theorem SortSubCommands_sorts_once std_sort h this (c : Command W) :
  is_std_sort std_sort →
  h !! this = Some c →
  Forall (λ q, is_Some (h !! q)) (Commands c) →
  ∃ h' c' names,
    SortSubCommands std_sort h this = Some h'
    ∧ SortSubCommands std_sort h' this = Some h'
    ∧ h' !! this = Some c'
    ∧ (∀ q, q ≠ this → h' !! q = h !! q)
    ∧ Commands c' ≡ₚ Commands c
    ∧ (IsSorted c = true → h' = h)
    ∧ (IsSorted c = false →
       children_names h' this = Some (names, true)
       ∧ Sorted (λ a b, lexicographical_compare b a = false) names).
Proof.
  intros Hsort Hc Hall.
  destruct (SortSubCommands_spec std_sort h this c Hsort Hc Hall)
    as (sorted & Hrun & Hperm & Hsorted & Hnamed).
  destruct (IsSorted c) eqn:Hs.
  - exists h, c, []. split; [exact Hrun|]. split; [exact Hrun|].
    split; [exact Hc|]. split; [reflexivity|]. split; [reflexivity|].
    split; [reflexivity | discriminate].
  - exists (<[this := set_Commands c sorted.*2 true]> h),
      (set_Commands c sorted.*2 true), sorted.*1.
    split; [exact Hrun|]. split.
    { unfold SortSubCommands. rewrite lookup_insert_eq. reflexivity. }
    split; [apply lookup_insert_eq|].
    split; [intros q Hq; apply lookup_insert_ne; congruence|].
    split; [exact Hperm|]. split; [discriminate|]. intros _.
    split; [apply children_names_sorted; assumption|].
    apply (Sorted_fmap fst name_le); [|exact Hsorted].
    intros a b Hab. unfold name_le in Hab. apply negb_prop_elim in Hab.
    apply Is_true_false. exact Hab.
Qed.

(** X20: [AddCommand] of a command other than the parent itself, on a parent
    whose children are all allocated, whatever [std::sort] does with
    children of equal name: the child gets the parent as its [Parent], the
    children of the parent are the old ones and the new one in some order,
    and no other command changes.  When [IsSorted] is already set the new
    child simply goes last. *)
Theorem AddCommand_links std_sort h this cmd (me c : Command W) :
  is_std_sort std_sort →
  h !! this = Some me → h !! cmd = Some c → cmd ≠ this →
  Forall (λ q, is_Some (h !! q)) (Commands me) →
  ∃ h' me',
    AddCommand std_sort h this cmd = Some h'
    ∧ h' !! cmd = Some (set_Parent c (Some this))
    ∧ h' !! this = Some me'
    ∧ Commands me' ≡ₚ Commands me ++ [cmd]
    ∧ Parent me' = Parent me ∧ Use me' = Use me
    ∧ (∀ q, q ≠ this → q ≠ cmd → h' !! q = h !! q)
    ∧ (IsSorted me = true → Commands me' = Commands me ++ [cmd]).
Proof.
  intros Hsort Hme Hc Hne Hall.
  set (h1 := <[cmd := set_Parent c (Some this)]> h).
  set (me1 := set_Commands me (Commands me ++ [cmd]) (IsSorted me)).
  set (h2 := <[this := me1]> h1).
  assert (Hme1 : h1 !! this = Some me) by (unfold h1; rewrite lookup_insert_ne; auto).
  assert (Hrun : AddCommand std_sort h this cmd = SortSubCommands std_sort h2 this).
  { unfold AddCommand. rewrite Hc. cbn [mbind option_bind]. fold h1.
    rewrite Hme1. reflexivity. }
  assert (Hall2 : Forall (λ q, is_Some (h2 !! q)) (Commands me1)).
  { unfold me1. cbn [Commands set_Commands]. apply Forall_app. split.
    - eapply Forall_impl; [exact Hall|]. intros q [d Hd]. unfold h2, h1.
      destruct (decide (q = this)) as [->|]; [rewrite lookup_insert_eq; eauto|].
      rewrite lookup_insert_ne by congruence.
      destruct (decide (q = cmd)) as [->|]; [rewrite lookup_insert_eq; eauto|].
      rewrite lookup_insert_ne by congruence. eauto.
    - repeat constructor. unfold h2, h1. rewrite lookup_insert_ne by congruence.
      rewrite lookup_insert_eq. eauto. }
  destruct (SortSubCommands_spec std_sort h2 this me1 Hsort (lookup_insert_eq _ _ _) Hall2)
    as (sorted & Hsorted & Hperm & _ & _).
  change (IsSorted me1) with (IsSorted me) in Hsorted.
  change (Commands me1) with (Commands me ++ [cmd]) in Hperm.
  rewrite Hrun, Hsorted. destruct (IsSorted me) eqn:Hs.
  - exists h2, me1. split; [reflexivity|].
    split; [unfold h2, h1; rewrite lookup_insert_ne by congruence; apply lookup_insert_eq|].
    split; [apply lookup_insert_eq|]. split; [reflexivity|].
    split; [reflexivity|]. split; [reflexivity|]. split; [|reflexivity].
    intros q Hq1 Hq2. unfold h2, h1. rewrite !lookup_insert_ne by congruence. reflexivity.
  - exists (<[this := set_Commands me1 sorted.*2 true]> h2), (set_Commands me1 sorted.*2 true).
    split; [reflexivity|].
    split; [unfold h2, h1; rewrite !lookup_insert_ne by congruence; apply lookup_insert_eq|].
    split; [apply lookup_insert_eq|]. split; [exact Hperm|].
    split; [reflexivity|]. split; [reflexivity|]. split; [|discriminate].
    intros q Hq1 Hq2. unfold h2, h1. rewrite !lookup_insert_ne by congruence. reflexivity.
Qed.

End Sort_facts.

Lemma SortSubCommands_sorts_once_witness :
  ∃ h' c' names,
    SortSubCommands (merge_sort name_le) app_unsorted 0 = Some h'
    ∧ SortSubCommands (merge_sort name_le) h' 0 = Some h'
    ∧ h' !! 0 = Some c'
    ∧ (∀ q, q ≠ 0 → h' !! q = app_unsorted !! q)
    ∧ Commands c' ≡ₚ [1; 2]
    ∧ (false = true → h' = app_unsorted)
    ∧ (false = false →
       children_names h' 0 = Some (names, true)
       ∧ Sorted (λ a b, lexicographical_compare b a = false) names).
Proof.
  apply (SortSubCommands_sorts_once (merge_sort name_le) app_unsorted 0
           (make_Command "app" [] None None [1; 2] false)).
  - exact merge_sort_is_std_sort.
  - vm_compute. reflexivity.
  - repeat constructor; vm_compute; eauto.
Defined.

Example SortSubCommands_b_a :
  (h' ← SortSubCommands (merge_sort name_le) app_unsorted 0; children_names h' 0)
  = Some (["a"; "b"], true).
Proof. vm_compute. reflexivity. Qed.

(** A byte from 128 up is a negative [char]: a name that starts with one is
    sorted before every name that starts with a letter. *)
Example lexicographical_compare_is_signed :
  lexicographical_compare (String "233" "") "a" = true
  ∧ String.ltb (String "233" "") "a" = false
  ∧ (merge_sort name_le [("z", 1); (String "233" "", 2); ("a", 3)]).*2 = [2; 3; 1].
Proof. repeat split; vm_compute; reflexivity. Qed.

Lemma AddCommand_leaves_unsorted_witness :
  (h1 ← AddCommand (merge_sort name_le) app_b_a 0 1; children_names h1 0)
  = Some (["b"], true)
  ∧ (h1 ← AddCommand (merge_sort name_le) app_b_a 0 1;
     h2 ← AddCommand (merge_sort name_le) h1 0 2; children_names h2 0)
    = Some (["b"; "a"], true)
  ∧ (h1 ← AddCommand (merge_sort name_le) app_b_a 0 1;
     h2 ← AddCommand (merge_sort name_le) h1 0 2;
     h3 ← SortSubCommands (merge_sort name_le) h2 0; children_names h3 0)
    = Some (["b"; "a"], true).
Proof. exact (AddCommand_leaves_unsorted (merge_sort name_le) merge_sort_is_std_sort). Defined.

Lemma AddCommand_links_witness :
  ∃ h' me',
    AddCommand (merge_sort name_le) app_b_a 0 2 = Some h'
    ∧ h' !! 2 = Some (set_Parent (make_Command "a" [] (Some run_ok) None [] false) (Some 0))
    ∧ h' !! 0 = Some me'
    ∧ Commands me' ≡ₚ [] ++ [2]
    ∧ Parent me' = None ∧ Use me' = "app"
    ∧ (∀ q, q ≠ 0 → q ≠ 2 → h' !! q = app_b_a !! q)
    ∧ (false = true → Commands me' = [] ++ [2]).
Proof.
  apply (AddCommand_links (merge_sort name_le) app_b_a 0 2
           (make_Command "app" [] None None [] false)
           (make_Command "a" [] (Some run_ok) None [] false)).
  - exact merge_sort_is_std_sort.
  - vm_compute. reflexivity.
  - vm_compute. reflexivity.
  - discriminate.
  - constructor.
Defined.

Section Resolve_facts.

Context {W : Type}.

Local Abbreviation heap := (gmap ptr (Command W)).

Implicit Types (h : heap).

Lemma HasAlias_In (c : Command W) (name : string) :
  HasAlias c name = true ↔ In name (Aliases c).
Proof.
  unfold HasAlias. rewrite existsb_exists. split.
  - intros (a & Ha & E). apply String.eqb_eq in E. congruence.
  - intros H. exists name. split; [exact H | apply String.eqb_refl].
Qed.

Lemma IsAvailableCommand_true fuel h p :
  IsAvailableCommand fuel h p = Some true →
  ∃ c, h !! p = Some c ∧ Hidden c = false ∧ Deprecated c = "".
Proof.
  destruct fuel; [discriminate|]. cbn [IsAvailableCommand].
  destruct (h !! p) as [c|]; [|discriminate]. cbn [mbind option_bind].
  destruct ((0 <? String.length (Deprecated c)) || Hidden c) eqn:E; [discriminate|].
  intros _. apply orb_false_iff in E as [E1 E2]. exists c.
  split; [reflexivity|]. split; [exact E2|].
  apply Nat.ltb_ge in E1. destruct (Deprecated c); [reflexivity | simpl in E1; lia].
Qed.

Lemma find_subcommand_found fuel h (cmds : list ptr) (arg : string) (cmd : ptr) :
  find_subcommand fuel h cmds arg = Some (Some cmd) →
  cmd ∈ cmds
  ∧ ∃ d, h !! cmd = Some d ∧ (Name d = arg ∨ In arg (Aliases d))
         ∧ Hidden d = false ∧ Deprecated d = "".
Proof.
  induction cmds as [|q l IH]; [discriminate|]. cbn [find_subcommand].
  destruct (IsAvailableCommand fuel h q) as [[]|] eqn:Ha; cbn [mbind option_bind negb];
    [|intros H; destruct (IH H) as [Hin Hd]; split; [right; exact Hin | exact Hd]
     |discriminate].
  destruct (IsAvailableCommand_true _ _ _ Ha) as (d & Hd & Hhid & Hdep).
  rewrite Hd. cbn [mbind option_bind].
  destruct (String.eqb (Name d) arg || HasAlias d arg) eqn:E.
  - intros [= <-]. split; [left|]. exists d. split; [exact Hd|].
    split; [|split; assumption].
    apply orb_true_iff in E as [E|E]; [left; apply String.eqb_eq, E|right; apply HasAlias_In, E].
  - intros H. destruct (IH H) as [Hin Hd']. split; [right; exact Hin | exact Hd'].
Qed.

Lemma find_subcommand_none fuel h (cmds : list ptr) (arg : string) :
  find_subcommand fuel h cmds arg = Some None →
  ∀ child d, child ∈ cmds → h !! child = Some d →
    IsAvailableCommand fuel h child = Some true →
    Name d ≠ arg ∧ ¬ In arg (Aliases d).
Proof.
  induction cmds as [|q l IH]; [intros _ child d Hin; inversion Hin|].
  cbn [find_subcommand].
  destruct (IsAvailableCommand fuel h q) as [[]|] eqn:Ha; cbn [mbind option_bind negb];
    [| |discriminate].
  - destruct (h !! q) as [dq|] eqn:Hq; [|discriminate]. cbn [mbind option_bind].
    destruct (String.eqb (Name dq) arg || HasAlias dq arg) eqn:E; [discriminate|].
    intros H child d Hin Hd Hav. apply elem_of_cons in Hin as [->|Hin]; [|eauto].
    assert (d = dq) as -> by congruence.
    apply orb_false_iff in E as [E1 E2]. split; [apply String.eqb_neq, E1|].
    intros HA. apply HasAlias_In in HA. congruence.
  - intros H child d Hin Hd Hav. apply elem_of_cons in Hin as [->|Hin]; [|eauto].
    congruence.
Qed.

Lemma Execute_resolve_descends fuel h (this tmp : ptr) (args : list string)
    (tmp' : ptr) (rest : list string) :
  Execute_resolve fuel h this tmp args = Some (tmp', rest) →
  ∃ consumed,
    args = consumed ++ rest
    ∧ descends h tmp consumed tmp'
    ∧ ∀ token rest', rest = token :: rest' →
        HasAvailableSubCommands fuel h this = Some false
        ∨ ∃ c, h !! tmp' = Some c
               ∧ ∀ child d, child ∈ Commands c → h !! child = Some d →
                   IsAvailableCommand fuel h child = Some true →
                   Name d ≠ token ∧ ¬ In token (Aliases d).
Proof.
  revert tmp. induction args as [|arg args IH]; intros tmp.
  - intros [= <- <-]. exists []. split; [reflexivity|]. split; [constructor|].
    intros token rest' [=].
  - cbn [Execute_resolve].
    destruct (HasAvailableSubCommands fuel h this) as [[]|] eqn:Hhas;
      cbn [mbind option_bind negb]; [| |discriminate].
    + destruct (h !! tmp) as [c|] eqn:Hc; [|discriminate]. cbn [mbind option_bind].
      destruct (find_subcommand fuel h (Commands c) arg) as [[cmd|]|] eqn:Hfind;
        cbn [mbind option_bind]; [| |discriminate].
      * intros Hrec. destruct (IH _ Hrec) as (consumed & -> & Hdesc & Hstop).
        destruct (find_subcommand_found _ _ _ _ _ Hfind) as (Hin & d & Hd & Hname & Hhid & Hdep).
        exists (arg :: consumed). split; [reflexivity|]. split; [|exact Hstop].
        eapply descends_into; eauto.
      * intros [= <- <-]. exists []. split; [reflexivity|]. split; [constructor|].
        intros token rest' [= <- <-]. right. exists c. split; [exact Hc|].
        exact (find_subcommand_none _ _ _ _ Hfind).
    + intros [= <- <-]. exists []. split; [reflexivity|]. split; [constructor|].
      intros token rest' _. left. reflexivity.
Qed.

Lemma find_subcommand_total fuel m h (cmds : list ptr) (arg : string) :
  Forall (tree_below h m) cmds → m ≤ fuel →
  is_Some (find_subcommand fuel h cmds arg).
Proof.
  intros Hall Hm. induction Hall as [|cmd cmds Hcmd _ IH]; [cbn; eauto|].
  cbn [find_subcommand].
  destruct (IsAvailableCommand_total h m fuel cmd Hcmd Hm) as [available ->].
  cbn [mbind option_bind]. destruct available; cbn [negb]; [|exact IH].
  destruct m as [|m]; [destruct Hcmd|]. destruct Hcmd as (c & -> & _).
  cbn [mbind option_bind]. destruct (String.eqb (Name c) arg || HasAlias c arg); eauto.
Qed.

Lemma Execute_resolve_total fuel n m h (this tmp : ptr) (args : list string) :
  tree_below h n this → n ≤ fuel → tree_below h m tmp → m ≤ fuel →
  is_Some (Execute_resolve fuel h this tmp args).
Proof.
  intros Hthis Hn. revert m tmp.
  induction args as [|arg args IH]; intros m tmp Htmp Hm; [cbn; eauto|].
  cbn [Execute_resolve].
  destruct (HasAvailableSubCommands_total h n fuel this Hthis Hn) as [has ->].
  cbn [mbind option_bind]. destruct has; cbn [negb]; [|eauto].
  destruct m as [|m]; [destruct Htmp|]. destruct Htmp as (c & Hc & Hsub).
  rewrite Hc. cbn [mbind option_bind].
  destruct (find_subcommand_total fuel m h (Commands c) arg Hsub) as [found Hfound];
    [lia|].
  rewrite Hfound. cbn [mbind option_bind]. destruct found as [cmd|]; [|eauto].
  destruct (find_subcommand_found _ _ _ _ _ Hfound) as [Hin _].
  apply (IH m cmd); [|lia].
  rewrite Forall_forall in Hsub. apply Hsub, Hin.
Qed.

(** X21: On a tree of allocated commands the loop of [Execute] that resolves
    the positional tokens returns.  It consumes a prefix of the tokens, one
    token per level, walking down [Commands] from the command it starts at
    through children that have the token as name or alias and are neither
    hidden nor deprecated.  It stops when the tokens are used up, when the
    root has no available child, or at the first token that no available
    child of the command reached has as name or alias. *)
Theorem Execute_resolve_path fuel n m h (this tmp : ptr) (args : list string) :
  tree_below h n this → n ≤ fuel → tree_below h m tmp → m ≤ fuel →
  ∃ consumed tmp' rest,
    Execute_resolve fuel h this tmp args = Some (tmp', rest)
    ∧ args = consumed ++ rest
    ∧ descends h tmp consumed tmp'
    ∧ ∀ token rest', rest = token :: rest' →
        HasAvailableSubCommands fuel h this = Some false
        ∨ ∃ c, h !! tmp' = Some c
               ∧ ∀ child d, child ∈ Commands c → h !! child = Some d →
                   IsAvailableCommand fuel h child = Some true →
                   Name d ≠ token ∧ ¬ In token (Aliases d).
Proof.
  intros Hthis Hn Htmp Hm.
  destruct (Execute_resolve_total fuel n m h this tmp args Hthis Hn Htmp Hm)
    as [[tmp' rest] Hrun].
  destruct (Execute_resolve_descends fuel h this tmp args tmp' rest Hrun)
    as (consumed & Hargs & Hdesc & Hstop).
  exists consumed, tmp', rest. auto.
Qed.

End Resolve_facts.

Lemma Execute_resolve_path_witness :
  ∃ consumed tmp' rest,
    Execute_resolve 2 root_with_help 0 0 ["help"; "me"] = Some (tmp', rest)
    ∧ ["help"; "me"] = consumed ++ rest
    ∧ descends root_with_help 0 consumed tmp'
    ∧ ∀ token rest', rest = token :: rest' →
        HasAvailableSubCommands 2 root_with_help 0 = Some false
        ∨ ∃ c, root_with_help !! tmp' = Some c
               ∧ ∀ child d, child ∈ Commands c → root_with_help !! child = Some d →
                   IsAvailableCommand 2 root_with_help child = Some true →
                   Name d ≠ token ∧ ¬ In token (Aliases d).
Proof.
  apply (Execute_resolve_path 2 2 2 root_with_help 0 0 ["help"; "me"]).
  - exact root_with_help_tree.
  - lia.
  - exact root_with_help_tree.
  - lia.
Defined.

Example Execute_resolve_help_me :
  Execute_resolve 2 root_with_help 0 0 ["help"; "me"] = Some (1, ["me"]).
Proof. vm_compute. reflexivity. Qed.

Section Same_tree_facts.

Context {W : Type}.

Local Abbreviation heap := (gmap ptr (Command W)).

Implicit Types (h : heap).

Lemma same_tree_refl h : same_tree h h.
Proof. intros p. reflexivity. Qed.


Lemma same_tree_insert h this (me : Command W) (F : Flags W) :
  h !! this = Some me → same_tree h (<[this := set_PersistentFlags me F]> h).
Proof.
  intros Hme p. destruct (decide (p = this)) as [->|Hne].
  - rewrite lookup_insert_eq, Hme. reflexivity.
  - rewrite lookup_insert_ne by congruence. reflexivity.
Qed.

Lemma same_tree_lookup h h' p (c : Command W) :
  same_tree h h' → h !! p = Some c →
  ∃ c', h' !! p = Some c' ∧ without_persistent c' = without_persistent c.
Proof.
  intros Hsame Hc. specialize (Hsame p). rewrite Hc in Hsame.
  destruct (h' !! p) as [c'|]; [|discriminate].
  change (Some (without_persistent c') = Some (without_persistent c)) in Hsame.
  exists c'. split; [reflexivity|].
  set (a := without_persistent c') in *. set (b := without_persistent c) in *.
  congruence.
Qed.

Lemma same_tree_lookup_None h h' p :
  same_tree h h' → h !! p = None → h' !! p = None.
Proof.
  intros Hsame Hc. specialize (Hsame p). rewrite Hc in Hsame.
  destruct (h' !! p); [discriminate | reflexivity].
Qed.

Lemma MergePersistentFlags_shape fuel h this h' :
  MergePersistentFlags fuel h this = Some h' →
  ∃ me F', h !! this = Some me ∧ h' = <[this := set_PersistentFlags me F']> h.
Proof.
  intros Hrun. destruct (h !! this) as [me|] eqn:Hme.
  - rewrite (MergePersistentFlags_registry _ _ _ _ Hme) in Hrun.
    destruct (rmerge_registry fuel h this me (PersistentFlags me) this) as [F'|];
      [|discriminate].
    injection Hrun as <-. eauto.
  - unfold MergePersistentFlags in Hrun. destruct fuel; [discriminate|].
    cbn [MergePersistentFlags_rmerge] in Hrun. rewrite Hme in Hrun. discriminate.
Qed.

Lemma MergePersistentFlags_same_tree fuel h this h' :
  MergePersistentFlags fuel h this = Some h' → same_tree h h'.
Proof.
  intros Hrun. destruct (MergePersistentFlags_shape _ _ _ _ Hrun) as (me & F' & Hme & ->).
  apply same_tree_insert, Hme.
Qed.

Lemma FullFlags_same_tree fuel h this h' (F : Flags W) :
  FullFlags fuel h this = Some (h', F) → same_tree h h'.
Proof.
  unfold FullFlags. destruct (MergePersistentFlags fuel h this) as [h1|] eqn:E; [|discriminate].
  cbn [mbind option_bind]. destruct (h1 !! this); [|discriminate].
  intros [= <- _]. exact (MergePersistentFlags_same_tree _ _ _ _ E).
Qed.






(** X23: [Execute] on any command of a tree does what [Execute] on the root of
    that tree does. *)
Theorem Execute_starts_at_root (uninit : ptr → Z) fuel h start root args (w : W) :
  Root fuel h start = Some root →
  Execute uninit fuel h start args w = Execute uninit fuel h root args w.
Proof.
  intros Hroot. rewrite (Execute_from_anywhere _ _ _ _ _ _ _ Hroot).
  destruct (Root_has_no_parent _ _ _ _ Hroot) as (_ & c & Hc & Hp).
  unfold Execute. rewrite Hc. cbn [mbind option_bind]. rewrite Hp. reflexivity.
Qed.

End Same_tree_facts.


Lemma Execute_starts_at_root_witness :
  Execute (λ _, 0%Z) 3 chain_abc 2 ["b"; "c"; "x"] false
  = Execute (λ _, 0%Z) 3 chain_abc 0 ["b"; "c"; "x"] false.
Proof. apply Execute_starts_at_root. vm_compute. reflexivity. Defined.

Example Execute_chain_abc :
  (λ r, (status r, output r, invoked r))
    <$> Execute (λ _, 0%Z) 3 chain_abc 2 ["b"; "c"; "x"] false
  = Some (inl 0%Z, [], [(2, hook_Run)]).
Proof. vm_compute. reflexivity. Qed.

Section Dispatch_facts.

Context {W : Type}.

Local Abbreviation heap := (gmap ptr (Command W)).

Implicit Types (h : heap).

Lemma without_persistent_fields (c c' : Command W) :
  without_persistent c' = without_persistent c →
  Parent c' = Parent c ∧ Commands c' = Commands c ∧ Run c' = Run c
  ∧ Deprecated c' = Deprecated c ∧ Hidden c' = Hidden c ∧ Use c' = Use c
  ∧ LocalFlags c' = LocalFlags c.
Proof. unfold without_persistent, set_PersistentFlags. intros [=]. auto 10. Qed.

Lemma lineage_same_tree fuel h h' p :
  same_tree h h' → is_Some (lineage fuel h p) → is_Some (lineage fuel h' p).
Proof.
  intros Hsame. revert p. induction fuel as [|fuel IH]; intros p; [intros [? [=]]|].
  cbn [lineage]. destruct (h !! p) as [c|] eqn:Hc; [|intros [? [=]]].
  destruct (same_tree_lookup _ _ _ _ Hsame Hc) as (c' & -> & Hcc).
  destruct (without_persistent_fields _ _ Hcc) as (HP & _).
  cbn [mbind option_bind]. rewrite HP. destruct (Parent c) as [parent|]; [|eauto].
  intros [l Hl]. destruct (lineage fuel h parent) as [l0|] eqn:E; [|discriminate].
  destruct (IH parent) as [l' ->]; [rewrite E; eauto|]. cbn. eauto.
Qed.

Lemma tree_below_same_tree h h' n p :
  same_tree h h' → tree_below h n p → tree_below h' n p.
Proof.
  intros Hsame. revert p. induction n as [|n IH]; intros p; [intros []|].
  intros (c & Hc & Hsub).
  destruct (same_tree_lookup _ _ _ _ Hsame Hc) as (c' & Hc' & Hcc).
  destruct (without_persistent_fields _ _ Hcc) as (_ & HC & _).
  exists c'. split; [exact Hc'|]. rewrite HC.
  eapply Forall_impl; [exact Hsub | exact IH].
Qed.

Lemma FullFlags_total fuel h p :
  is_Some (lineage fuel h p) → is_Some (FullFlags fuel h p).
Proof.
  intros [cs Hcs].
  destruct (MergePersistentFlags_lineage _ _ _ _ Hcs) as (me & rest & _ & _ & Hrun).
  unfold FullFlags. rewrite Hrun. cbn [mbind option_bind].
  rewrite lookup_insert_eq. eauto.
Qed.

Lemma CommandPath_total fuel h p :
  is_Some (lineage fuel h p) → is_Some (CommandPath fuel h p).
Proof.
  intros [cs Hcs]. destruct (lineage_head _ _ _ _ Hcs) as (c & rest & -> & Hc).
  unfold CommandPath. rewrite Hc. cbn [mbind option_bind].
  rewrite (CommandPath_loop_lineage _ _ _ _ c rest Hcs). eauto.
Qed.

Lemma InheritedFlags_total fuel h p :
  is_Some (lineage fuel h p) → is_Some (InheritedFlags fuel h p).
Proof.
  intros [cs Hcs]. destruct fuel as [|fuel]; [discriminate|].
  unfold InheritedFlags. cbn [lineage] in Hcs.
  destruct (h !! p) as [c|]; [|discriminate]. cbn [mbind option_bind] in *.
  destruct (Parent c) as [parent|]; [|eauto].
  destruct (lineage fuel h parent) as [l|] eqn:E; [|discriminate].
  rewrite (InheritedFlags_rmerge_lineage (S fuel) h _ parent l); [eauto|].
  apply (lineage_mono fuel); [lia | exact E].
Qed.

Lemma Usage_total fuel n h p :
  is_Some (lineage fuel h p) → tree_below h n p → n ≤ fuel →
  is_Some (Usage fuel h p).
Proof.
  intros Hlin Htree Hfuel.
  assert (Hrest : ∀ h', same_tree h h' →
            is_Some (_ ← HasAvailableSubCommands fuel h' p;
                     _ ← CommandPath fuel h' p;
                     _ ← InheritedFlags fuel h' p; Some h')).
  { intros h' Hsame.
    destruct (HasAvailableSubCommands_total h' n fuel p
                (tree_below_same_tree _ _ _ _ Hsame Htree) Hfuel) as [? ->].
    pose proof (lineage_same_tree _ _ _ _ Hsame Hlin) as Hlin'.
    destruct (CommandPath_total _ _ _ Hlin') as [? ->].
    destruct (InheritedFlags_total _ _ _ Hlin') as [? ->]. cbn. eauto. }
  unfold Usage. destruct Hlin as [cs Hcs].
  destruct (lineage_head _ _ _ _ Hcs) as (c & rest & -> & Hc). rewrite Hc.
  cbn [mbind option_bind]. destruct (IsRunnable c).
  - unfold HasAvailableFlags.
    destruct (FullFlags_total fuel h p) as [[h1 F] HF]; [eauto|]. rewrite HF.
    cbn [mbind option_bind fmap option_fmap option_map fst].
    apply Hrest. exact (FullFlags_same_tree _ _ _ _ _ HF).
  - cbn [mbind option_bind]. apply Hrest, same_tree_refl.
Qed.

Lemma Usage_not_runnable fuel n h p (c : Command W) :
  h !! p = Some c → Run c = None →
  is_Some (lineage fuel h p) → tree_below h n p → n ≤ fuel →
  Usage fuel h p = Some h.
Proof.
  intros Hc Hrun Hlin Htree Hfuel. unfold Usage. rewrite Hc. cbn [mbind option_bind].
  unfold IsRunnable. rewrite Hrun.
  rewrite bool_decide_eq_false_2 by (intros [? [=]]). cbn [mbind option_bind].
  destruct (HasAvailableSubCommands_total h n fuel p Htree Hfuel) as [? ->].
  destruct (CommandPath_total _ _ _ Hlin) as [? ->].
  destruct (InheritedFlags_total _ _ _ Hlin) as [? ->]. reflexivity.
Qed.

Lemma FullFlags_ContinueOnError fuel h p h' (F : Flags W) (c : Command W) :
  h !! p = Some c → FullFlags fuel h p = Some (h', F) →
  ContinueOnError F = ContinueOnError (LocalFlags c).
Proof.
  intros Hc. unfold FullFlags.
  destruct (MergePersistentFlags fuel h p) as [h1|] eqn:E; [|discriminate].
  destruct (MergePersistentFlags_shape _ _ _ _ E) as (me & F' & Hme & ->).
  cbn [mbind option_bind]. rewrite lookup_insert_eq.
  intros [= _ <-]. assert (me = c) as -> by congruence.
  destruct (merge_flags_prefix (LocalFlags (set_PersistentFlags c F'))
              (flags (PersistentFlags (set_PersistentFlags c F')))) as (? & _ & _ & H).
  exact H.
Qed.

(** X24: A resolved command without [Run] hook: [Execute] shows its usage and
    returns 0; no hook is called and neither the commands nor the storage
    change, whatever the flag map holds. *)
Theorem Execute_dispatch_not_runnable fuel n h tmp args flags (w : W)
    (c : Command W) cs :
  h !! tmp = Some c → Run c = None →
  lineage fuel h tmp = Some cs → tree_below h n tmp → n ≤ fuel →
  Execute_dispatch fuel h tmp args flags w
  = Some {| status := inl 0%Z; final_heap := h; final_world := w;
            output := [usage_of tmp]; invoked := [] |}.
Proof.
  intros Hc Hrun Hlin Htree Hfuel. unfold Execute_dispatch.
  rewrite Hc. cbn [mbind option_bind]. rewrite Hrun.
  rewrite (Usage_not_runnable fuel n h tmp c) by eauto. reflexivity.
Qed.

(** X25: A runnable resolved command whose flags fail to parse: when
    [ContinueOnError] of its local registry is not set, [Execute] shows the
    usage and returns -1 without calling [Run]; when it is set, [Run] is
    called all the same.  Either way the storage is as the parse left it:
    setters that ran before the failure keep their effect. *)
Theorem Execute_dispatch_parse_failure fuel n h tmp args flags (w w1 : W)
    (c : Command W) (run : HookType W) cs h1 full (e : Exception) :
  h !! tmp = Some c → Run c = Some run →
  lineage fuel h tmp = Some cs → tree_below h n tmp → n ≤ fuel →
  FullFlags fuel h tmp = Some (h1, full) →
  Parse full flags w = (inr e, w1) →
  ∃ h2,
    FullFlags fuel h1 tmp = Some (h2, full)
    ∧ if ContinueOnError (LocalFlags c)
      then Execute_dispatch fuel h tmp args flags w
           = Execute_run fuel h2 tmp run args [] w1
      else ∃ h3,
           Execute_dispatch fuel h tmp args flags w
           = Some {| status := inl (-1)%Z; final_heap := h3; final_world := w1;
                     output := [usage_of tmp]; invoked := [] |}.
Proof.
  intros Hc Hrun Hlin Htree Hfuel Hfull Hparse.
  pose proof (FullFlags_same_tree _ _ _ _ _ Hfull) as Hsame1.
  assert (Hlin1 : is_Some (lineage fuel h1 tmp))
    by (apply (lineage_same_tree fuel h); eauto).
  destruct (FullFlags_total _ _ _ Hlin1) as [[h2 full'] Hfull'].
  assert (full' = full) as ->.
  { unfold FullFlags in Hfull, Hfull'.
    destruct (MergePersistentFlags fuel h tmp) as [ha|] eqn:Ea; [|discriminate].
    destruct (MergePersistentFlags_shape _ _ _ _ Ea) as (me & F' & Hme & ->).
    cbn [mbind option_bind] in Hfull. rewrite lookup_insert_eq in Hfull.
    injection Hfull as <- <-.
    assert (Hb : MergePersistentFlags fuel (<[tmp := set_PersistentFlags me F']> h) tmp
                 = Some (<[tmp := set_PersistentFlags me F']> h)).
    { destruct (rmerge_registry fuel h tmp me (PersistentFlags me) tmp) as [F''|] eqn:EF.
      - rewrite (MergePersistentFlags_registry _ _ _ _ Hme), EF in Ea.
        injection Ea as Ea.
        assert (F'' = F') as ->.
        { apply (f_equal (λ m, m !! tmp)) in Ea. rewrite !lookup_insert_eq in Ea.
          injection Ea as Ea. exact Ea. }
        unfold MergePersistentFlags. rewrite rmerge_registry_spec.
        rewrite (rmerge_registry_fixed _ _ _ _ _ _ _ F' EF (extends_refl F')).
        reflexivity.
      - rewrite (MergePersistentFlags_registry _ _ _ _ Hme), EF in Ea. discriminate. }
    rewrite Hb in Hfull'. cbn [mbind option_bind] in Hfull'.
    rewrite lookup_insert_eq in Hfull'. injection Hfull' as _ <-. reflexivity. }
  exists h2. split; [exact Hfull'|].
  pose proof (FullFlags_ContinueOnError _ _ _ _ _ _ Hc Hfull) as Hcoe.
  unfold Execute_dispatch. rewrite Hc. cbn [mbind option_bind].
  rewrite Hrun, Hfull. cbn [mbind option_bind]. rewrite Hparse, Hfull'.
  cbn [mbind option_bind]. rewrite Hcoe.
  destruct (ContinueOnError (LocalFlags c)); cbn [negb]; [reflexivity|].
  pose proof (FullFlags_same_tree _ _ _ _ _ Hfull') as Hsame2.
  destruct (Usage_total fuel n h2 tmp) as [h3 Hh3]; [| |exact Hfuel|].
  - apply (lineage_same_tree fuel h1); assumption.
  - eapply tree_below_same_tree; [exact Hsame2|].
    eapply tree_below_same_tree; [exact Hsame1 | exact Htree].
  - exists h3. rewrite Hh3. reflexivity.
Qed.

(** X26: A runnable resolved command whose flags parse: [Run] is called once,
    with the remaining positional tokens, on the storage as the setters
    left it.  The value [Run] returns is the status; a
    [NotRunnableException] from [Run] gives the usage and status 0; any
    other exception leaves [Execute]. *)
Theorem Execute_dispatch_runs fuel n h tmp args flags (w w1 : W)
    (c : Command W) (run : HookType W) cs h1 full :
  h !! tmp = Some c → Run c = Some run →
  lineage fuel h tmp = Some cs → tree_below h n tmp → n ≤ fuel →
  FullFlags fuel h tmp = Some (h1, full) →
  Parse full flags w = (inl (), w1) →
  ∃ r,
    Execute_dispatch fuel h tmp args flags w = Some r
    ∧ invoked r = [(tmp, hook_Run)]
    ∧ final_world r = (run args w1).2
    ∧ match (run args w1).1 with
      | inl v => status r = inl v ∧ output r = [] ∧ final_heap r = h1
      | inr (NotRunnableException _) => status r = inl 0%Z ∧ output r = [usage_of tmp]
      | inr e => status r = inr e ∧ output r = [] ∧ final_heap r = h1
      end.
Proof.
  intros Hc Hrun Hlin Htree Hfuel Hfull Hparse.
  pose proof (FullFlags_same_tree _ _ _ _ _ Hfull) as Hsame1.
  unfold Execute_dispatch. rewrite Hc. cbn [mbind option_bind].
  rewrite Hrun, Hfull. cbn [mbind option_bind]. rewrite Hparse.
  unfold Execute_run. destruct (run args w1) as [[v|e] w2]; cbn [fst snd].
  - eexists. split; [reflexivity|]. cbn. auto.
  - destruct (Usage_total fuel n h1 tmp) as [h2 Hh2]; [| |exact Hfuel|].
    + apply (lineage_same_tree fuel h); eauto.
    + eapply tree_below_same_tree; [exact Hsame1 | exact Htree].
    + destruct e; try (eexists; split; [reflexivity|]; cbn; auto).
      rewrite Hh2. eexists. split; [reflexivity|]. cbn. auto.
Qed.

End Dispatch_facts.

Section Execute_dispatch_link.

Context {W : Type}.

(** X27: Unless the resolution ends at the root with a token left over while the
    root has an available child, [Execute] goes on with the command the
    resolution reached, the positional tokens it did not consume and the
    flag map [StripFlags] built. *)
Theorem Execute_dispatches (uninit : ptr → Z) (fuel n : nat)
    (h : gmap ptr (Command W)) (start root tmp : ptr)
    (args rest : list string) (w : W) :
  Root fuel h start = Some root →
  tree_below h n root → n ≤ fuel →
  Execute_resolve fuel h root root (keep_positionals args) = Some (tmp, rest) →
  tmp ≠ root ∨ rest = [] ∨ HasAvailableSubCommands fuel h root = Some false →
  Execute uninit fuel h start args w
  = Execute_dispatch fuel h tmp rest (collect_flags args ∅) w.
Proof.
  intros Hroot Htree Hfuel Hres Hcase.
  rewrite (Execute_from_anywhere _ _ _ _ _ _ _ Hroot).
  destruct (Root_has_no_parent _ _ _ _ Hroot) as (Hpos & c & Hc & Hp).
  unfold Execute_root. rewrite (Root_of_root fuel h root c Hc Hp Hpos).
  cbn [mbind option_bind]. unfold StripFlags.
  rewrite (StripFlags_loop_spec (length args) [] args (Some ∅)) by lia.
  cbn [mbind option_bind app fmap option_fmap option_map default]. rewrite Hres.
  cbn [mbind option_bind].
  destruct (decide (tmp = root)) as [->|Hne].
  - rewrite bool_decide_eq_true_2 by reflexivity.
    destruct (HasAvailableSubCommands_total h n fuel root Htree Hfuel) as [has Hhas].
    rewrite Hhas. cbn [mbind option_bind].
    assert (has && (0 <? length rest) = false) as ->.
    { destruct Hcase as [Hcase|[->|Hcase]]; [contradiction| |].
      - apply andb_false_r.
      - rewrite Hhas in Hcase. injection Hcase as ->. reflexivity. }
    reflexivity.
  - rewrite bool_decide_eq_false_2 by exact Hne. reflexivity.
Qed.

End Execute_dispatch_link.

Lemma chain_abc_tree : tree_below chain_abc 3 0.
Proof.
  eexists. split; [vm_compute; reflexivity|]. constructor; [|constructor].
  eexists. split; [vm_compute; reflexivity|]. constructor; [|constructor].
  eexists. split; [vm_compute; reflexivity|]. constructor.
Defined.

Lemma Execute_dispatches_witness :
  Execute (λ _, 0%Z) 3 chain_abc 2 ["b"; "c"; "-v"; "x"] false
  = Execute_dispatch 3 chain_abc 2 ["x"] (collect_flags ["b"; "c"; "-v"; "x"] ∅) false.
Proof.
  apply (Execute_dispatches (λ _, 0%Z) 3 3 chain_abc 2 0 2).
  - vm_compute. reflexivity.
  - exact chain_abc_tree.
  - lia.
  - vm_compute. reflexivity.
  - left. discriminate.
Defined.

Example Execute_sets_verbose :
  (λ r, (status r, final_world r, invoked r))
    <$> Execute (λ _, 0%Z) 3 chain_abc 2 ["b"; "c"; "-v"; "x"] false
  = Some (inl 0%Z, true, [(2, hook_Run)]).
Proof. vm_compute. reflexivity. Qed.

Lemma Execute_dispatch_not_runnable_witness :
  Execute_dispatch 3 chain_abc 0 [] ∅ false
  = Some {| status := inl 0%Z; final_heap := chain_abc; final_world := false;
            output := [usage_of 0]; invoked := [] |}.
Proof.
  apply (Execute_dispatch_not_runnable 3 3 chain_abc 0 [] ∅ false
           (make_Command "a" [verbose_flag] None None [1] true)
           [make_Command "a" [verbose_flag] None None [1] true]).
  - vm_compute. reflexivity.
  - reflexivity.
  - vm_compute. reflexivity.
  - exact chain_abc_tree.
  - lia.
Defined.

Lemma root_with_help_lineage :
  lineage 2 root_with_help 1
  = Some [make_Command "help [command]" [] (Some run_ok) (Some 0) [] true;
          make_Command "app" [] None None [1] true].
Proof. vm_compute. reflexivity. Defined.

Lemma root_with_help_tree_1 : tree_below root_with_help 2 1.
Proof. eexists. split; [vm_compute; reflexivity|]. constructor. Defined.

Lemma root_with_help_FullFlags :
  FullFlags 2 root_with_help 1
  = Some (<[1 := make_Command "help [command]" [] (Some run_ok) (Some 0) [] true]>
            root_with_help,
          {| flags := []; ContinueOnError := false |}).
Proof. vm_compute. reflexivity. Defined.

Lemma Execute_dispatch_parse_failure_witness :
  ∃ h2,
    FullFlags 2 (<[1 := make_Command "help [command]" [] (Some run_ok) (Some 0) [] true]>
                   root_with_help) 1
    = Some (h2, {| flags := []; ContinueOnError := false |})
    ∧ ∃ h3,
        Execute_dispatch 2 root_with_help 1 ["x"] {["--loud" := "true"]} false
        = Some {| status := inl (-1)%Z; final_heap := h3; final_world := false;
                  output := [usage_of 1]; invoked := [] |}.
Proof.
  apply (Execute_dispatch_parse_failure 2 2 root_with_help 1 ["x"] {["--loud" := "true"]}
           false false _ run_ok _ _ _ (UnknownFlagException "Unknown flag: loud")
           eq_refl eq_refl root_with_help_lineage root_with_help_tree_1 (le_n 2)
           root_with_help_FullFlags).
  vm_compute. reflexivity.
Defined.

Lemma Execute_dispatch_runs_witness :
  ∃ r,
    Execute_dispatch 2 root_with_help 1 ["x"] ∅ false = Some r
    ∧ invoked r = [(1, hook_Run)]
    ∧ final_world r = false
    ∧ status r = inl 0%Z ∧ output r = []
    ∧ final_heap r
      = <[1 := make_Command "help [command]" [] (Some run_ok) (Some 0) [] true]>
          root_with_help.
Proof.
  apply (Execute_dispatch_runs 2 2 root_with_help 1 ["x"] ∅ false false _ run_ok _ _ _
           eq_refl eq_refl root_with_help_lineage root_with_help_tree_1 (le_n 2)
           root_with_help_FullFlags).
  vm_compute. reflexivity.
Defined.

Section Parse_order.

Context {W : Type}.

Lemma key_le_total : Total key_le.
Proof.
  intros a b. unfold key_le, String.leb.
  rewrite (String.compare_antisym a.1 b.1).
  destruct (b.1 ?= a.1)%string; cbn; auto.
Qed.

Lemma map_entries_two (k1 k2 v1 v2 : string) :
  String.leb k2 k1 = false →
  map_entries (<[k1 := v1]> (<[k2 := v2]> ∅)) = [(k1, v1); (k2, v2)].
Proof.
  intros Hlt.
  assert (Hne : k1 ≠ k2).
  { intros ->. unfold String.leb in Hlt.
    assert (E : (k2 ?= k2)%string = Eq).
    { pose proof (String.compare_antisym k2 k2) as H.
      destruct (k2 ?= k2)%string; cbn in H; congruence. }
    rewrite E in Hlt. discriminate. }
  unfold map_entries.
  assert (Hperm : [(k1, v1); (k2, v2)]
                  ≡ₚ merge_sort key_le (map_to_list (<[k1 := v1]> (<[k2 := v2]> ∅)))).
  { rewrite merge_sort_Permutation.
    rewrite map_to_list_insert by (rewrite lookup_insert_ne by congruence; apply lookup_empty).
    rewrite insert_empty, map_to_list_singleton. reflexivity. }
  assert (Hsorted : Sorted key_le
            (merge_sort key_le (map_to_list (<[k1 := v1]> (<[k2 := v2]> ∅))))).
  { apply Sorted_merge_sort. apply key_le_total. }
  apply Permutation_length_2_inv in Hperm as [->| Hrev]; [reflexivity|].
  rewrite Hrev in Hsorted. inversion Hsorted as [|? ? _ Hhd]; subst.
  inversion Hhd as [|? ? Hle]; subst. unfold key_le in Hle. cbn in Hle.
  rewrite Hlt in Hle. destruct Hle.
Qed.

(** X28: [Parse] goes through the map in key order, not in the order of the
    command line.  A key with two dashes sorts before a key with one dash
    followed by a character above '-' (any letter or digit): when both forms
    are given the long one is handled first and the short one last, and
    nothing is done for the short one if the long one throws. *)
Theorem Parse_long_before_short (F : Flags W) (long short' v1 v2 : string)
    (c : ascii) (w : W) :
  Ascii.ltb "-" c = true →
  Parse F (<["--" +:+ long := v1]> (<["-" +:+ String c short' := v2]> ∅)) w
  = match Parse_entry F ("--" +:+ long, v1) w with
    | (inl _, w') =>
        match Parse_entry F ("-" +:+ String c short', v2) w' with
        | (inl _, w'') => (inl (), w'')
        | (inr e, w'') => (inr e, w'')
        end
    | (inr e, w') => (inr e, w')
    end
  ∧ Parse F (<["-" +:+ String c short' := v2]> (<["--" +:+ long := v1]> ∅)) w
    = Parse F (<["--" +:+ long := v1]> (<["-" +:+ String c short' := v2]> ∅)) w.
Proof.
  intros Hc.
  assert (Hlt : String.leb ("-" +:+ String c short') ("--" +:+ long) = false).
  { change ("-" +:+ String c short') with (String "-" (String c short')).
    change ("--" +:+ long) with (String "-" (String "-" long)).
    unfold String.leb. cbn [String.compare].
    change ("-" ?= "-")%char with Eq. cbv iota.
    unfold Ascii.ltb in Hc. rewrite (Ascii.compare_antisym c "-").
    destruct ("-" ?= c)%char; try discriminate. reflexivity. }
  assert (Hne : "--" +:+ long ≠ "-" +:+ String c short').
  { change ("-" +:+ String c short') with (String "-" (String c short')).
    change ("--" +:+ long) with (String "-" (String "-" long)).
    intros [= E _]. subst c. discriminate Hc. }
  split.
  - unfold Parse. rewrite (map_entries_two _ _ _ _ Hlt). cbn [foldr].
    unfold mbind, Throwing_bind, mret, Throwing_ret.
    destruct (Parse_entry F ("--" +:+ long, v1) w) as [[[]|e] w']; [|reflexivity].
    destruct (Parse_entry F ("-" +:+ String c short', v2) w') as [[[]|e] w'']; reflexivity.
  - f_equal. apply insert_insert_ne. congruence.
Qed.

End Parse_order.

Lemma Parse_long_before_short_witness :
  Parse count_flags (<["--" +:+ "count" := "10"]> (<["-" +:+ String "c" "" := "7"]> ∅)) 0%Z
  = match Parse_entry count_flags ("--" +:+ "count", "10") 0%Z with
    | (inl _, w') =>
        match Parse_entry count_flags ("-" +:+ String "c" "", "7") w' with
        | (inl _, w'') => (inl (), w'')
        | (inr e, w'') => (inr e, w'')
        end
    | (inr e, w') => (inr e, w')
    end
  ∧ Parse count_flags (<["-" +:+ String "c" "" := "7"]> (<["--" +:+ "count" := "10"]> ∅)) 0%Z
    = Parse count_flags (<["--" +:+ "count" := "10"]> (<["-" +:+ String "c" "" := "7"]> ∅)) 0%Z.
Proof. apply (Parse_long_before_short count_flags "count" "" "10" "7" "c" 0%Z). reflexivity. Defined.

Example Parse_short_form_stays :
  Parse count_flags (<["-c" := "7"]> (<["--count" := "10"]> ∅)) 0%Z = (inl (), 7%Z).
Proof. vm_compute. reflexivity. Qed.

Section Usage_text_facts.

Context {W : Type}.

Local Abbreviation heap := (gmap ptr (Command W)).

Implicit Types (h : heap).

Lemma without_persistent_texts (c c' : Command W) :
  without_persistent c' = without_persistent c →
  Short c' = Short c ∧ Aliases c' = Aliases c ∧ Example c' = Example c
  ∧ Name c' = Name c.
Proof.
  intros H. repeat split.
  - exact (f_equal Short H).
  - exact (f_equal Aliases H).
  - exact (f_equal Example H).
  - unfold Name. change (Use c') with (Use (without_persistent c')).
    rewrite H. reflexivity.
Qed.

Lemma any_available_ext (f g : ptr → option bool) (l : list ptr) :
  (∀ x, f x = g x) → any_available f l = any_available g l.
Proof.
  intros Hfg. induction l as [|x l IH]; [reflexivity|].
  cbn [any_available]. rewrite Hfg, IH. reflexivity.
Qed.

Lemma IsAvailableCommand_same_tree fuel h h' p :
  same_tree h h' → IsAvailableCommand fuel h' p = IsAvailableCommand fuel h p.
Proof.
  intros Hsame. revert p. induction fuel as [|fuel IH]; intros p; [reflexivity|].
  cbn [IsAvailableCommand]. destruct (h !! p) as [c|] eqn:Hc.
  - destruct (same_tree_lookup _ _ _ _ Hsame Hc) as (c' & -> & Hcc).
    destruct (without_persistent_fields _ _ Hcc) as (_ & HC & HR & HD & HH & _).
    cbn [mbind option_bind]. unfold IsRunnable. rewrite HC, HR, HD, HH.
    rewrite (any_available_ext _ _ (Commands c) IH). reflexivity.
  - rewrite (same_tree_lookup_None _ _ _ Hsame Hc). reflexivity.
Qed.

Lemma HasAvailableSubCommands_same_tree fuel h h' p :
  same_tree h h' →
  HasAvailableSubCommands fuel h' p = HasAvailableSubCommands fuel h p.
Proof.
  intros Hsame. unfold HasAvailableSubCommands. destruct (h !! p) as [c|] eqn:Hc.
  - destruct (same_tree_lookup _ _ _ _ Hsame Hc) as (c' & -> & Hcc).
    destruct (without_persistent_fields _ _ Hcc) as (_ & HC & _).
    cbn [mbind option_bind]. rewrite HC.
    apply any_available_ext. intros x. apply IsAvailableCommand_same_tree, Hsame.
  - rewrite (same_tree_lookup_None _ _ _ Hsame Hc). reflexivity.
Qed.

Lemma CommandPath_loop_same_tree fuel h h' x (path : string) :
  same_tree h h' → CommandPath_loop fuel h' x path = CommandPath_loop fuel h x path.
Proof.
  intros Hsame. revert x path. induction fuel as [|fuel IH]; intros x path; [reflexivity|].
  cbn [CommandPath_loop]. destruct (h !! x) as [c|] eqn:Hc.
  - destruct (same_tree_lookup _ _ _ _ Hsame Hc) as (c' & -> & Hcc).
    destruct (without_persistent_fields _ _ Hcc) as (HP & _).
    cbn [mbind option_bind]. rewrite HP. destruct (Parent c) as [parent|]; [|reflexivity].
    destruct (h !! parent) as [d|] eqn:Hd.
    + destruct (same_tree_lookup _ _ _ _ Hsame Hd) as (d' & -> & Hdd).
      destruct (without_persistent_texts _ _ Hdd) as (_ & _ & _ & HN).
      cbn [mbind option_bind]. rewrite HN. apply IH.
    + rewrite (same_tree_lookup_None _ _ _ Hsame Hd). reflexivity.
  - rewrite (same_tree_lookup_None _ _ _ Hsame Hc). reflexivity.
Qed.

Lemma CommandPath_same_tree fuel h h' p :
  same_tree h h' → CommandPath fuel h' p = CommandPath fuel h p.
Proof.
  intros Hsame. unfold CommandPath. destruct (h !! p) as [c|] eqn:Hc.
  - destruct (same_tree_lookup _ _ _ _ Hsame Hc) as (c' & -> & Hcc).
    destruct (without_persistent_texts _ _ Hcc) as (_ & _ & _ & HN).
    cbn [mbind option_bind]. rewrite HN. apply CommandPath_loop_same_tree, Hsame.
  - rewrite (same_tree_lookup_None _ _ _ Hsame Hc). reflexivity.
Qed.

Lemma UseLine_same_tree fuel h h' p :
  same_tree h h' → UseLine fuel h' p = UseLine fuel h p.
Proof.
  intros Hsame. unfold UseLine. destruct (h !! p) as [c|] eqn:Hc.
  - destruct (same_tree_lookup _ _ _ _ Hsame Hc) as (c' & -> & Hcc).
    destruct (without_persistent_fields _ _ Hcc) as (HP & _ & _ & _ & _ & HU & _).
    cbn [mbind option_bind]. rewrite HP, HU.
    destruct (Parent c) as [parent|]; [|reflexivity].
    rewrite (CommandPath_same_tree _ _ _ parent Hsame). reflexivity.
  - rewrite (same_tree_lookup_None _ _ _ Hsame Hc). reflexivity.
Qed.

Lemma UseLine_total fuel h p :
  is_Some (lineage fuel h p) → is_Some (UseLine fuel h p).
Proof.
  intros [cs Hcs]. destruct fuel as [|fuel]; [discriminate|].
  unfold UseLine. cbn [lineage] in Hcs.
  destruct (h !! p) as [c|]; [|discriminate]. cbn [mbind option_bind] in *.
  destruct (Parent c) as [parent|]; [|eauto].
  destruct (lineage fuel h parent) as [l|] eqn:E; [|discriminate].
  destruct (CommandPath_total (S fuel) h parent) as [path ->]; [|cbn; eauto].
  exists l. apply (lineage_mono fuel); [lia | exact E].
Qed.

Lemma indented_elem (x : string) (xs : list string) :
  x ∈ xs →
  ∃ before after, indented xs = before +:+ "   " +:+ x +:+ newline +:+ after.
Proof.
  induction xs as [|y xs IH]; [intros H; inversion H|].
  intros [->|Hin]%elem_of_cons.
  - exists "", (indented xs). reflexivity.
  - destruct (IH Hin) as (before & after & E).
    exists ("   " +:+ y +:+ newline +:+ before), after.
    cbn [indented]. rewrite E, !append_assoc. reflexivity.
Qed.

Lemma line_in_prefix (pre s row : string) :
  (∃ before after, s = before +:+ "   " +:+ row +:+ newline +:+ after) →
  ∃ before after, pre +:+ s = before +:+ "   " +:+ row +:+ newline +:+ after.
Proof.
  intros (before & after & ->). exists (pre +:+ before), after.
  rewrite append_assoc. reflexivity.
Qed.

Lemma line_in_suffix (s post row : string) :
  (∃ before after, s = before +:+ "   " +:+ row +:+ newline +:+ after) →
  ∃ before after, s +:+ post = before +:+ "   " +:+ row +:+ newline +:+ after.
Proof.
  intros (before & after & ->). exists before, (after +:+ post).
  rewrite !append_assoc. reflexivity.
Qed.

Lemma Usage_main_total fuel n h p :
  is_Some (lineage fuel h p) → tree_below h n p → n ≤ fuel →
  ∃ h1 main, Usage_main fuel h p = Some (h1, main) ∧ same_tree h h1.
Proof.
  intros Hlin Htree Hfuel.
  destruct (HasAvailableSubCommands_total h n fuel p Htree Hfuel) as [sub Hsub].
  destruct (CommandPath_total _ _ _ Hlin) as [path Hpath].
  destruct (UseLine_total _ _ _ Hlin) as [line Hline].
  unfold Usage_main. destruct Hlin as [cs Hcs].
  destruct (lineage_head _ _ _ _ Hcs) as (c & rest & -> & Hc). rewrite Hc.
  cbn [mbind option_bind]. destruct (IsRunnable c).
  - unfold HasAvailableFlags.
    destruct (FullFlags_total fuel h p) as [[h1 F] HF]; [eauto|]. rewrite HF.
    pose proof (FullFlags_same_tree _ _ _ _ _ HF) as Hsame.
    cbn [mbind option_bind].
    rewrite (UseLine_same_tree _ _ _ _ Hsame), Hline.
    rewrite (HasAvailableSubCommands_same_tree _ _ _ _ Hsame), Hsub.
    rewrite (CommandPath_same_tree _ _ _ _ Hsame), Hpath.
    destruct (0 <? Size F), sub; cbn; eauto.
  - rewrite Hsub. cbn [mbind option_bind]. rewrite Hpath.
    destruct sub; cbn; eauto using same_tree_refl.
Qed.

Lemma Rpad_20 (s : string) : is_Some (Rpad s 20).
Proof. rewrite Rpad_not_negative by lia. eauto. Qed.

Lemma Flag_Usage_total (l : list (Flag W)) : is_Some (mapM Flag_Usage l).
Proof.
  apply mapM_is_Some_2, Forall_forall. intros f _. unfold compose, Flag_Usage.
  cbv zeta.
  match goal with |- is_Some (mbind _ (Rpad ?s 20)) => destruct (Rpad_20 s) as [r ->] end.
  cbn. eauto.
Qed.

Lemma bind_if_Some {A B} (b : bool) (x y : A) (k : A → option B) :
  (if b then Some x else Some y) ≫= k = k (if b then x else y).
Proof. destruct b; reflexivity. Qed.

Lemma Usage_children_rows n h h1 p (c c1 : Command W) :
  h !! p = Some c → h1 !! p = Some c1 → same_tree h h1 →
  tree_below h n p →
  ∃ rows,
    mapM (λ cmd, d ← h1 !! cmd; padded ← Rpad (Name d) 20; Some (padded +:+ Short d))
      (Commands c1)
    = Some rows
    ∧ ∀ cmd d, cmd ∈ Commands c → h !! cmd = Some d →
        ∃ padded, Rpad (Name d) 20 = Some padded ∧ padded +:+ Short d ∈ rows.
Proof.
  intros Hc Hc1 Hsame Htree.
  destruct (same_tree_lookup _ _ _ _ Hsame Hc) as (c' & Hc' & Hcc).
  assert (c' = c1) as -> by congruence.
  destruct (without_persistent_fields _ _ Hcc) as (_ & HC & _). rewrite HC.
  destruct n as [|n]; [destruct Htree|].
  destruct Htree as (c0 & Hc0 & Hsub). assert (c0 = c) as -> by congruence.
  clear Hc Hc1 Hc0 Hcc HC.
  induction (Commands c) as [|cmd cmds IH].
  - exists []. split; [reflexivity|]. intros cmd d H. inversion H.
  - apply Forall_cons in Hsub as [Hcmd Hsub].
    destruct (IH Hsub) as (rows & Hrows & Hin).
    destruct n as [|n]; [destruct Hcmd|]. destruct Hcmd as (d0 & Hd0 & _).
    destruct (same_tree_lookup _ _ _ _ Hsame Hd0) as (d1 & Hd1 & Hdd).
    destruct (without_persistent_texts _ _ Hdd) as (HS & _ & _ & HN).
    destruct (Rpad_20 (Name d0)) as [padded Hpad].
    exists ((padded +:+ Short d0) :: rows). split.
    + cbn [mapM]. rewrite Hd1, Hrows. cbn [mbind option_bind]. rewrite HN, Hpad, HS.
      reflexivity.
    + intros cmd' d [->|Hin']%elem_of_cons Hd.
      * assert (d = d0) as -> by congruence. exists padded.
        split; [exact Hpad|]. apply elem_of_cons. left. reflexivity.
      * destruct (Hin _ _ Hin' Hd) as (padded' & Hpad' & Hrow). exists padded'.
        split; [exact Hpad'|]. apply elem_of_cons. right. exact Hrow.
Qed.

(** X29: The usage lines of a runnable command that has flags and no available
    subcommand: the second [if] of the block is not an [else if], so its
    [else] branch runs as well and the use line is printed twice, first with
    [[flags]] and then without. *)
Theorem Usage_prints_use_line_twice fuel h p (c : Command W) h1 (F : Flags W) :
  h !! p = Some c → Run c ≠ None →
  is_Some (lineage fuel h p) →
  FullFlags fuel h p = Some (h1, F) → flags F ≠ [] →
  HasAvailableSubCommands fuel h p = Some false →
  ∃ line rest,
    UseLine fuel h p = Some line
    ∧ Usage_text fuel h p
      = Some (h1, "Usage:" +:+ newline
                  +:+ (("   " +:+ line +:+ " [flags]" +:+ newline)
                       +:+ ("   " +:+ line +:+ newline))
                  +:+ rest).
Proof.
  intros Hc Hrun Hlin HF Hflags Hsub.
  destruct (UseLine_total _ _ _ Hlin) as [line Hline].
  pose proof (FullFlags_same_tree _ _ _ _ _ HF) as Hsame.
  destruct (same_tree_lookup _ _ _ _ Hsame Hc) as (c1 & Hc1 & Hcc).
  destruct (InheritedFlags_total _ _ _ (lineage_same_tree _ _ _ _ Hsame Hlin))
    as [inherited Hinh].
  destruct (Flag_Usage_total (flags (LocalFlags c1))) as [local_rows Hlocal].
  destruct (Flag_Usage_total (flags inherited)) as [global_rows Hglobal].
  exists line. eexists. split; [exact Hline|].
  unfold Usage_text, Usage_main. rewrite Hc. cbn [mbind option_bind].
  unfold IsRunnable. rewrite bool_decide_eq_true_2
    by (destruct (Run c); [eauto | contradiction]).
  unfold HasAvailableFlags. rewrite HF. cbn [mbind option_bind].
  replace (0 <? Size F) with true
    by (unfold Size; destruct (flags F); [contradiction | reflexivity]).
  rewrite (UseLine_same_tree _ _ _ _ Hsame), Hline.
  rewrite (HasAvailableSubCommands_same_tree _ _ _ _ Hsame), Hsub.
  cbn [mbind option_bind]. rewrite Hc1. cbn [mbind option_bind].
  rewrite (HasAvailableSubCommands_same_tree _ _ _ _ Hsame), Hsub.
  cbn [mbind option_bind]. rewrite Hlocal. cbn [mbind option_bind].
  rewrite bind_if_Some, Hinh. cbn [mbind option_bind].
  rewrite Hglobal. cbn [mbind option_bind]. rewrite bind_if_Some. reflexivity.
Qed.

(** X30: As soon as one subcommand is available, the block "Available commands:"
    of the usage text has a row for every subcommand, its name padded to 20
    columns and its short description: hidden and deprecated ones are
    listed like the others. *)
Theorem Usage_lists_every_subcommand fuel n h p (c : Command W) :
  h !! p = Some c →
  is_Some (lineage fuel h p) → tree_below h n p → n ≤ fuel →
  HasAvailableSubCommands fuel h p = Some true →
  ∃ h1 text,
    Usage_text fuel h p = Some (h1, text)
    ∧ ∀ cmd d, cmd ∈ Commands c → h !! cmd = Some d →
        ∃ padded before after,
          Rpad (Name d) 20 = Some padded
          ∧ text = before +:+ "   " +:+ (padded +:+ Short d) +:+ newline +:+ after.
Proof.
  intros Hc Hlin Htree Hfuel Hsub.
  destruct (Usage_main_total _ _ _ _ Hlin Htree Hfuel) as (h1 & main & Hmain & Hsame).
  destruct (same_tree_lookup _ _ _ _ Hsame Hc) as (c1 & Hc1 & Hcc).
  destruct (InheritedFlags_total _ _ _ (lineage_same_tree _ _ _ _ Hsame Hlin))
    as [inherited Hinh].
  destruct (Usage_children_rows _ _ _ _ _ _ Hc Hc1 Hsame Htree)
    as (rows & Hrows & Hin).
  destruct (Flag_Usage_total (flags (LocalFlags c1))) as [local_rows Hlocal].
  destruct (Flag_Usage_total (flags inherited)) as [global_rows Hglobal].
  exists h1. eexists. split.
  - unfold Usage_text. rewrite Hmain. cbn [mbind option_bind]. rewrite Hc1.
    cbn [mbind option_bind].
    rewrite (HasAvailableSubCommands_same_tree _ _ _ _ Hsame), Hsub.
    cbn [mbind option_bind]. rewrite Hrows. cbn [mbind option_bind].
    rewrite Hlocal. cbn [mbind option_bind]. rewrite bind_if_Some, Hinh.
    cbn [mbind option_bind]. rewrite Hglobal. cbn [mbind option_bind].
    rewrite bind_if_Some. reflexivity.
  - intros cmd d Hcmd Hd. destruct (Hin _ _ Hcmd Hd) as (padded & Hpad & Hrow).
    exists padded.
    assert (Hline : ∃ before after,
              "Usage:" +:+ newline +:+ main
              +:+ (if 0 <? length (Aliases c1)
                   then newline +:+ "Aliases:" +:+ newline +:+ "   " +:+ Name c1
                        +:+ newline +:+ indented (Aliases c1)
                   else "")
              +:+ (if HasExample c1
                   then newline +:+ "Example:" +:+ newline +:+ "   " +:+ Example c1
                        +:+ newline
                   else "")
              +:+ (newline +:+ "Available commands:" +:+ newline +:+ indented rows)
              +:+ (if 0 <? Size (LocalFlags c1)
                   then newline +:+ "Flags:" +:+ newline +:+ indented local_rows
                   else "")
              +:+ (if 0 <? Size inherited
                   then newline +:+ "Global Flags:" +:+ newline +:+ indented global_rows
                   else "")
              = before +:+ "   " +:+ (padded +:+ Short d) +:+ newline +:+ after).
    { do 5 apply line_in_prefix. apply line_in_suffix. do 3 apply line_in_prefix.
      exact (indented_elem _ _ Hrow). }
    destruct Hline as (before & after & Hline). exists before, after.
    split; [exact Hpad | exact Hline].
Qed.

End Usage_text_facts.

Example Usage_text_app_hidden :
  snd <$> Usage_text 3 app_hidden 0
  = Some ("Usage:" +:+ newline +:+ "   app [command]" +:+ newline +:+ newline
          +:+ "Available commands:" +:+ newline
          +:+ "   run                 " +:+ newline
          +:+ "   secret              not for users" +:+ newline).
Proof. vm_compute. reflexivity. Qed.

Example Usage_text_chain_abc :
  snd <$> Usage_text 3 chain_abc 2
  = Some ("Usage:" +:+ newline +:+ "   a b c [flags]" +:+ newline
          +:+ "   a b c" +:+ newline).
Proof. vm_compute. reflexivity. Qed.

Lemma chain_abc_FullFlags :
  FullFlags 3 chain_abc 2
  = Some (<[2 := make_Command "c" [verbose_flag] (Some run_ok) (Some 1) [] true]> chain_abc,
          {| flags := [verbose_flag]; ContinueOnError := false |}).
Proof. vm_compute. reflexivity. Qed.

Lemma Usage_prints_use_line_twice_witness :
  ∃ line rest,
    UseLine 3 chain_abc 2 = Some line
    ∧ Usage_text 3 chain_abc 2
      = Some (<[2 := make_Command "c" [verbose_flag] (Some run_ok) (Some 1) [] true]>
                chain_abc,
              "Usage:" +:+ newline
              +:+ (("   " +:+ line +:+ " [flags]" +:+ newline)
                   +:+ ("   " +:+ line +:+ newline))
              +:+ rest).
Proof.
  apply (Usage_prints_use_line_twice 3 chain_abc 2
           (make_Command "c" [] (Some run_ok) (Some 1) [] true) _
           {| flags := [verbose_flag]; ContinueOnError := false |}).
  - vm_compute. reflexivity.
  - discriminate.
  - eexists. exact chain_abc_lineage.
  - exact chain_abc_FullFlags.
  - discriminate.
  - vm_compute. reflexivity.
Defined.

Lemma app_hidden_tree : tree_below app_hidden 2 0.
Proof.
  eexists. split; [vm_compute; reflexivity|].
  repeat constructor; eexists; (split; [vm_compute; reflexivity | constructor]).
Qed.

Lemma Usage_lists_every_subcommand_witness :
  ∃ h1 text,
    Usage_text 3 app_hidden 0 = Some (h1, text)
    ∧ ∀ cmd d, cmd ∈ [1; 2] → app_hidden !! cmd = Some d →
        ∃ padded before after,
          Rpad (Name d) 20 = Some padded
          ∧ text = before +:+ "   " +:+ (padded +:+ Short d) +:+ newline +:+ after.
Proof.
  apply (Usage_lists_every_subcommand 3 2 app_hidden 0
           (make_Command "app" [] None None [1; 2] true)).
  - vm_compute. reflexivity.
  - eexists. vm_compute. reflexivity.
  - exact app_hidden_tree.
  - lia.
  - vm_compute. reflexivity.
Defined.

Section Usage_text_heap.

Context {W : Type}.

Lemma Usage_main_heap fuel (h h1 : gmap ptr (Command W)) p (main : string) :
  Usage_main fuel h p = Some (h1, main) →
  ∃ c, h !! p = Some c
       ∧ if IsRunnable c then ∃ has_flags, HasAvailableFlags fuel h p = Some (h1, has_flags)
         else h1 = h.
Proof.
  unfold Usage_main. destruct (h !! p) as [c|]; [|discriminate].
  cbn [mbind option_bind]. intros H. exists c. split; [reflexivity|].
  destruct (IsRunnable c).
  - destruct (HasAvailableFlags fuel h p) as [[h2 has_flags]|]; [|discriminate].
    cbn [mbind option_bind] in H. exists has_flags.
    apply bind_Some in H as (first & _ & H).
    apply bind_Some in H as (has_commands & _ & H).
    apply bind_Some in H as (second & _ & H).
    congruence.
  - apply bind_Some in H as (has_commands & _ & H). destruct has_commands.
    + apply bind_Some in H as (path & _ & H). congruence.
    + congruence.
Qed.

(** The commands are left by [Usage_text] as [Usage] describes. *)
Lemma Usage_text_heap fuel (h h' : gmap ptr (Command W)) p (text : string) :
  is_Some (lineage fuel h p) →
  Usage_text fuel h p = Some (h', text) → Usage fuel h p = Some h'.
Proof.
  intros Hlin. unfold Usage_text. intros H.
  apply bind_Some in H as ([h1 main] & Hmain & H).
  apply bind_Some in H as (c1 & _ & H).
  apply bind_Some in H as (sub & Hsub & H).
  apply bind_Some in H as (commands & _ & H).
  apply bind_Some in H as (local & _ & H).
  apply bind_Some in H as (inherited & Hinh & H).
  apply bind_Some in H as (global & _ & H).
  assert (h1 = h') as -> by congruence. clear H.
  destruct (Usage_main_heap _ _ _ _ _ Hmain) as (c & Hc & Hheap).
  unfold Usage. rewrite Hc. cbn [mbind option_bind].
  destruct (IsRunnable c).
  - destruct Hheap as (has_flags & HF). rewrite HF.
    cbn [mbind option_bind fmap option_fmap option_map fst].
    rewrite Hsub, Hinh. cbn [mbind option_bind].
    assert (Hsame : same_tree h h').
    { unfold HasAvailableFlags in HF.
      apply bind_Some in HF as ([h3 F] & E & HF).
      assert (h3 = h') as -> by congruence.
      exact (FullFlags_same_tree _ _ _ _ _ E). }
    destruct (CommandPath_total _ _ _ (lineage_same_tree _ _ _ _ Hsame Hlin)) as [? ->].
    reflexivity.
  - subst h'. cbn [mbind option_bind]. rewrite Hsub, Hinh. cbn [mbind option_bind].
    destruct (CommandPath_total _ _ _ Hlin) as [? ->]. reflexivity.
Qed.

End Usage_text_heap.
